(** * fc-trails: icon and thumbnail generators

    A shallow embedding of [scripts/generate-thumbnails.py] and
    [scripts/generate-icons.py].

    The two scripts are sequential programs over the file system and the
    imaging library.  The file system is a finite map from paths to nodes,
    threaded through a small state-and-exception monad that also collects
    the printed lines.  The imaging library is modelled by the operations
    the scripts call; the resampling filter, the mode conversions the
    scripts do not single out, the decoders of written files and the
    reducing copy of the ICO writer are parameters of the development
    (record [Imaging]). *)

From Stdlib Require Import ZArith Lia Ascii OrdersEx DecimalString.
From stdpp Require Import gmap strings list sorting.

Local Open Scope Z_scope.

(** ** Imaging library: modes, pixels, images *)

(** The color modes of the imaging library. *)
Inductive Mode :=
  | M_1 | M_L | M_P | M_RGB | M_RGBA | M_CMYK | M_YCbCr | M_LAB | M_HSV
  | M_I | M_F | M_LA | M_PA | M_RGBX | M_RGBa | M_La | M_I16.

Global Instance Mode_eq_dec : EqDecision Mode.
Proof. solve_decision. Defined.

(** Modes that carry an alpha band. *)
Definition has_alpha (m : Mode) : bool :=
  match m with
  | M_RGBA | M_LA | M_PA | M_RGBa | M_La => true
  | _ => false
  end.

(** Modes whose pixels are indices into a palette. *)
Definition is_palette (m : Mode) : bool :=
  match m with
  | M_P | M_PA => true
  | _ => false
  end.

(** A stored pixel: up to four 8-bit band values. *)
Definition px : Type := Z * Z * Z * Z.

Definition px_alpha (p : px) : Z := let '(_, _, _, a) := p in a.

Record Image := mkImage {
  mode : Mode;
  size : Z * Z;                (* (width, height) *)
  load : Z -> Z -> px;         (* pixel at column x, row y *)
  palette : Z -> px            (* palette entry of an index (modes P, PA) *)
}.

(** [img.getpixel((x, y))]: the bands the mode exposes. *)
Definition getpixel (img : Image) (x y : Z) : list Z :=
  let '(v0, v1, v2, v3) := load img x y in
  match mode img with
  | M_1 | M_L | M_P | M_I | M_F | M_I16 => [v0]
  | M_LA | M_PA | M_La => [v0; v3]
  | M_RGB | M_YCbCr | M_LAB | M_HSV => [v0; v1; v2]
  | M_RGBA | M_CMYK | M_RGBX | M_RGBa => [v0; v1; v2; v3]
  end.

(** Output formats, with the encoder parameters the scripts pass. *)
Inductive Format :=
  | JPEG (quality : Z)
  | PNG
  | ICO (sizes : list (Z * Z)).

(** The order of [sorted] on sizes: by width, then by height. *)
Definition size_le (a b : Z * Z) : Prop :=
  a.1 < b.1 \/ (a.1 = b.1 /\ a.2 <= b.2).

Global Instance size_le_dec a b : Decision (size_le a b).
Proof. unfold size_le. solve_decision. Defined.

(** The parts of the imaging library the development is parametric in. *)
Record Imaging := mkImaging {
  (* pixel (x, y) of an image resized to a size with the LANCZOS filter *)
  lanczos : Image -> Z * Z -> Z -> Z -> px;
  (* pixel (x, y) of an image converted to a mode, for the conversions
     that [convert] below does not spell out *)
  convert_px : Image -> Mode -> Z -> Z -> px;
  (* what a file written by an encoder decodes to *)
  reopen : Format -> list Image -> option Image;
  (* the copy of an image reduced to a size by
     [thumbnail(size, LANCZOS, reducing_gap=None)], which the ICO writer
     makes for a requested size no provided image has *)
  reduced : Image -> Z * Z -> Image
}.

(** An instance used to run the scripts on concrete inputs: nearest
    neighbour instead of LANCZOS, band-preserving conversions, a lossless
    decoder returning the first frame, and nearest neighbour again for the
    reducing copy. *)
Definition nearest (img : Image) (sz : Z * Z) (x y : Z) : px :=
  load img (x * fst (size img) / fst sz) (y * snd (size img) / snd sz).

Definition simple_imaging : Imaging :=
  {| lanczos := nearest;
     convert_px := fun img _ => load img;
     reopen := fun _ imgs => head imgs;
     reduced := fun img sz =>
       {| mode := mode img; size := sz;
          load := nearest img sz; palette := palette img |} |}.

(** ** Paths and names *)

(** A path is the list of its components below the project root
    ([Path(__file__).parent.parent]). *)
Abbreviation path := (list string).

(** [p / name] *)
Definition joinpath (p : path) (name : string) : path := p ++ [name].

(** [p.name] *)
Definition name (p : path) : string := List.last p "".

(** Position of the last ["."] of a string ([str.rfind('.')]). *)
Fixpoint rfind_dot (s : string) : option nat :=
  match s with
  | EmptyString => None
  | String c s' =>
      match rfind_dot s' with
      | Some i => Some (S i)
      | None => if Ascii.eqb c "."%char then Some 0%nat else None
      end
  end.

(** [PurePath.suffix] on the final component: the part from the last dot,
    unless that dot is the first or the last character (so [.jpg] and
    [photo.] have no suffix). *)
Definition suffix_of_name (n : string) : string :=
  match rfind_dot n with
  | Some i =>
      if ((0 <? i)%nat && (i <? String.length n - 1)%nat)%bool
      then String.substring i (String.length n - i) n
      else ""
  | None => ""
  end.

(** [PurePath.stem] on the final component. *)
Definition stem_of_name (n : string) : string :=
  match rfind_dot n with
  | Some i =>
      if ((0 <? i)%nat && (i <? String.length n - 1)%nat)%bool
      then String.substring 0 i n
      else n
  | None => n
  end.

Definition suffix (p : path) : string := suffix_of_name (name p).
Definition stem (p : path) : string := stem_of_name (name p).

(** [str.lower()] on the ASCII range. *)
Definition lower_ascii (c : ascii) : ascii :=
  let n := N_of_ascii c in
  if ((65 <=? n) && (n <=? 90))%N then ascii_of_N (n + 32) else c.

Fixpoint lower (s : string) : string :=
  match s with
  | EmptyString => EmptyString
  | String c s' => String (lower_ascii c) (lower s')
  end.

(** Order of [sorted(...)] on the entries of one directory.  Paths compare
    component by component and the entries of one directory differ in the
    last component only, so this is the order of their names, character
    code by character code, as on a POSIX system: upper case sorts before
    lower case. *)
Definition name_le (a b : string) : Prop := String_as_OT.compare a b <> Gt.

Global Instance name_le_dec a b : Decision (name_le a b).
Proof. unfold name_le. solve_decision. Defined.

(** ** File system *)

(** What a regular file holds: bytes that came with the tree, described
    by what the image decoder makes of them, or the output of an encoder
    of the imaging library. *)
Inductive content :=
  | Source (decoded : option Image)
  | Written (fmt : Format) (frames : list Image).

Inductive node :=
  | NDir                       (* a directory *)
  | NFile (c : content)        (* a regular file *)
  | NSpecial.                  (* neither, e.g. a socket *)

Abbreviation filesystem := (gmap path node).

Inductive error :=
  | FileNotFoundError | NotADirectoryError | FileExistsError
  | IsADirectoryError | UnidentifiedImageError | OSError | ValueError
  | IndexError.

(** Lines printed by the scripts, one constructor per [print] format. *)
Inductive line :=
  | TrailsNotFound (trails_dir : path)
      (* "Trails directory not found at {trails_dir}" *)
  | NoPhotosDir (photos_dir : path)
      (* "No photos directory found at {photos_dir}" *)
  | ThumbLine (img_name thumb_name : string)
      (* "  {img_file.name} -> thumbs/{thumb_name}" *)
  | ProcessedWaypoint (waypoint : string) (count : nat)
      (* "Processed waypoint {waypoint_dir.name}: {n} thumbnails" *)
  | ProcessingTrail (trail : string)
      (* "\nProcessing trail: {trail_dir.name}" *)
  | Created (file : string) (sizes : list (Z * Z))
      (* "Created {output_path.name} ({size}x{size})" *)
  | Done.
      (* "\nDone!" *)

(** ** The monad of the scripts: file-system state, printed lines,
    exceptions *)

Inductive result (A : Type) :=
  | Ok (a : A) (out : list line) (fs : filesystem)
  | Raise (e : error).
Arguments Ok {A} a out fs.
Arguments Raise {A} e.

Definition M (A : Type) : Type := filesystem -> result A.

Definition ret {A} (a : A) : M A := fun fs => Ok a [] fs.

Definition bind {A B} (f : A -> M B) (m : M A) : M B :=
  fun fs =>
    match m fs with
    | Raise e => Raise e
    | Ok a out1 fs1 =>
        match f a fs1 with
        | Raise e => Raise e
        | Ok b out2 fs2 => Ok b (out1 ++ out2) fs2
        end
    end.

Global Instance M_ret : MRet M := @ret.
Global Instance M_bind : MBind M := @bind.

Definition raise {A} (e : error) : M A := fun _ => Raise e.
Definition print (l : line) : M unit := fun fs => Ok tt [l] fs.
Definition lift {A} (r : error + A) : M A :=
  match r with inl e => raise e | inr a => ret a end.

(** [for x in xs: body(x)] *)
Fixpoint for_each {A} (xs : list A) (body : A -> M unit) : M unit :=
  match xs with
  | [] => ret tt
  | x :: xs' => body x ;; for_each xs' body
  end.

(** *** File-system primitives *)

(** [p.exists()] *)
Definition exists_ (p : path) : M bool :=
  fun fs => Ok (bool_decide (is_Some (fs !! p))) [] fs.

(** [p.is_dir()] *)
Definition is_dir (p : path) : M bool :=
  fun fs => Ok (match fs !! p with Some NDir => true | _ => false end) [] fs.

(** The name of [q] when [q] is an entry of directory [p]. *)
Fixpoint child_of (p q : path) : option string :=
  match p, q with
  | [], [n] => Some n
  | x :: p', y :: q' => if decide (x = y) then child_of p' q' else None
  | _, _ => None
  end.

(** Names of the entries of directory [p], in no particular order. *)
Definition listdir (fs : filesystem) (p : path) : list string :=
  omap (fun kv => child_of p kv.1) (map_to_list fs).

(** [sorted(p.iterdir())] *)
Definition sorted_iterdir (p : path) : M (list path) :=
  fun fs =>
    match fs !! p with
    | Some NDir => Ok (joinpath p <$> merge_sort name_le (listdir fs p)) [] fs
    | Some _ => Raise NotADirectoryError
    | None => Raise FileNotFoundError
    end.

(** [p.mkdir(exist_ok=True)] *)
Definition mkdir_exist_ok (p : path) : M unit :=
  fun fs =>
    match fs !! p with
    | Some NDir => Ok tt [] fs
    | Some _ => Raise FileExistsError
    | None =>
        match fs !! removelast p with
        | Some NDir => Ok tt [] (<[p := NDir]> fs)
        | Some _ => Raise NotADirectoryError
        | None => Raise FileNotFoundError
        end
    end.

(** ** Imaging library: operations *)

(** Modes an encoder writes; any other mode makes [save] raise. *)
Definition encoder_accepts (fmt : Format) (m : Mode) : bool :=
  match fmt with
  | JPEG _ =>
      match m with
      | M_1 | M_L | M_RGB | M_RGBX | M_CMYK | M_YCbCr => true
      | _ => false
      end
  | PNG | ICO _ =>
      match m with
      | M_1 | M_L | M_LA | M_I | M_I16 | M_P | M_RGB | M_RGBA => true
      | _ => false
      end
  end.

(** [Image.new(mode, size, color)] with an RGB color. *)
Definition Image_new (m : Mode) (sz : Z * Z) (color : Z * Z * Z) : Image :=
  let '(r, g, b) := color in
  {| mode := m; size := sz;
     load := fun _ _ => (r, g, b, 255);
     palette := fun _ => (0, 0, 0, 0) |}.

(** [img.crop((left, upper, right, lower))] *)
Definition crop (img : Image) (box : Z * Z * Z * Z) : error + Image :=
  let '(x0, y0, x1, y1) := box in
  if ((x1 <? x0) || (y1 <? y0))%bool then inl ValueError
  else inr
    {| mode := mode img;
       size := (x1 - x0, y1 - y0);
       load := fun x y =>
         let '(w, h) := size img in
         if ((0 <=? x + x0) && (x + x0 <? w)
             && (0 <=? y + y0) && (y + y0 <? h))%bool
         then load img (x + x0) (y + y0) else (0, 0, 0, 0);
       palette := palette img |}.

(** The compositing arithmetic of the library's paste:
    [DIV255(a) = ((a + 128) >> 8 + (a + 128)) >> 8],
    [BLEND8(mask, in1, in2) = DIV255(in1 * (255 - mask) + in2 * mask)],
    [PREBLEND8(mask, in1, in2) = DIV255(in1 * (255 - mask)) + in2]. *)
Definition DIV255 (a : Z) : Z :=
  let tmp := a + 128 in Z.shiftr (Z.shiftr tmp 8 + tmp) 8.
Definition BLEND8 (mask in1 in2 : Z) : Z := DIV255 (in1 * (255 - mask) + in2 * mask).
Definition PREBLEND8 (mask in1 in2 : Z) : Z := DIV255 (in1 * (255 - mask)) + in2.

Definition blend_px (blend : Z -> Z -> Z) (out inp : px) : px :=
  let '(o0, o1, o2, o3) := out in
  let '(i0, i1, i2, i3) := inp in
  (blend o0 i0, blend o1 i1, blend o2 i2, blend o3 i3).

(** How a mask pixel combines a destination pixel with a source pixel, by
    the mode of the mask; [None] for a mode that is no transparency mask. *)
Definition mask_blend (mask_mode : Mode) : option (px -> px -> px -> px) :=
  match mask_mode with
  | M_RGBA | M_LA => Some (fun m => blend_px (BLEND8 (px_alpha m)))
  | M_RGBa => Some (fun m => blend_px (PREBLEND8 (px_alpha m)))
  | M_L => Some (fun m => blend_px (BLEND8 (let '(v, _, _, _) := m in v)))
  | M_1 => Some (fun m out inp => let '(v, _, _, _) := m in
                                  if v =? 0 then out else inp)
  | _ => None
  end.

Section WithImaging.

Context (lib : Imaging).

(** [img.convert(mode)]: RGBA to RGB keeps the color bands and forgets the
    alpha band; P to RGB looks the index up in the palette. *)
Definition convert (img : Image) (m : Mode) : Image :=
  {| mode := m;
     size := size img;
     load :=
       match mode img, m with
       | M_RGBA, M_RGB =>
           fun x y => let '(r, g, b, _) := load img x y in (r, g, b, 255)
       | M_P, M_RGB =>
           fun x y =>
             let '(i, _, _, _) := load img x y in
             let '(r, g, b, _) := palette img i in (r, g, b, 255)
       | _, _ =>
           if decide (mode img = m) then load img else convert_px lib img m
       end;
     palette := palette img |}.

(** [img.resize(size, Image.Resampling.LANCZOS)] *)
Definition resize (img : Image) (sz : Z * Z) : Image :=
  {| mode := mode img; size := sz;
     load := lanczos lib img sz;
     palette := palette img |}.

(** [self.paste(im, (x0, y0), mask)]: inside the box of [im]'s size, clipped
    to [self], the stored bytes are blended by the mask pixel; outside it
    [self] is unchanged.  The result is the new value of [self]. *)
Definition paste (self im : Image) (corner : Z * Z) (mask : Image)
  : error + Image :=
  let '(x0, y0) := corner in
  let im :=
    if decide (mode self = mode im) then im
    else if (bool_decide (mode self = M_RGB)
             && bool_decide (mode im ∈ [M_LA; M_RGBA; M_RGBa]))%bool then im
    else convert im (mode self) in
  if negb (bool_decide (size mask = size im)) then inl ValueError
  else
    match mask_blend (mode mask) with
    | None => inl ValueError
    | Some blend =>
        inr {| mode := mode self; size := size self;
               load := fun x y =>
                 let '(w, h) := size im in
                 let '(W, H) := size self in
                 if ((x0 <=? x) && (x <? x0 + w) && (y0 <=? y) && (y <? y0 + h)
                     && (0 <=? x) && (x <? W) && (0 <=? y) && (y <? H))%bool
                 then blend (load mask (x - x0) (y - y0))
                        (load self x y) (load im (x - x0) (y - y0))
                 else load self x y;
               palette := palette self |}
    end.

(** What the decoder makes of the bytes of a file. *)
Definition decode (c : content) : option Image :=
  match c with
  | Source decoded => decoded
  | Written fmt frames => reopen lib fmt frames
  end.

(** [Image.open(p)], with the pixel data loaded. *)
Definition Image_open (p : path) : M Image :=
  fun fs =>
    match fs !! p with
    | Some (NFile c) =>
        match decode c with
        | Some img => Ok img [] fs
        | None => Raise UnidentifiedImageError
        end
    | Some NDir => Raise IsADirectoryError
    | Some NSpecial => Raise OSError
    | None => Raise FileNotFoundError
    end.

(** The sizes the ICO writer writes: [sorted(set(sizes))] without the
    sizes that exceed the image that is saved, or 256. *)
Definition ico_sizes (first : Image) (sizes : list (Z * Z)) : list (Z * Z) :=
  filter (fun s => s.1 <= fst (size first) /\ s.2 <= snd (size first)
                   /\ s.1 <= 256 /\ s.2 <= 256)
    (merge_sort size_le (remove_dups sizes)).

(** The images the ICO writer puts into the file: for each size it
    writes, the first provided image of exactly that size, and when there
    is none a reduced copy of the last provided image. *)
Definition ico_frames (frames : list Image) (sizes : list (Z * Z))
  : list Image :=
  match frames with
  | [] => []
  | first :: _ =>
      (fun s =>
         match list_find (fun img => size img = s) frames with
         | Some (_, img) => img
         | None => reduced lib (List.last frames first) s
         end) <$> ico_sizes first sizes
  end.

(** The images an encoder puts into the file.  Without [save_all] the
    JPEG and PNG encoders write the image that is saved and pass the
    appended ones by. *)
Definition stored_frames (fmt : Format) (frames : list Image) : list Image :=
  match fmt with
  | ICO sizes => ico_frames frames sizes
  | JPEG _ | PNG => take 1 frames
  end.

(** [frames[0].save(p, fmt, append_images=frames[1:])]: the file is
    opened for writing, then the encoder runs on the images it stores. *)
Definition Image_save (frames : list Image) (p : path) (fmt : Format)
  : M unit :=
  fun fs =>
    let stored := stored_frames fmt frames in
    let encode :=
      if forallb (fun img => encoder_accepts fmt (mode img)) stored
      then Ok tt [] (<[p := NFile (Written fmt stored)]> fs)
      else Raise OSError in
    match fs !! p with
    | Some NDir => Raise IsADirectoryError
    | Some NSpecial => Raise OSError
    | Some (NFile _) => encode
    | None =>
        match fs !! removelast p with
        | Some NDir => encode
        | Some _ => Raise NotADirectoryError
        | None => Raise FileNotFoundError
        end
    end.

(** Whether a name matches the pattern ["*.jpg"]. *)
Definition matches_star_jpg (n : string) : bool :=
  let len := String.length n in
  ((4 <=? len)%nat && String.eqb (String.substring (len - 4) 4 n) ".jpg")%bool.

(** Number of entries of a directory whose name matches ["*.jpg"]. *)
Definition count_jpg (fs : filesystem) (p : path) : nat :=
  match fs !! p with
  | Some NDir =>
      length (filter (fun n => matches_star_jpg n = true) (listdir fs p))
  | _ => 0%nat
  end.

(** [len(list(p.glob('*.jpg')))] *)
Definition glob_jpg_count (p : path) : M nat :=
  fun fs => Ok (count_jpg fs p) [] fs.

(** ** scripts/generate-thumbnails.py *)

Definition THUMBNAIL_SIZE : Z := 160.
Definition JPEG_QUALITY : Z := 85.

(** Lines 17-19: convert to RGB if the mode is RGBA or P. *)
Definition convert_if_necessary (img : Image) : Image :=
  if bool_decide (mode img ∈ [M_RGBA; M_P]) then convert img M_RGB else img.

(** Lines 23-35: the crop box [(left, top, right, bottom)] of the center
    square. *)
Definition crop_box (width height : Z) : Z * Z * Z * Z :=
  if width >? height then
    let left_ := (width - height) / 2 in
    let top := 0 in
    let right_ := left_ + height in
    let bottom := height in
    (left_, top, right_, bottom)
  else
    let left_ := 0 in
    let top := (height - width) / 2 in
    let right_ := width in
    let bottom := top + width in
    (left_, top, right_, bottom).

(** Lines 17-41: from the opened image to the thumbnail that is saved. *)
Definition make_thumbnail (img : Image) (sz : Z) : error + Image :=
  let img := convert_if_necessary img in
  let '(width, height) := size img in
  match crop img (crop_box width height) with
  | inl e => inl e
  | inr img_cropped => inr (resize img_cropped (sz, sz))
  end.

Definition create_square_thumbnail (input_path output_path : path) (sz : Z)
  : M unit :=
  img ← Image_open input_path;
  img_thumbnail ← lift (make_thumbnail img sz);
  Image_save [img_thumbnail] output_path (JPEG JPEG_QUALITY).

Definition image_suffixes : list string := [".jpg"; ".jpeg"; ".png"; ".webp"].

(** Lines 66-71: whether an entry of a waypoint directory goes on to
    become a thumbnail. *)
Definition selected (entry_is_dir : bool) (entry_name : string) : bool :=
  (negb entry_is_dir
   && bool_decide (lower (suffix_of_name entry_name) ∈ image_suffixes))%bool.

(** Lines 66-78: the body of the loop over the entries of a waypoint. *)
Definition process_image (thumbs_dir img_file : path) : M unit :=
  d ← is_dir img_file;
  if selected d (name img_file) then
    let thumb_name := stem img_file +:+ ".jpg" in
    let thumb_path := joinpath thumbs_dir thumb_name in
    print (ThumbLine (name img_file) thumb_name);;
    create_square_thumbnail img_file thumb_path THUMBNAIL_SIZE
  else mret tt.

(** Lines 57-80: the body of the loop over the entries of [photos]. *)
Definition process_waypoint (waypoint_dir : path) : M unit :=
  d ← is_dir waypoint_dir;
  if negb d then mret tt
  else
    let thumbs_dir := joinpath waypoint_dir "thumbs" in
    mkdir_exist_ok thumbs_dir;;
    files ← sorted_iterdir waypoint_dir;
    for_each files (process_image thumbs_dir);;
    n ← glob_jpg_count thumbs_dir;
    print (ProcessedWaypoint (name waypoint_dir) n).

Definition process_trail (trail_path : path) : M unit :=
  let photos_dir := joinpath trail_path "photos" in
  e ← exists_ photos_dir;
  if negb e then print (NoPhotosDir photos_dir)
  else
    waypoints ← sorted_iterdir photos_dir;
    for_each waypoints process_waypoint.

(** Lines 94-98: the body of the loop over the entries of [trails]. *)
Definition visit_trail (trail_dir : path) : M unit :=
  d ← is_dir trail_dir;
  if negb d then mret tt
  else
    print (ProcessingTrail (name trail_dir));;
    process_trail trail_dir.

Definition trails_dir : path := ["trails"].

Definition main : M unit :=
  e ← exists_ trails_dir;
  if negb e then print (TrailsNotFound trails_dir)
  else
    trails ← sorted_iterdir trails_dir;
    for_each trails visit_trail;;
    print Done.

(** ** scripts/generate-icons.py *)

(** [str(n)] *)
Definition str (n : Z) : string := NilZero.string_of_int (Z.to_int n).

(** Lines 33-36 and 45-48: a white RGB canvas of the target size, with the
    resized logo pasted at the origin through its own alpha band. *)
Definition on_white_background (img : Image) (sz : Z) : error + Image :=
  let background := Image_new M_RGB (sz, sz) (255, 255, 255) in
  let resized := resize img (sz, sz) in
  paste background resized (0, 0) resized.

(** Lines 19-20: ensure RGBA mode. *)
Definition ensure_rgba (img : Image) : Image :=
  if decide (mode img ≠ M_RGBA) then convert img M_RGBA else img.

Definition logo_path : path := ["images"; "fcf-logo.png"].
Definition icons_dir : path := ["icons"].

Definition generate_icons : M unit :=
  mkdir_exist_ok icons_dir;;
  img ← Image_open logo_path;
  let img := ensure_rgba img in
  (* PWA icons *)
  for_each [192; 512] (fun sz =>
    let resized := resize img (sz, sz) in
    let output_path := joinpath icons_dir ("icon-" +:+ str sz +:+ ".png") in
    Image_save [resized] output_path PNG;;
    print (Created (name output_path) [(sz, sz)]));;
  (* Apple touch icon *)
  let apple_size := 180 in
  background ← lift (on_white_background img apple_size);
  let output_path := joinpath icons_dir "apple-touch-icon.png" in
  Image_save [background] output_path PNG;;
  print (Created (name output_path) [(apple_size, apple_size)]);;
  (* favicon sizes *)
  favicon_images ← foldl
    (fun (acc : M (list Image)) sz =>
       favicon_images ← acc;
       background ← lift (on_white_background img sz);
       mret (favicon_images ++ [background]))
    (mret []) [16; 32; 48];
  let output_path := joinpath icons_dir "favicon.ico" in
  match favicon_images with
  | [] => raise IndexError
  | first :: rest =>
      Image_save (first :: rest) output_path (ICO [(16, 16); (32, 32); (48, 48)])
  end;;
  print (Created (name output_path) [(16, 16); (32, 32); (48, 48)]);;
  (* 32x32 PNG favicon *)
  let resized := resize img (32, 32) in
  let output_path := joinpath icons_dir "favicon-32.png" in
  Image_save [resized] output_path PNG;;
  print (Created (name output_path) [(32, 32)]);;
  print Done.

End WithImaging.

(** ** Concrete inputs *)

(** An image of one color. *)
Definition flat (m : Mode) (w h : Z) (p : px) : Image :=
  {| mode := m; size := (w, h);
     load := fun _ _ => p;
     palette := fun _ => (0, 0, 0, 0) |}.

(** A 300x200 landscape photo, a transparent 200x300 portrait picture and
    a grey picture with an alpha band. *)
Definition landscape : Image := flat M_RGB 300 200 (10, 20, 30, 255).
Definition portrait : Image := flat M_RGBA 200 300 (1, 2, 3, 0).
Definition grey_alpha : Image := flat M_LA 4 4 (7, 7, 7, 128).

(** A logo that is opaque on its left half and transparent on its right
    half. *)
Definition logo : Image :=
  {| mode := M_RGBA; size := (64, 64);
     load := fun x _ => if x <? 32 then (200, 30, 30, 255) else (0, 0, 0, 0);
     palette := fun _ => (0, 0, 0, 0) |}.

Definition W1 : path := ["trails"; "A"; "photos"; "W1"].

(** The scenario of the specification: one trail [A], one waypoint [W1]
    holding [img.JPG], [img.png] and [notes.txt]; a stray file next to
    the trail. *)
Definition fs_scenario : filesystem :=
  list_to_map
    [ ([], NDir);
      (["trails"], NDir);
      (["trails"; "readme.md"], NFile (Source None));
      (["trails"; "A"], NDir);
      (["trails"; "A"; "photos"], NDir);
      (["trails"; "A"; "photos"; "gpx.xml"], NFile (Source None));
      (W1, NDir);
      (W1 ++ ["img.JPG"], NFile (Source (Some landscape)));
      (W1 ++ ["img.png"], NFile (Source (Some portrait)));
      (W1 ++ ["notes.txt"], NFile (Source None)) ].

(** A project without a [trails] directory. *)
Definition fs_no_trails : filesystem :=
  list_to_map [ ([], NDir); (["scripts"], NDir) ].

(** A waypoint holding a grey picture with alpha. *)
Definition fs_grey_alpha : filesystem :=
  list_to_map
    [ ([], NDir); (["trails"], NDir); (["trails"; "A"], NDir);
      (["trails"; "A"; "photos"], NDir); (W1, NDir);
      (W1 ++ ["thumbs"], NDir);
      (W1 ++ ["grey.png"], NFile (Source (Some grey_alpha))) ].

(** A waypoint holding a socket whose name ends in [.jpg]. *)
Definition fs_socket : filesystem :=
  list_to_map
    [ ([], NDir); (["trails"], NDir); (["trails"; "A"], NDir);
      (["trails"; "A"; "photos"], NDir); (W1, NDir);
      (W1 ++ ["thumbs"], NDir);
      (W1 ++ ["cam.jpg"], NSpecial) ].

(** A waypoint holding a file [bad.jpg] that is no image. *)
Definition fs_corrupt : filesystem :=
  list_to_map
    [ ([], NDir); (["trails"], NDir); (["trails"; "A"], NDir);
      (["trails"; "A"; "photos"], NDir); (W1, NDir);
      (W1 ++ ["a.jpg"], NFile (Source (Some landscape)));
      (W1 ++ ["bad.jpg"], NFile (Source None)) ].

(** A project whose [trails] is a regular file. *)
Definition fs_trails_is_file : filesystem :=
  list_to_map [ ([], NDir); (["trails"], NFile (Source None)) ].

(** A project with a logo and no [icons] directory yet. *)
Definition fs_logo : filesystem :=
  list_to_map
    [ ([], NDir); (["images"], NDir);
      (["images"; "fcf-logo.png"], NFile (Source (Some logo))) ].

(** What a run printed and the file system it left. *)
Definition printed {A} (r : result A) : list line :=
  match r with Ok _ out _ => out | Raise _ => [] end.

Definition final_fs {A} (r : result A) : filesystem :=
  match r with Ok _ _ fs => fs | Raise _ => ∅ end.

(** The thumbnail generator on the scenario of the specification. *)
Definition scenario_run : result unit := main simple_imaging fs_scenario.

(** Its waypoint alone. *)
Definition scenario_waypoint : result unit :=
  process_waypoint simple_imaging W1 fs_scenario.

(** *** More concrete inputs *)

(** A [trails] directory holding no directory. *)
Definition fs_empty_trails : filesystem :=
  list_to_map
    [ ([], NDir); (["trails"], NDir);
      (["trails"; "readme.md"], NFile (Source None)) ].

(** A trail whose [photos] is a regular file. *)
Definition fs_photos_is_file : filesystem :=
  list_to_map
    [ ([], NDir); (["trails"], NDir); (["trails"; "A"], NDir);
      (["trails"; "A"; "photos"], NFile (Source None)) ].

(** A waypoint whose [thumbs] is a regular file. *)
Definition fs_thumbs_is_file : filesystem :=
  list_to_map
    [ ([], NDir); (["trails"], NDir); (["trails"; "A"], NDir);
      (["trails"; "A"; "photos"], NDir); (W1, NDir);
      (W1 ++ ["thumbs"], NFile (Source None));
      (W1 ++ ["a.jpg"], NFile (Source (Some landscape))) ].

(** One entry of the scenario, handled once its thumbs directory exists. *)
Definition scenario_entry : result unit :=
  process_image simple_imaging (W1 ++ ["thumbs"]) (W1 ++ ["img.JPG"])
    (final_fs scenario_waypoint).

(** A trail without a [photos] directory. *)
Definition fs_no_photos : filesystem :=
  list_to_map
    [ ([], NDir); (["trails"], NDir); (["trails"; "A"], NDir);
      (["trails"; "A"; "notes.txt"], NFile (Source None)) ].

(** A filter that rings: as the LANCZOS kernel has a positive lobe between
    two and three target pixels from the sample, a transparent sample takes
    the colour of the opaque sample three pixels to its left, with weight 1
    of 255. *)
Definition ringing (img : Image) (sz : Z * Z) (x y : Z) : px :=
  let '(r, g, b, a) := nearest img sz x y in
  let '(r3, g3, b3, a3) := nearest img sz (x - 3) y in
  if ((a =? 0) && (a3 =? 255))%bool then (r3, g3, b3, 1) else (r, g, b, a).

Definition ringing_imaging : Imaging :=
  {| lanczos := ringing;
     convert_px := convert_px simple_imaging;
     reopen := reopen simple_imaging;
     reduced := reduced simple_imaging |}.

(** A run that ended without an exception. *)
Definition finished {A} (r : result A) : bool :=
  match r with Ok _ _ _ => true | Raise _ => false end.

(** ** Vocabulary of the statements *)

(** The canvas after the paste, for a logo already in RGBA mode. *)
Definition composited (resized : Image) (sz : Z) : Image :=
  {| mode := M_RGB; size := (sz, sz);
     load := fun x y =>
       if ((0 <=? x) && (x <? 0 + sz) && (0 <=? y) && (y <? 0 + sz)
           && (0 <=? x) && (x <? sz) && (0 <=? y) && (y <? sz))%bool
       then blend_px (BLEND8 (px_alpha (load resized (x - 0) (y - 0))))
              (255, 255, 255, 255) (load resized (x - 0) (y - 0))
       else (255, 255, 255, 255);
     palette := fun _ => (0, 0, 0, 0) |}.

(** A path a file can be written to, as far as the node at the path goes. *)
Definition writable (o : option node) : Prop :=
  match o with None | Some (NFile _) => True | _ => False end.

(** The sizes of the images an encoder wrote to a path. *)
Definition frame_sizes (fs : filesystem) (p : path) : option (list (Z * Z)) :=
  match fs !! p with
  | Some (NFile (Written _ frames)) => Some (size <$> frames)
  | _ => None
  end.

(** The files the icon generator writes. *)
Definition icon_files : list string :=
  ["icon-192.png"; "icon-512.png"; "apple-touch-icon.png"; "favicon.ico";
   "favicon-32.png"].

(** The [icons] directory exists and nothing but regular files stands where
    the icons go. *)
Definition icons_ready (fs : filesystem) : Prop :=
  fs !! icons_dir = Some NDir
  /\ forall n, n ∈ icon_files -> writable (fs !! joinpath icons_dir n).

(** The same before the directory is made: it exists, or the project root
    does. *)
Definition icons_possible (fs : filesystem) : Prop :=
  (fs !! icons_dir = Some NDir
   \/ (fs !! icons_dir = None /\ fs !! [] = Some NDir))
  /\ forall n, n ∈ icon_files -> writable (fs !! joinpath icons_dir n).

(** What [out] must be for a resized RGBA logo composited onto white. *)
Definition white_composite (resized : Image) (sz : Z) (out : Image) : Prop :=
  mode resized = M_RGBA /\ size resized = (sz, sz)
  /\ mode out = M_RGB /\ has_alpha (mode out) = false
  /\ size out = (sz, sz)
  /\ (forall x y, length (getpixel out x y) = 3%nat)
  /\ (forall x y, 0 <= x < sz -> 0 <= y < sz ->
        let '(r, g, b, a) := load resized x y in
        getpixel out x y = [BLEND8 a 255 r; BLEND8 a 255 g; BLEND8 a 255 b])
  /\ (forall x y, px_alpha (load resized x y) = 0 ->
        getpixel out x y = [255; 255; 255]).

(** 8-bit band values. *)
Definition is_byte (v : Z) : Prop := 0 <= v <= 255.

(** [v'] is the band value [v] laid over white with weight [a] of 255:
    the nearest whole number to [(255 * (255 - a) + a * v) / 255]. *)
Definition over_white (a v v' : Z) : Prop :=
  255 * v' - 127 <= 255 * (255 - a) + a * v <= 255 * v' + 127.

(** Inside the canvas every band of [out] is the band of the resized logo
    laid over white with the weight of the logo's alpha. *)
Definition blended_onto_white (resized : Image) (sz : Z) (out : Image)
  : Prop :=
  forall x y r g b a,
    0 <= x < sz -> 0 <= y < sz ->
    load resized x y = (r, g, b, a) ->
    is_byte r -> is_byte g -> is_byte b -> is_byte a ->
    exists r' g' b',
      getpixel out x y = [r'; g'; b']
      /\ over_white a r r' /\ over_white a g g' /\ over_white a b b'.

(** The part of the source that pixel [(x, y)] of the image resized to
    [sz] by [sz] lies over is transparent. *)
Definition source_transparent (src : Image) (sz x y : Z) : Prop :=
  forall u v,
    x * fst (size src) <= u * sz < (x + 1) * fst (size src) ->
    y * snd (size src) <= v * sz < (y + 1) * snd (size src) ->
    px_alpha (load src u v) = 0.

(** The last clause of C5 as the specification words it: a pixel whose
    source is transparent is white in the icon. *)
Definition transparent_source_is_white (lib : Imaging) : Prop :=
  forall src sz x y out,
    mode src = M_RGBA ->
    on_white_background lib src sz = inr out ->
    0 <= x < sz -> 0 <= y < sz ->
    source_transparent src sz x y ->
    getpixel out x y = [255; 255; 255].

(** The file system after the icon generator ran on a logo in RGBA mode,
    starting with the [icons] directory in place. *)
Definition icons_written (lib : Imaging) (img : Image) (fs : filesystem)
  : filesystem :=
  let flat_ sz := composited (resize lib img (sz, sz)) sz in
  <[joinpath icons_dir "favicon-32.png" :=
      NFile (Written PNG [resize lib img (32, 32)])]>
  (<[joinpath icons_dir "favicon.ico" :=
      NFile (Written (ICO [(16, 16); (32, 32); (48, 48)]) [flat_ 16])]>
  (<[joinpath icons_dir "apple-touch-icon.png" :=
      NFile (Written PNG [flat_ 180])]>
  (<[joinpath icons_dir "icon-512.png" :=
      NFile (Written PNG [resize lib img (512, 512)])]>
  (<[joinpath icons_dir "icon-192.png" :=
      NFile (Written PNG [resize lib img (192, 192)])]> fs)))).

(** The lines the icon generator prints. *)
Definition icons_report : list line :=
  [ Created "icon-192.png" [(192, 192)];
    Created "icon-512.png" [(512, 512)];
    Created "apple-touch-icon.png" [(180, 180)];
    Created "favicon.ico" [(16, 16); (32, 32); (48, 48)];
    Created "favicon-32.png" [(32, 32)];
    Done ].

(** The lines that report a directory that was not found (lines 52 and
    89 of the thumbnail generator). *)
Definition reports_missing (l : line) : bool :=
  match l with
  | TrailsNotFound _ | NoPhotosDir _ => true
  | _ => false
  end.

(** The last clause of C7 for the thumbnail generator, as the
    specification words it: the missing [trails] directory is the only
    missing directory a run reports and survives. *)
Definition only_missing_trails_is_handled (lib : Imaging) : Prop :=
  forall fs out fs' l,
    main lib fs = Ok tt out fs' -> l ∈ out -> reports_missing l = true ->
    l = TrailsNotFound trails_dir.

(** An entry that is a regular file. *)
Definition regular_file (fs : filesystem) (p : path) : Prop :=
  exists c, fs !! p = Some (NFile c).

(** The loop over a waypoint passes an entry by: nothing printed, nothing
    written, no exception. *)
Definition skipped (lib : Imaging) (fs : filesystem) (thumbs_dir entry : path)
  : Prop :=
  process_image lib thumbs_dir entry fs = Ok tt [] fs.

(** The loop over a waypoint announces the entry and hands it to
    [create_square_thumbnail], with the output name [<stem>.jpg] in the
    thumbs directory. *)
Definition thumbnailed (lib : Imaging) (fs : filesystem)
    (thumbs_dir entry : path) : Prop :=
  process_image lib thumbs_dir entry fs
  = (print (ThumbLine (name entry) (stem entry +:+ ".jpg"));;
     create_square_thumbnail lib entry
       (joinpath thumbs_dir (stem entry +:+ ".jpg")) THUMBNAIL_SIZE) fs.

(** C6 as the specification words it: an entry is processed exactly when
    it is a regular file with an image extension, and skipped otherwise. *)
Definition processed_iff_regular_image_file (lib : Imaging) : Prop :=
  forall fs thumbs_dir entry,
    is_Some (fs !! entry) ->
    (thumbnailed lib fs thumbs_dir entry
     <-> regular_file fs entry /\ lower (suffix entry) ∈ image_suffixes)
    /\ (skipped lib fs thumbs_dir entry
        <-> ~ (regular_file fs entry
               /\ lower (suffix entry) ∈ image_suffixes)).

(** [k] lies strictly below [x] in the tree. *)
Definition strictly_below (x k : path) : Prop :=
  exists n r, k = x ++ n :: r.

(** A file can be opened for writing at a path: a regular file is there,
    or nothing is and the parent is a directory. *)
Definition can_save (fs : filesystem) (p : path) : Prop :=
  match fs !! p with
  | Some (NFile _) => True
  | None => fs !! removelast p = Some NDir
  | _ => False
  end.

(** The thumbnail path of an entry. *)
Definition thumb_path (thumbs_dir entry : path) : path :=
  joinpath thumbs_dir (stem entry +:+ ".jpg").

(** *** Vocabulary of the further properties *)

(** Whether a path is a directory. *)
Definition is_dir_at (fs : filesystem) (p : path) : bool :=
  match fs !! p with Some NDir => true | _ => false end.

(** The entries of a waypoint, among the given names, that the loop over
    the waypoint thumbnails, in the order given. *)
Definition thumbnailed_names (fs : filesystem) (W : path) (ns : list string)
  : list string :=
  filter (fun n => selected (is_dir_at fs (joinpath W n)) n = true) ns.

(** The name of the thumbnail of an entry, and the line printed for it. *)
Definition thumb_name (n : string) : string := stem_of_name n +:+ ".jpg".
Definition thumb_line (n : string) : line := ThumbLine n (thumb_name n).

(** The thumbs directory of waypoint [b] of trail [a]. *)
Definition thumbs_of (a b : string) : path :=
  ["trails"; a; "photos"; b; "thumbs"].

(** How the thumbnail generator can change what a path holds, for a thumbs
    directory [T]: [T] itself is made where nothing was, or a file of [T]
    named as a thumbnail is written, over nothing or over a regular file,
    and then holds one JPEG of quality 85 and of 160x160 pixels. *)
Definition changed_at (T : path) (s s' : filesystem) (k : path) : Prop :=
  (k = T /\ s !! k = None /\ s' !! k = Some NDir)
  \/ (writable (s !! k)
      /\ exists n thumb,
           k = joinpath T (thumb_name n)
           /\ s' !! k = Some (NFile (Written (JPEG JPEG_QUALITY) [thumb]))
           /\ size thumb = (THUMBNAIL_SIZE, THUMBNAIL_SIZE)).

(** A path holds what it held, or changed as above for a thumbs directory
    among [D]. *)
Definition effect (D : path -> Prop) (s s' : filesystem) (k : path) : Prop :=
  s' !! k = s !! k \/ exists T, D T /\ changed_at T s s' k.

(** The modes of the pictures the thumbnail generator can handle: those
    the JPEG encoder writes, and the two it converts first. *)
Definition thumbnailable_modes : list Mode :=
  [M_1; M_L; M_RGB; M_RGBX; M_CMYK; M_YCbCr; M_RGBA; M_P].

(** A node the loop over a waypoint turns into a thumbnail: a regular file
    that decodes to a picture of a mode among the above, which can be
    cropped. *)
Definition thumbnailable (lib : Imaging) (v : node) : Prop :=
  exists c img thumb,
    v = NFile c /\ decode lib c = Some img
    /\ make_thumbnail lib img THUMBNAIL_SIZE = inr thumb
    /\ mode img ∈ thumbnailable_modes.

(** The directories among the entries of a directory, in the order of
    [sorted(p.iterdir())]. *)
Definition subdirs (fs : filesystem) (p : path) : list string :=
  filter (fun n => is_dir_at fs (joinpath p n) = true)
    (merge_sort name_le (listdir fs p)).

(** The lines of a waypoint: one per thumbnailed entry, then the count of
    the thumbnails found afterwards. *)
Definition waypoint_log (fs fs' : filesystem) (W : path) : list line :=
  (thumb_line <$> thumbnailed_names fs W (merge_sort name_le (listdir fs W)))
  ++ [ProcessedWaypoint (name W) (count_jpg fs' (joinpath W "thumbs"))].

(** The lines of a trail. *)
Definition trail_log (fs fs' : filesystem) (Tr : path) : list line :=
  let photos_dir := joinpath Tr "photos" in
  match fs !! photos_dir with
  | None => [NoPhotosDir photos_dir]
  | Some _ =>
      concat ((fun b => waypoint_log fs fs' (joinpath photos_dir b))
                <$> subdirs fs photos_dir)
  end.

(** The lines of a run of the thumbnail generator. *)
Definition run_log (fs fs' : filesystem) : list line :=
  match fs !! trails_dir with
  | None => [TrailsNotFound trails_dir]
  | Some _ =>
      concat ((fun a => ProcessingTrail a
                          :: trail_log fs fs' (joinpath trails_dir a))
                <$> subdirs fs trails_dir)
      ++ [Done]
  end.

(** Two trees hold the same below and at a path. *)
Definition same_below (p : path) (s t : filesystem) : Prop :=
  forall k, p `prefix_of` k -> s !! k = t !! k.

(** A waypoint the thumbnail generator gets through: [thumbs] is a
    directory or missing, and every entry that is no directory and has an
    image extension is a picture that can be thumbnailed, with nothing but
    a regular file where its thumbnail goes. *)
Definition waypoint_ok (lib : Imaging) (fs : filesystem) (W : path) : Prop :=
  (fs !! joinpath W "thumbs" = Some NDir \/ fs !! joinpath W "thumbs" = None)
  /\ forall n v,
       fs !! joinpath W n = Some v -> v <> NDir ->
       lower (suffix_of_name n) ∈ image_suffixes ->
       thumbnailable lib v
       /\ writable (fs !! joinpath (joinpath W "thumbs") (thumb_name n)).

(** A trail it gets through: [photos] is missing, or a directory whose
    directories are such waypoints. *)
Definition trail_ok (lib : Imaging) (fs : filesystem) (Tr : path) : Prop :=
  let photos_dir := joinpath Tr "photos" in
  fs !! photos_dir = None
  \/ (fs !! photos_dir = Some NDir
      /\ forall b, fs !! joinpath photos_dir b = Some NDir ->
                   waypoint_ok lib fs (joinpath photos_dir b)).

(** A tree it gets through. *)
Definition tree_ok (lib : Imaging) (fs : filesystem) : Prop :=
  fs !! trails_dir = None
  \/ (fs !! trails_dir = Some NDir
      /\ forall a, fs !! joinpath trails_dir a = Some NDir ->
                   trail_ok lib fs (joinpath trails_dir a)).

(** The tree once [icons_dir.mkdir(exist_ok=True)] returned. *)
Definition with_icons_dir (fs : filesystem) : filesystem :=
  match fs !! icons_dir with
  | Some _ => fs
  | None => <[icons_dir := NDir]> fs
  end.

(** Modes the library converts to RGBA whatever its version, among them
    the modes of a PNG file of 8 bits per band. *)
Definition rgba_convertible_modes : list Mode :=
  [M_1; M_L; M_LA; M_I; M_P; M_RGB; M_RGBA; M_CMYK].

(** * Properties *)

Section Properties.

Context (lib : Imaging).

(** ** The crop box *)

Lemma crop_box_landscape (w h : Z) :
  w > h -> crop_box w h = ((w - h) / 2, 0, (w - h) / 2 + h, h).
Proof.
  intros Hwh. unfold crop_box.
  destruct (Z.gtb_spec w h); [reflexivity|lia].
Qed.

Lemma crop_box_portrait (w h : Z) :
  w <= h -> crop_box w h = (0, (h - w) / 2, w, (h - w) / 2 + w).
Proof.
  intros Hwh. unfold crop_box.
  destruct (Z.gtb_spec w h); [lia|reflexivity].
Qed.

(** C1. The crop box of a [w] x [h] image: for [w > h] it starts at
    [left = (w - h) / 2] (integer division), [top = 0], is [h] wide and
    spans the full height; otherwise it starts at [left = 0],
    [top = (h - w) / 2], spans the full width and is [w] high.  In both
    cases its side is [min w h]. *)
Theorem c1_center_square_crop_box (w h : Z) :
  let '(left_, top, right_, bottom) := crop_box w h in
  (if w >? h
   then left_ = (w - h) / 2 /\ top = 0 /\ right_ - left_ = h /\ bottom = h
   else left_ = 0 /\ top = (h - w) / 2 /\ right_ = w /\ bottom - top = w)
  /\ right_ - left_ = Z.min w h
  /\ bottom - top = Z.min w h.
Proof.
  destruct (Z.gtb_spec w h) as [Hgt|Hle].
  - rewrite crop_box_landscape by lia. repeat split; lia.
  - rewrite crop_box_portrait by exact Hle. repeat split; lia.
Qed.

(** C3. For an image of positive width [w] and height [h] with [w <> h]:
    the crop box has side [min w h]; it lies within the image; the margins
    left on the two sides of the box differ by at most one pixel, so the
    box is centered up to the rounding of the integer division; and
    cropping the image to the box succeeds and gives a square of that
    side. *)
Theorem c3_crop_box_within_bounds_and_centered
    (img : Image) (w h : Z) :
  size img = (w, h) -> 0 < w -> 0 < h -> w <> h ->
  let '(left_, top, right_, bottom) := crop_box w h in
  right_ - left_ = Z.min w h /\ bottom - top = Z.min w h
  /\ 0 <= left_ /\ right_ <= w /\ 0 <= top /\ bottom <= h
  /\ Z.abs (left_ - (w - right_)) <= 1
  /\ Z.abs (top - (h - bottom)) <= 1
  /\ exists cropped,
       crop img (left_, top, right_, bottom) = inr cropped
       /\ size cropped = (Z.min w h, Z.min w h).
Proof.
  intros Hsize Hw Hh Hne.
  destruct (Z_gt_le_dec w h) as [Hgt|Hle].
  - rewrite crop_box_landscape by exact Hgt.
    pose proof (Z.div_mod (w - h) 2 ltac:(lia)) as Hdm.
    pose proof (Z.mod_pos_bound (w - h) 2 ltac:(lia)) as Hmod.
    assert (0 <= (w - h) / 2) as Hnn by (apply Z.div_pos; lia).
    repeat split; try lia.
    unfold crop. destruct (_ || _)%bool eqn:E.
    + apply orb_true_iff in E as [E|E]; apply Z.ltb_lt in E; lia.
    + eexists; split; [reflexivity|]. simpl. f_equal; lia.
  - rewrite crop_box_portrait by exact Hle.
    pose proof (Z.div_mod (h - w) 2 ltac:(lia)) as Hdm.
    pose proof (Z.mod_pos_bound (h - w) 2 ltac:(lia)) as Hmod.
    assert (0 <= (h - w) / 2) as Hnn by (apply Z.div_pos; lia).
    repeat split; try lia.
    unfold crop. destruct (_ || _)%bool eqn:E.
    + apply orb_true_iff in E as [E|E]; apply Z.ltb_lt in E; lia.
    + eexists; split; [reflexivity|]. simpl. f_equal; lia.
Qed.

(** ** The monad *)

Lemma bind_ok {A B} (m : M A) (f : A -> M B) fs a o fs1 :
  m fs = Ok a o fs1 ->
  (m ≫= f) fs = match f a fs1 with
                | Raise e => Raise e
                | Ok b o2 fs2 => Ok b (o ++ o2) fs2
                end.
Proof. intros H. unfold mbind, M_bind, bind. rewrite H. reflexivity. Qed.

Lemma bind_raise {A B} (m : M A) (f : A -> M B) fs e :
  m fs = Raise e -> (m ≫= f) fs = Raise e.
Proof. intros H. unfold mbind, M_bind, bind. rewrite H. reflexivity. Qed.

Lemma bind_inv_ok {A B} (m : M A) (f : A -> M B) fs b o fs2 :
  (m ≫= f) fs = Ok b o fs2 ->
  exists a o1 fs1 o2,
    m fs = Ok a o1 fs1 /\ f a fs1 = Ok b o2 fs2 /\ o = o1 ++ o2.
Proof.
  unfold mbind, M_bind, bind. intros H.
  destruct (m fs) as [a o1 fs1|e]; [|discriminate].
  destruct (f a fs1) as [b' o2 fs2'|e] eqn:Hf; [|discriminate].
  inversion H; subst. eauto 10.
Qed.

(** ** Conversion to RGB in the thumbnail generator *)

(** For the two modes the script lists, the image becomes RGB and every
    pixel keeps its color bands: the alpha band is dropped, nothing is
    composited. *)
Lemma convert_if_necessary_rgba (img : Image) :
  mode img = M_RGBA ->
  mode (convert_if_necessary lib img) = M_RGB
  /\ size (convert_if_necessary lib img) = size img
  /\ forall x y, getpixel (convert_if_necessary lib img) x y
                 = take 3 (getpixel img x y).
Proof.
  intros Hm. unfold convert_if_necessary. rewrite Hm. simpl.
  repeat split. intros x y. unfold getpixel, convert. simpl. rewrite Hm.
  destruct (load img x y) as [[[r g] b] a]. reflexivity.
Qed.

Lemma convert_if_necessary_palette (img : Image) :
  mode img = M_P ->
  mode (convert_if_necessary lib img) = M_RGB
  /\ size (convert_if_necessary lib img) = size img
  /\ forall x y i, getpixel img x y = [i] ->
       let '(r, g, b, _) := palette img i in
       getpixel (convert_if_necessary lib img) x y = [r; g; b].
Proof.
  intros Hm. unfold convert_if_necessary. rewrite Hm. simpl.
  repeat split. intros x y i. unfold getpixel, convert. simpl. rewrite Hm.
  destruct (load img x y) as [[[v0 v1] v2] v3]. intros [= ->].
  destruct (palette img i) as [[[r g] b] a]. reflexivity.
Qed.

(** Every other mode is left as it is, among them the remaining modes with
    an alpha band or a palette. *)
Lemma convert_if_necessary_other_modes (img : Image) :
  mode img <> M_RGBA -> mode img <> M_P ->
  convert_if_necessary lib img = img.
Proof.
  intros H1 H2. unfold convert_if_necessary.
  rewrite bool_decide_eq_false_2; [reflexivity|].
  intros H. apply elem_of_cons in H as [H|H]; [contradiction|].
  apply elem_of_cons in H as [H|H]; [contradiction|].
  exact (proj1 (elem_of_nil _) H).
Qed.

Lemma unconverted_alpha_and_palette_modes (m : Mode) :
  (has_alpha m || is_palette m = true)%bool /\ m <> M_RGBA /\ m <> M_P
  <-> m ∈ [M_LA; M_PA; M_RGBa; M_La].
Proof.
  split.
  - intros (H & H1 & H2). destruct m; try discriminate; try contradiction;
      repeat first [apply list_elem_of_here | apply list_elem_of_further].
  - intros H.
    repeat (apply elem_of_cons in H as [->|H];
            [repeat split; discriminate|]).
    destruct (proj1 (elem_of_nil _) H).
Qed.

(** C2 at a grey picture with an alpha band (mode LA): the mode has an
    alpha band, the script leaves the image as it is, and the JPEG encoder
    then refuses it, so the whole run raises. *)
Theorem c2_grey_alpha_is_not_converted :
  has_alpha (mode grey_alpha) = true
  /\ convert_if_necessary lib grey_alpha = grey_alpha
  /\ mode (convert_if_necessary lib grey_alpha) <> M_RGB
  /\ create_square_thumbnail lib (W1 ++ ["grey.png"])
       (W1 ++ ["thumbs"; "grey.jpg"]) THUMBNAIL_SIZE fs_grey_alpha
     = Raise OSError
  /\ main lib fs_grey_alpha = Raise OSError.
Proof.
  split; [reflexivity|]. split; [reflexivity|]. split; [discriminate|].
  split; vm_compute; reflexivity.
Qed.

(** ** Compositing onto white in the icon generator *)

Lemma BLEND8_transparent (v : Z) : BLEND8 0 255 v = 255.
Proof. unfold BLEND8. rewrite Z.mul_0_r. reflexivity. Qed.

(** [DIV255] divides by 255 and rounds to the nearest whole number. *)
Lemma DIV255_rounds (x : Z) :
  0 <= x <= 255 * 255 ->
  255 * DIV255 x - 127 <= x <= 255 * DIV255 x + 127.
Proof.
  intros H. unfold DIV255. rewrite !Z.shiftr_div_pow2 by lia.
  change (2 ^ 8) with 256.
  Z.div_mod_to_equations. lia.
Qed.

Lemma BLEND8_over_white (a v : Z) :
  is_byte a -> is_byte v -> over_white a v (BLEND8 a 255 v).
Proof.
  unfold is_byte, over_white, BLEND8. intros Ha Hv.
  replace (255 * (255 - a) + a * v) with (255 * (255 - a) + v * a) by lia.
  apply DIV255_rounds. nia.
Qed.

Lemma ensure_rgba_mode (img : Image) : mode (ensure_rgba lib img) = M_RGBA.
Proof.
  unfold ensure_rgba. destruct (decide (mode img ≠ M_RGBA)) as [H|H].
  - reflexivity.
  - destruct (decide (mode img = M_RGBA)); [assumption|contradiction].
Qed.

Lemma on_white_background_rgba (img : Image) (sz : Z) :
  mode img = M_RGBA ->
  on_white_background lib img sz
  = inr (composited (resize lib img (sz, sz)) sz).
Proof.
  intros Hm. unfold on_white_background, paste, Image_new, composited.
  cbn [mode size resize load palette]. rewrite Hm.
  rewrite bool_decide_eq_true_2 by reflexivity. reflexivity.
Qed.

(** For a logo in RGBA mode and a target size: the logo is resized
    keeping its alpha band; the result of pasting it onto the new white
    canvas through that alpha band is an RGB image of the target size,
    a mode without alpha band; inside the canvas each color band is the
    blend of white and the resized logo weighted by the logo's alpha; and
    a pixel where the resized logo has alpha zero is pure white. *)
Lemma on_white_background_spec (img : Image) (sz : Z) :
  mode img = M_RGBA ->
  white_composite (resize lib img (sz, sz)) sz
    (composited (resize lib img (sz, sz)) sz).
Proof.
  intros Hm. set (resized := resize lib img (sz, sz)).
  split; [exact Hm|]. split; [reflexivity|].
  split; [reflexivity|]. split; [reflexivity|]. split; [reflexivity|].
  split; [|split].
  - intros x y. unfold getpixel. cbn [mode composited].
    destruct (load _ x y) as [[[v0 v1] v2] v3]. reflexivity.
  - intros x y Hx Hy. unfold getpixel, composited. cbn [mode load].
    replace ((0 <=? x) && (x <? 0 + sz) && (0 <=? y) && (y <? 0 + sz)
             && (0 <=? x) && (x <? sz) && (0 <=? y) && (y <? sz))%bool
      with true.
    2:{ symmetry. repeat (apply andb_true_iff; split);
        first [apply Z.leb_le | apply Z.ltb_lt]; lia. }
    rewrite !Z.sub_0_r.
    destruct (load resized x y) as [[[r g] b] a]. reflexivity.
  - intros x y Ha. unfold getpixel, composited. cbn [mode load].
    rewrite !Z.sub_0_r. rewrite Ha.
    destruct (_ && _)%bool; [|reflexivity].
    destruct (load resized x y) as [[[r g] b] a]. cbn [blend_px].
    rewrite !BLEND8_transparent. reflexivity.
Qed.

Lemma on_white_background_blend (img : Image) (sz : Z) :
  mode img = M_RGBA ->
  blended_onto_white (resize lib img (sz, sz)) sz
    (composited (resize lib img (sz, sz)) sz).
Proof.
  intros Hm x y r g b a Hx Hy Hpx Hr Hg Hb Ha.
  destruct (on_white_background_spec img sz Hm)
    as (_ & _ & _ & _ & _ & _ & Hblend & _).
  specialize (Hblend x y Hx Hy). rewrite Hpx in Hblend.
  eexists _, _, _. split; [exact Hblend|].
  split; [|split]; by apply BLEND8_over_white.
Qed.

(** ** The icon generator runs to completion *)

Lemma bind_ok_eq {A B} (m : M A) (f : A -> M B) fs a o fs1 b o2 fs2 :
  m fs = Ok a o fs1 -> f a fs1 = Ok b o2 fs2 ->
  (m ≫= f) fs = Ok b (o ++ o2) fs2.
Proof. intros H1 H2. rewrite (bind_ok _ _ _ _ _ _ H1), H2. reflexivity. Qed.

Lemma lift_inr {A} (a : A) fs : lift (inr a) fs = Ok a [] fs.
Proof. reflexivity. Qed.

Lemma Image_save_ok frames p fmt fs :
  writable (fs !! p) -> fs !! removelast p = Some NDir ->
  forallb (fun img => encoder_accepts fmt (mode img))
    (stored_frames lib fmt frames) = true ->
  Image_save lib frames p fmt fs
  = Ok tt [] (<[p := NFile (Written fmt (stored_frames lib fmt frames))]> fs).
Proof.
  intros Hw Hp Hacc. unfold Image_save. cbv zeta. rewrite Hacc, Hp.
  destruct (fs !! p) as [[| |]|]; simpl in Hw; try contradiction; reflexivity.
Qed.

Lemma icons_ready_insert fs n c :
  icons_ready fs -> icons_ready (<[joinpath icons_dir n := NFile c]> fs).
Proof.
  intros [Hd Hw]. split.
  - rewrite lookup_insert_ne; [exact Hd|]. discriminate.
  - intros m Hm. destruct (decide (n = m)) as [->|Hne].
    + rewrite lookup_insert_eq. exact I.
    + rewrite lookup_insert_ne; [auto|]. unfold joinpath. intros [= E].
      congruence.
Qed.

Lemma save_icon frames n fmt fs :
  icons_ready fs -> n ∈ icon_files ->
  forallb (fun img => encoder_accepts fmt (mode img))
    (stored_frames lib fmt frames) = true ->
  Image_save lib frames (joinpath icons_dir n) fmt fs
  = Ok tt []
      (<[joinpath icons_dir n
         := NFile (Written fmt (stored_frames lib fmt frames))]> fs).
Proof. intros [Hd Hw] Hn Hacc. apply Image_save_ok; auto. Qed.

Lemma mkdir_icons fs :
  icons_possible fs ->
  exists fs1,
    (fs1 = fs \/ fs1 = <[icons_dir := NDir]> fs)
    /\ mkdir_exist_ok icons_dir fs = Ok tt [] fs1
    /\ icons_ready fs1
    /\ fs1 !! logo_path = fs !! logo_path.
Proof.
  intros [[Hd|[Hn Hroot]] Hw].
  - exists fs. unfold mkdir_exist_ok. rewrite Hd. repeat split; auto.
  - exists (<[icons_dir := NDir]> fs). unfold mkdir_exist_ok.
    rewrite Hn. change (removelast icons_dir) with (@nil string).
    rewrite Hroot. repeat split; auto.
    + apply lookup_insert_eq.
    + intros n Hin. rewrite lookup_insert_ne by discriminate. auto.
    + apply lookup_insert_ne. discriminate.
Qed.

Local Ltac in_icon_files :=
  unfold icon_files;
  repeat first [apply list_elem_of_here | apply list_elem_of_further].

Lemma generate_icons_run fs c logo0 :
  fs !! logo_path = Some (NFile c) -> decode lib c = Some logo0 ->
  icons_possible fs ->
  exists fs1,
    (fs1 = fs \/ fs1 = <[icons_dir := NDir]> fs)
    /\ generate_icons lib fs
       = Ok tt icons_report (icons_written lib (ensure_rgba lib logo0) fs1).
Proof.
  intros Hl Hd Hp.
  destruct (mkdir_icons fs Hp) as (fs1 & Hfs1 & Hmk & Hr & Hl1).
  exists fs1. split; [exact Hfs1|]. rewrite <- Hl1 in Hl.
  set (img := ensure_rgba lib logo0).
  assert (Hm : mode img = M_RGBA) by apply ensure_rgba_mode.
  cut (exists o f, generate_icons lib fs = Ok tt o f
                   /\ o = icons_report /\ f = icons_written lib img fs1).
  { intros (o & f & -> & -> & ->). reflexivity. }
  eexists _, _. split.
  - unfold generate_icons.
    eapply bind_ok_eq; [exact Hmk|].
    eapply bind_ok_eq; [unfold Image_open; rewrite Hl, Hd; reflexivity|].
    fold img. cbn [for_each foldl].
    eapply bind_ok_eq.
    { eapply bind_ok_eq.
      { eapply bind_ok_eq; [|reflexivity].
        apply save_icon; [exact Hr|in_icon_files|cbn; rewrite Hm; reflexivity]. }
      eapply bind_ok_eq; [|reflexivity].
      eapply bind_ok_eq; [|reflexivity].
      apply save_icon;
        [by apply icons_ready_insert|in_icon_files|cbn; rewrite Hm; reflexivity]. }
    eapply bind_ok_eq;
      [rewrite on_white_background_rgba by exact Hm; apply lift_inr|].
    eapply bind_ok_eq.
    { apply save_icon;
        [by repeat apply icons_ready_insert|in_icon_files|reflexivity]. }
    eapply bind_ok_eq; [reflexivity|].
    eapply bind_ok_eq.
    { rewrite !on_white_background_rgba by exact Hm. reflexivity. }
    cbn [app].
    eapply bind_ok_eq.
    { apply save_icon;
        [by repeat apply icons_ready_insert|in_icon_files|reflexivity]. }
    eapply bind_ok_eq; [reflexivity|].
    eapply bind_ok_eq.
    { apply save_icon;
        [by repeat apply icons_ready_insert|in_icon_files
        |cbn; rewrite Hm; reflexivity]. }
    eapply bind_ok_eq; [reflexivity|]. reflexivity.
  - split; reflexivity.
Qed.

(** ** The thumbnail of one image *)

Lemma make_thumbnail_size (img thumb : Image) (sz : Z) :
  make_thumbnail lib img sz = inr thumb -> size thumb = (sz, sz).
Proof.
  unfold make_thumbnail. destruct (size _) as [w h].
  destruct (crop _ _) as [e|cropped]; [discriminate|].
  intros [= <-]. reflexivity.
Qed.

Lemma make_thumbnail_mode (img thumb : Image) (sz : Z) :
  make_thumbnail lib img sz = inr thumb ->
  mode thumb = mode (convert_if_necessary lib img).
Proof.
  unfold make_thumbnail. destruct (size _) as [w h].
  unfold crop. destruct (crop_box w h) as [[[x0 y0] x1] y1].
  destruct (_ || _)%bool; [discriminate|]. intros [= <-]. reflexivity.
Qed.

Lemma make_thumbnail_ok (img : Image) (sz : Z) :
  0 <= fst (size img) -> 0 <= snd (size img) ->
  exists thumb, make_thumbnail lib img sz = inr thumb.
Proof.
  intros Hw Hh. unfold make_thumbnail.
  assert (size (convert_if_necessary lib img) = size img) as ->.
  { unfold convert_if_necessary. destruct (bool_decide _); reflexivity. }
  destruct (size img) as [w h]. simpl in Hw, Hh.
  destruct (Z_gt_le_dec w h) as [Hgt|Hle].
  - rewrite crop_box_landscape by exact Hgt. unfold crop.
    destruct (_ || _)%bool eqn:E; [|eauto].
    apply orb_true_iff in E as [E|E]; apply Z.ltb_lt in E; lia.
  - rewrite crop_box_portrait by exact Hle. unfold crop.
    destruct (_ || _)%bool eqn:E; [|eauto].
    apply orb_true_iff in E as [E|E]; apply Z.ltb_lt in E; lia.
Qed.

Lemma Image_save_Ok_iff frames p fmt fs o fs' :
  Image_save lib frames p fmt fs = Ok tt o fs'
  <-> can_save fs p
      /\ forallb (fun img => encoder_accepts fmt (mode img))
           (stored_frames lib fmt frames) = true
      /\ o = []
      /\ fs' = <[p := NFile (Written fmt (stored_frames lib fmt frames))]> fs.
Proof.
  unfold Image_save, can_save. cbv zeta.
  destruct (forallb _ (stored_frames lib fmt frames));
    destruct (fs !! p) as [[| |]|];
    try destruct (fs !! removelast p) as [[| |]|];
    split; try (intros H; inversion H; subst; tauto);
    try (intros (H1 & H2 & H3 & H4); first [contradiction | discriminate | subst; reflexivity]).
Qed.

Lemma create_square_thumbnail_Ok_iff input_path output_path sz fs o fs' :
  create_square_thumbnail lib input_path output_path sz fs = Ok tt o fs'
  <-> exists c img thumb,
        fs !! input_path = Some (NFile c) /\ decode lib c = Some img
        /\ make_thumbnail lib img sz = inr thumb
        /\ encoder_accepts (JPEG JPEG_QUALITY) (mode thumb) = true
        /\ can_save fs output_path
        /\ o = []
        /\ fs' = <[output_path := NFile (Written (JPEG JPEG_QUALITY) [thumb])]> fs.
Proof.
  unfold create_square_thumbnail. split.
  - intros H.
    apply bind_inv_ok in H as (img & o1 & fs1 & o2 & Hopen & H & ->).
    apply bind_inv_ok in H as (thumb & o3 & fs2 & o4 & Hmk & Hsave & ->).
    unfold Image_open in Hopen.
    destruct (fs !! input_path) as [[|c|]|] eqn:Hin; try discriminate.
    destruct (decode lib c) as [img'|] eqn:Hdec; [|discriminate].
    inversion Hopen; subst; clear Hopen.
    destruct (make_thumbnail lib img sz) as [e|thumb'] eqn:Hth;
      [discriminate|].
    inversion Hmk; subst; clear Hmk.
    apply Image_save_Ok_iff in Hsave as (Hc & Hacc & -> & ->).
    exists c, img, thumb. cbn [forallb stored_frames take] in Hacc.
    rewrite andb_true_r in Hacc. repeat split; auto.
  - intros (c & img & thumb & Hin & Hdec & Hth & Hacc & Hc & -> & ->).
    eapply (bind_ok_eq _ _ _ _ []);
      [unfold Image_open; rewrite Hin, Hdec; reflexivity|].
    eapply (bind_ok_eq _ _ _ _ []); [rewrite Hth; apply lift_inr|].
    apply Image_save_Ok_iff. cbn [forallb stored_frames take].
    rewrite Hacc. auto.
Qed.

(** ** The composited icons *)


(** ** Which entries of a waypoint become thumbnails *)

Lemma is_dir_false entry fs :
  fs !! entry <> Some NDir -> is_dir entry fs = Ok false [] fs.
Proof. intros H. unfold is_dir. destruct (fs !! entry) as [[| |]|]; congruence. Qed.

Lemma is_dir_true entry fs :
  fs !! entry = Some NDir -> is_dir entry fs = Ok true [] fs.
Proof. intros H. unfold is_dir. rewrite H. reflexivity. Qed.

Lemma dir_or_not (fs : filesystem) (entry : path) :
  fs !! entry = Some NDir \/ fs !! entry <> Some NDir.
Proof. destruct (fs !! entry) as [[| |]|]; auto. Qed.

Lemma match_result_id {A} (r : result A) :
  match r with
  | Raise e => Raise e
  | Ok b o2 fs2 => Ok b ([] ++ o2) fs2
  end = r.
Proof. destruct r; reflexivity. Qed.

Lemma process_image_selected thumbs_dir entry fs :
  fs !! entry <> Some NDir -> lower (suffix entry) ∈ image_suffixes ->
  thumbnailed lib fs thumbs_dir entry.
Proof.
  intros Hnd Hsuf. unfold thumbnailed, process_image.
  rewrite (bind_ok _ _ _ _ _ _ (is_dir_false _ _ Hnd)).
  unfold selected. fold (suffix entry).
  rewrite bool_decide_eq_true_2 by exact Hsuf. cbn [negb andb].
  apply match_result_id.
Qed.

Lemma process_image_not_selected thumbs_dir entry fs :
  fs !! entry = Some NDir \/ lower (suffix entry) ∉ image_suffixes ->
  skipped lib fs thumbs_dir entry.
Proof.
  intros H. unfold skipped, process_image.
  destruct (dir_or_not fs entry) as [Hd|Hnd].
  - rewrite (bind_ok _ _ _ _ _ _ (is_dir_true _ _ Hd)). reflexivity.
  - destruct H as [?|Hsuf]; [contradiction|].
    rewrite (bind_ok _ _ _ _ _ _ (is_dir_false _ _ Hnd)).
    unfold selected. fold (suffix entry).
    rewrite bool_decide_eq_false_2 by exact Hsuf. reflexivity.
Qed.

Lemma thumbnailed_not_skipped thumbs_dir entry fs :
  thumbnailed lib fs thumbs_dir entry -> ~ skipped lib fs thumbs_dir entry.
Proof.
  unfold thumbnailed, skipped. intros -> H.
  apply bind_inv_ok in H as ([] & o1 & fs1 & o2 & Hp & _ & Ho).
  inversion Hp; subst. discriminate.
Qed.

(** C6, amended. An entry of a waypoint directory is handed to the
    thumbnailer exactly when it is not a directory and its extension, in
    lower case, is one of [.jpg], [.jpeg], [.png], [.webp]; it is passed by
    (nothing printed, nothing written, no exception) exactly when it is a
    directory or has another extension.  In particular every regular file
    with such an extension is handed to the thumbnailer, and a [thumbs]
    directory or a file [notes.txt] is passed by. *)
Theorem c6_not_a_directory_and_image_extension fs thumbs_dir entry :
  (thumbnailed lib fs thumbs_dir entry
   <-> fs !! entry <> Some NDir /\ lower (suffix entry) ∈ image_suffixes)
  /\ (skipped lib fs thumbs_dir entry
      <-> fs !! entry = Some NDir \/ lower (suffix entry) ∉ image_suffixes)
  /\ (regular_file fs entry /\ lower (suffix entry) ∈ image_suffixes ->
      thumbnailed lib fs thumbs_dir entry).
Proof.
  assert (Hdec : (fs !! entry <> Some NDir
                  /\ lower (suffix entry) ∈ image_suffixes)
                 \/ (fs !! entry = Some NDir
                     \/ lower (suffix entry) ∉ image_suffixes)).
  { destruct (fs !! entry) as [[| |]|];
      destruct (decide (lower (suffix entry) ∈ image_suffixes));
      first [left; split; [discriminate|assumption] | right; auto]. }
  split; [|split].
  - split; [|intros []; by apply process_image_selected].
    intros Ht. destruct Hdec as [?|Hn]; [assumption|].
    exfalso. eapply thumbnailed_not_skipped; [exact Ht|].
    by apply process_image_not_selected.
  - split; [|apply process_image_not_selected].
    intros Hs. destruct Hdec as [[Hnd Hsuf]|?]; [|assumption].
    exfalso. eapply thumbnailed_not_skipped; [|exact Hs].
    by apply process_image_selected.
  - intros [[c Hc] Hsuf]. apply process_image_selected; [|exact Hsuf].
    rewrite Hc. discriminate.
Qed.

(** ** Entries that are not directories *)

Lemma for_each_skip {A} (body : A -> M unit) x xs fs :
  body x fs = Ok tt [] fs ->
  for_each (x :: xs) body fs = for_each xs body fs.
Proof.
  intros H. cbn [for_each]. rewrite (bind_ok _ _ _ _ _ _ H).
  destruct (for_each xs body fs) as [[] o f|e]; reflexivity.
Qed.

(** C10. An entry that is not a directory is passed by, both as an entry
    of the trails directory and as an entry of a photos directory: the
    loop body returns at once with nothing printed, the file system
    unchanged and no exception, so the loop goes on as if the entry were
    not listed. *)
Theorem c10_non_directories_are_passed_by fs entry rest :
  fs !! entry <> Some NDir ->
  visit_trail lib entry fs = Ok tt [] fs
  /\ process_waypoint lib entry fs = Ok tt [] fs
  /\ for_each (entry :: rest) (visit_trail lib) fs
     = for_each rest (visit_trail lib) fs
  /\ for_each (entry :: rest) (process_waypoint lib) fs
     = for_each rest (process_waypoint lib) fs.
Proof.
  intros Hnd.
  pose proof (is_dir_false _ _ Hnd) as Hd.
  assert (Hv : visit_trail lib entry fs = Ok tt [] fs).
  { unfold visit_trail. rewrite (bind_ok _ _ _ _ _ _ Hd). reflexivity. }
  assert (Hp : process_waypoint lib entry fs = Ok tt [] fs).
  { unfold process_waypoint. rewrite (bind_ok _ _ _ _ _ _ Hd). reflexivity. }
  repeat split; auto using for_each_skip.
Qed.

(** ** The order of directory listings *)

Lemma name_le_cases (a b : string) : name_le a b <-> a = b \/ String_as_OT.lt a b.
Proof.
  unfold name_le.
  destruct (String_as_OT.compare_spec a b) as [Heq|Hlt|Hgt].
  - split; [auto|discriminate].
  - split; [auto|discriminate].
  - split; [congruence|]. intros [->|Hlt]; exfalso.
    + exact (irreflexivity String_as_OT.lt _ Hgt).
    + exact (irreflexivity String_as_OT.lt _ (transitivity Hlt Hgt)).
Qed.

Global Instance name_le_total : Total name_le.
Proof.
  intros a b. rewrite !name_le_cases.
  destruct (String_as_OT.compare_spec a b); auto.
Qed.

Global Instance name_le_trans : Transitive name_le.
Proof.
  intros a b c. rewrite !name_le_cases.
  intros [->|Hab] [->|Hbc]; auto. right. by transitivity b.
Qed.

Global Instance name_le_antisymm : AntiSymm (=) name_le.
Proof.
  intros a b Hab' Hba'.
  destruct (proj1 (name_le_cases _ _) Hab') as [->|Hab]; [reflexivity|].
  destruct (proj1 (name_le_cases _ _) Hba') as [->|Hba]; [reflexivity|].
  exfalso. exact (irreflexivity String_as_OT.lt _ (transitivity Hab Hba)).
Qed.

(** ** Directory listings *)

Lemma child_of_Some (p q : path) (n : string) :
  child_of p q = Some n <-> q = joinpath p n.
Proof.
  unfold joinpath. revert q. induction p as [|x p IH]; intros q.
  - destruct q as [|y [|z q]]; simpl; split; intros H; try discriminate;
      congruence.
  - destruct q as [|y q]; simpl; [split; discriminate|].
    destruct (decide (x = y)) as [->|Hne].
    + rewrite IH. split; congruence.
    + split; [discriminate|]. intros [= -> _]. contradiction.
Qed.

Lemma elem_of_listdir (fs : filesystem) (p : path) (n : string) :
  n ∈ listdir fs p <-> is_Some (fs !! joinpath p n).
Proof.
  unfold listdir. rewrite list_elem_of_omap. split.
  - intros ([q v] & Hin & Hc). apply elem_of_map_to_list in Hin.
    apply child_of_Some in Hc. simpl in Hc. subst q. eauto.
  - intros [v Hv]. exists (joinpath p n, v). split.
    + by apply elem_of_map_to_list.
    + by apply child_of_Some.
Qed.

Lemma NoDup_listdir (fs : filesystem) (p : path) : NoDup (listdir fs p).
Proof.
  unfold listdir.
  pose proof (NoDup_fst_map_to_list fs) as Hnd.
  induction (map_to_list fs) as [|[q v] l IH]; simpl; [constructor|].
  simpl in Hnd. apply NoDup_cons in Hnd as [Hq Hl].
  destruct (child_of p q) as [n|] eqn:Hc; [|by apply IH].
  apply NoDup_cons. split; [|by apply IH].
  rewrite list_elem_of_omap. intros ([q' v'] & Hin & Hc').
  apply child_of_Some in Hc, Hc'. simpl in Hc'. subst q q'.
  apply Hq. apply list_elem_of_fmap. by exists (joinpath p n, v').
Qed.

Lemma listdir_Permutation (s t : filesystem) (p : path) :
  (forall n, is_Some (s !! joinpath p n) <-> is_Some (t !! joinpath p n)) ->
  listdir s p ≡ₚ listdir t p.
Proof.
  intros H. apply NoDup_Permutation; [apply NoDup_listdir..|].
  intros n. rewrite !elem_of_listdir. apply H.
Qed.

Lemma sorted_listdir_eq (s t : filesystem) (p : path) :
  (forall n, is_Some (s !! joinpath p n) <-> is_Some (t !! joinpath p n)) ->
  merge_sort name_le (listdir s p) = merge_sort name_le (listdir t p).
Proof.
  intros H. apply (Sorted_unique name_le); [apply Sorted_merge_sort, _..|].
  rewrite !merge_sort_Permutation. by apply listdir_Permutation.
Qed.

Lemma sorted_iterdir_eq (s t : filesystem) (p : path) :
  s !! p = Some NDir -> t !! p = Some NDir ->
  (forall n, is_Some (s !! joinpath p n) <-> is_Some (t !! joinpath p n)) ->
  exists ns,
    NoDup ns /\ StronglySorted name_le ns
    /\ (forall n, n ∈ ns <-> is_Some (s !! joinpath p n))
    /\ sorted_iterdir p s = Ok (joinpath p <$> ns) [] s
    /\ sorted_iterdir p t = Ok (joinpath p <$> ns) [] t.
Proof.
  intros Hs Ht H. exists (merge_sort name_le (listdir s p)).
  split; [|split; [|split; [|split]]].
  - rewrite merge_sort_Permutation. apply NoDup_listdir.
  - apply StronglySorted_merge_sort; apply _.
  - intros n. rewrite merge_sort_Permutation. apply elem_of_listdir.
  - unfold sorted_iterdir. rewrite Hs. reflexivity.
  - unfold sorted_iterdir. rewrite Ht, (sorted_listdir_eq s t p H).
    reflexivity.
Qed.

(** ** Paths *)

Lemma removelast_joinpath (p : path) (n : string) :
  removelast (joinpath p n) = p.
Proof. apply removelast_last. Qed.

Lemma name_joinpath (p : path) (n : string) : name (joinpath p n) = n.
Proof. apply last_last. Qed.

Lemma joinpath_inj (p : path) (n m : string) :
  joinpath p n = joinpath p m -> n = m.
Proof. unfold joinpath. intros H. apply app_inv_head in H. congruence. Qed.

Lemma joinpath_ne_deeper (p : path) (n m x : string) :
  joinpath p n <> joinpath (joinpath p m) x.
Proof.
  intros H. apply (f_equal length) in H. unfold joinpath in H.
  rewrite !length_app in H. simpl in H. lia.
Qed.

Lemma joinpath_ne_self (p : path) (n : string) : joinpath p n <> p.
Proof.
  intros H. apply (f_equal length) in H. unfold joinpath in H.
  rewrite length_app in H. simpl in H. lia.
Qed.

(** ** One entry of a waypoint, as an equivalence *)

Lemma process_image_Ok_iff thumbs_dir entry fs o fs' :
  process_image lib thumbs_dir entry fs = Ok tt o fs'
  <-> ((fs !! entry = Some NDir \/ lower (suffix entry) ∉ image_suffixes)
       /\ o = [] /\ fs' = fs)
      \/ (fs !! entry <> Some NDir /\ lower (suffix entry) ∈ image_suffixes
          /\ exists c img thumb,
               fs !! entry = Some (NFile c) /\ decode lib c = Some img
               /\ make_thumbnail lib img THUMBNAIL_SIZE = inr thumb
               /\ encoder_accepts (JPEG JPEG_QUALITY) (mode thumb) = true
               /\ can_save fs (thumb_path thumbs_dir entry)
               /\ o = [ThumbLine (name entry) (stem entry +:+ ".jpg")]
               /\ fs' = <[thumb_path thumbs_dir entry :=
                            NFile (Written (JPEG JPEG_QUALITY) [thumb])]> fs).
Proof.
  destruct (dir_or_not fs entry) as [Hd|Hnd];
    [|destruct (decide (lower (suffix entry) ∈ image_suffixes)) as [Hsuf|Hsuf]].
  - rewrite (process_image_not_selected thumbs_dir entry fs (or_introl Hd)).
    split.
    + intros [= <- <-]. left. auto.
    + intros [(_ & -> & ->)|(Hnd & _)]; [reflexivity|contradiction].
  - rewrite (process_image_selected thumbs_dir entry fs Hnd Hsuf).
    split.
    + intros H. right. split; [exact Hnd|]. split; [exact Hsuf|].
      apply bind_inv_ok in H as ([] & o1 & fs1 & o2 & Hp & H & ->).
      inversion Hp; subst; clear Hp.
      apply create_square_thumbnail_Ok_iff in H
        as (c & img & thumb & ? & ? & ? & ? & ? & -> & ->).
      exists c, img, thumb. repeat split; auto.
    + intros [([?|?] & _)|(_ & _ & c & img & thumb & H)]; try contradiction.
      destruct H as (? & ? & ? & ? & ? & -> & ->).
      eapply (bind_ok_eq _ _ _ _ [_] _ _ []); [reflexivity|].
      apply create_square_thumbnail_Ok_iff. exists c, img, thumb.
      repeat split; auto.
  - rewrite (process_image_not_selected thumbs_dir entry fs (or_intror Hsuf)).
    split.
    + intros [= <- <-]. left. auto.
    + intros [(_ & -> & ->)|(_ & ? & _)]; [reflexivity|contradiction].
Qed.

(** ** The loop over the entries of one waypoint *)

Lemma can_save_insert_eq (fs : filesystem) (k : path) (c : content) :
  can_save (<[k := NFile c]> fs) k.
Proof. unfold can_save. rewrite lookup_insert_eq. exact I. Qed.

Lemma can_save_insert_ne (fs : filesystem) (k p : path) (v : node) :
  k <> p -> k <> removelast p -> can_save (<[k := v]> fs) p <-> can_save fs p.
Proof.
  intros H1 H2. unfold can_save. by rewrite !lookup_insert_ne.
Qed.

Lemma for_each_cons_inv {A} (body : A -> M unit) x xs fs o fs' :
  for_each (x :: xs) body fs = Ok tt o fs' ->
  exists o1 fs1 o2,
    body x fs = Ok tt o1 fs1 /\ for_each xs body fs1 = Ok tt o2 fs'
    /\ o = o1 ++ o2.
Proof.
  cbn [for_each]. intros H.
  apply bind_inv_ok in H as ([] & o1 & fs1 & o2 & H1 & H2 & ->). eauto 10.
Qed.

Lemma for_each_cons_ok {A} (body : A -> M unit) x xs fs o1 fs1 o2 fs2 :
  body x fs = Ok tt o1 fs1 -> for_each xs body fs1 = Ok tt o2 fs2 ->
  for_each (x :: xs) body fs = Ok tt (o1 ++ o2) fs2.
Proof. intros H1 H2. cbn [for_each]. by eapply bind_ok_eq. Qed.

Section Waypoint.

Context (W : path).

Local Abbreviation T := (joinpath W "thumbs").

(** One entry: only its thumbnail path changes, and what can be saved
    in the thumbs directory stays the same. *)
Lemma process_image_effect n s o s' :
  process_image lib T (joinpath W n) s = Ok tt o s' ->
  (forall k, k <> thumb_path T (joinpath W n) -> s' !! k = s !! k)
  /\ (forall x, can_save s (joinpath T x) <-> can_save s' (joinpath T x)).
Proof.
  intros H. apply process_image_Ok_iff in H
    as [(_ & _ & ->)|(_ & _ & c & img & thumb & H)]; [tauto|].
  destruct H as (_ & _ & _ & _ & Hcs & _ & ->). split.
  - intros k Hk. by rewrite lookup_insert_ne.
  - intros x. destruct (decide (thumb_path T (joinpath W n) = joinpath T x))
      as [E|E].
    + rewrite <- E. split; [intros _; apply can_save_insert_eq|auto].
    + symmetry. apply can_save_insert_ne; [exact E|].
      rewrite removelast_joinpath. apply joinpath_ne_self.
Qed.

Lemma thumbs_loop_effect ns s o s' :
  for_each (joinpath W <$> ns) (process_image lib T) s = Ok tt o s' ->
  (forall k, (forall m, m ∈ ns -> k <> thumb_path T (joinpath W m)) ->
             s' !! k = s !! k)
  /\ (forall x, can_save s (joinpath T x) <-> can_save s' (joinpath T x)).
Proof.
  revert s o. induction ns as [|n ns IH]; intros s o H.
  - inversion H; subst. tauto.
  - rewrite fmap_cons in H.
    apply for_each_cons_inv in H as (o1 & s1 & o2 & H1 & H2 & ->).
    apply process_image_effect in H1 as [Hf1 Hc1].
    apply IH in H2 as [Hf2 Hc2]. split.
    + intros k Hk. rewrite Hf2, Hf1; [reflexivity|..].
      * apply Hk. left.
      * intros m Hm. apply Hk. by right.
    + intros x. by rewrite Hc1.
Qed.

(** The loop does not touch anything that is not a file of the thumbs
    directory. *)
Lemma thumbs_loop_frame ns s o s' k :
  for_each (joinpath W <$> ns) (process_image lib T) s = Ok tt o s' ->
  (forall x, k <> joinpath T x) -> s' !! k = s !! k.
Proof.
  intros H Hk. apply (thumbs_loop_effect ns s o s' H). intros m _. apply Hk.
Qed.

(** Two runs of the loop from states that agree on the entries of the
    waypoint and on what can be saved in the thumbs directory: the second
    succeeds when the first does, prints the same, and every path is
    either untouched by both or holds the same in both final states. *)
Lemma thumbs_loop_sim ns s t o s' :
  (forall n, s !! joinpath W n = t !! joinpath W n) ->
  (forall x, can_save s (joinpath T x) <-> can_save t (joinpath T x)) ->
  for_each (joinpath W <$> ns) (process_image lib T) s = Ok tt o s' ->
  exists t',
    for_each (joinpath W <$> ns) (process_image lib T) t = Ok tt o t'
    /\ forall k, (s' !! k = s !! k /\ t' !! k = t !! k)
                 \/ (s' !! k = t' !! k /\ exists x, k = joinpath T x).
Proof.
  revert s t o. induction ns as [|n ns IH]; intros s t o Hin Hcs H.
  - inversion H; subst. exists t. split; [reflexivity|]. intros k. by left.
  - rewrite fmap_cons in H |- *.
    apply for_each_cons_inv in H as (o1 & s1 & o2 & H1 & H2 & ->).
    apply process_image_Ok_iff in H1
      as [(Hskip & -> & ->)|(Hnd & Hsuf & c & img & thumb & H1)].
    + destruct (IH s t o2 Hin Hcs H2) as (t' & Ht' & Hk).
      exists t'. split; [|exact Hk].
      eapply for_each_cons_ok; [|exact Ht'].
      apply process_image_Ok_iff. left. rewrite <- Hin. auto.
    + destruct H1 as (Hc & Hdec & Hth & Hacc & Hsave & -> & ->).
      set (k0 := thumb_path T (joinpath W n)) in *.
      set (v := NFile (Written (JPEG JPEG_QUALITY) [thumb])) in *.
      assert (Hk0 : k0 = joinpath T (stem (joinpath W n) +:+ ".jpg"))
        by reflexivity.
      destruct (IH (<[k0 := v]> s) (<[k0 := v]> t) o2) as (t' & Ht' & Hk).
      * intros m. rewrite !lookup_insert_ne; [apply Hin|..];
          rewrite Hk0; apply not_eq_sym, joinpath_ne_deeper.
      * intros x. destruct (decide (k0 = joinpath T x)) as [E|E].
        -- rewrite <- E. split; intros _; apply can_save_insert_eq.
        -- rewrite !can_save_insert_ne; [apply Hcs|exact E|..|exact E|];
             rewrite removelast_joinpath, Hk0; apply joinpath_ne_self.
      * exact H2.
      * exists t'. split.
        -- eapply for_each_cons_ok; [|exact Ht'].
           apply process_image_Ok_iff. right. rewrite <- Hin.
           split; [exact Hnd|]. split; [exact Hsuf|].
           exists c, img, thumb. repeat split; auto.
           apply Hcs. exact Hsave.
        -- intros k. destruct (Hk k) as [[Hs Ht]|?]; [|by right].
           destruct (decide (k0 = k)) as [<-|Hne].
           ++ right. rewrite lookup_insert_eq in Hs, Ht.
              split; [congruence|]. eauto.
           ++ left. rewrite lookup_insert_ne in Hs, Ht by exact Hne. auto.
Qed.

Lemma mkdir_thumbs_inv s o s_m :
  mkdir_exist_ok T s = Ok tt o s_m ->
  o = [] /\ s_m !! T = Some NDir
  /\ (forall k, k <> T -> s_m !! k = s !! k).
Proof.
  unfold mkdir_exist_ok.
  destruct (s !! T) as [[| |]|] eqn:E; try discriminate.
  - intros [= <- <-]. auto.
  - destruct (s !! removelast T) as [[| |]|]; try discriminate.
    intros [= <- <-]. split; [reflexivity|]. split.
    + apply lookup_insert_eq.
    + intros k Hk. by rewrite lookup_insert_ne.
Qed.

Lemma mkdir_thumbs_present s :
  s !! T = Some NDir -> mkdir_exist_ok T s = Ok tt [] s.
Proof. intros H. unfold mkdir_exist_ok. rewrite H. reflexivity. Qed.

Lemma sorted_iterdir_inv (p : path) s files o s' :
  sorted_iterdir p s = Ok files o s' ->
  s !! p = Some NDir /\ o = [] /\ s' = s
  /\ files = joinpath p <$> merge_sort name_le (listdir s p).
Proof.
  unfold sorted_iterdir. destruct (s !! p) as [[| |]|]; try discriminate.
  intros [= <- <- <-]. auto.
Qed.

Lemma process_waypoint_Ok_iff s o s' :
  process_waypoint lib W s = Ok tt o s'
  <-> (s !! W <> Some NDir /\ o = [] /\ s' = s)
      \/ (s !! W = Some NDir
          /\ exists s_m files o_l,
               mkdir_exist_ok T s = Ok tt [] s_m
               /\ sorted_iterdir W s_m = Ok files [] s_m
               /\ for_each files (process_image lib T) s_m = Ok tt o_l s'
               /\ o = o_l ++ [ProcessedWaypoint (name W) (count_jpg s' T)]).
Proof.
  unfold process_waypoint. destruct (dir_or_not s W) as [Hd|Hnd].
  - rewrite (bind_ok _ _ _ _ _ _ (is_dir_true _ _ Hd)). cbn [negb].
    rewrite match_result_id. split.
    + intros H. right. split; [exact Hd|].
      apply bind_inv_ok in H as ([] & o1 & s_m & o2 & Hmk & H & ->).
      pose proof (mkdir_thumbs_inv _ _ _ Hmk) as (-> & _).
      apply bind_inv_ok in H as (files & o3 & s2 & o4 & Hls & H & ->).
      pose proof (sorted_iterdir_inv _ _ _ _ _ Hls) as (_ & -> & -> & _).
      apply bind_inv_ok in H as ([] & o_l & s3 & o5 & Hloop & H & ->).
      apply bind_inv_ok in H as (cnt & o6 & s4 & o7 & Hcnt & H & ->).
      inversion Hcnt; subst; clear Hcnt. inversion H; subst; clear H.
      exists s_m, files, o_l. auto.
    + intros [(Hnd & _)|(_ & s_m & files & o_l & Hmk & Hls & Hloop & ->)];
        [contradiction|].
      eapply (bind_ok_eq _ _ _ _ []); [exact Hmk|].
      eapply (bind_ok_eq _ _ _ _ []); [exact Hls|].
      eapply bind_ok_eq; [exact Hloop|].
      eapply (bind_ok_eq _ _ _ _ []); reflexivity.
  - rewrite (bind_ok _ _ _ _ _ _ (is_dir_false _ _ Hnd)). cbn [negb].
    split.
    + intros [= <- <-]. left. auto.
    + intros [(_ & -> & ->)|(Hd & _)]; [reflexivity|contradiction].
Qed.

(** A waypoint changes nothing outside its thumbs directory. *)
Lemma process_waypoint_frame s o s' k :
  process_waypoint lib W s = Ok tt o s' ->
  ~ strictly_below W k -> s' !! k = s !! k.
Proof.
  intros H Hk. apply process_waypoint_Ok_iff in H
    as [(_ & _ & ->)|(_ & s_m & files & o_l & Hmk & Hls & Hloop & _)];
    [reflexivity|].
  apply mkdir_thumbs_inv in Hmk as (_ & _ & Hmk).
  apply sorted_iterdir_inv in Hls as (_ & _ & _ & ->).
  rewrite (thumbs_loop_frame _ _ _ _ _ Hloop).
  - apply Hmk. intros ->. apply Hk. by exists "thumbs", [].
  - intros x ->. apply Hk. exists "thumbs", [x]. unfold joinpath.
    by rewrite <- app_assoc.
Qed.

(** Re-running a waypoint on any state that agrees with the state it left
    behind, at and below the waypoint, changes nothing and prints the
    same. *)
Lemma process_waypoint_stable s o s' t :
  process_waypoint lib W s = Ok tt o s' ->
  (forall k, W `prefix_of` k -> t !! k = s' !! k) ->
  process_waypoint lib W t = Ok tt o t.
Proof.
  intros H Ht.
  assert (HW : W `prefix_of` W) by reflexivity.
  assert (HT : W `prefix_of` T) by (by exists ["thumbs"]).
  assert (Hin : forall n, W `prefix_of` joinpath W n) by (by intros n; exists [n]).
  assert (Hout : forall x, W `prefix_of` joinpath T x).
  { intros x. exists ["thumbs"; x]. unfold joinpath. by rewrite <- app_assoc. }
  pose proof (process_waypoint_frame _ _ _ W H) as HfW.
  apply process_waypoint_Ok_iff in H
    as [(Hnd & -> & ->)|(Hd & s_m & files & o_l & Hmk & Hls & Hloop & ->)].
  - apply process_waypoint_Ok_iff. left. rewrite (Ht W HW). auto.
  - apply process_waypoint_Ok_iff. right.
    pose proof (mkdir_thumbs_inv _ _ _ Hmk) as (_ & HTm & Hfm).
    pose proof (sorted_iterdir_inv _ _ _ _ _ Hls) as (HWm & _ & _ & ->).
    pose proof (thumbs_loop_effect _ _ _ _ Hloop) as [_ Hcs].
    pose proof (fun k => thumbs_loop_frame _ _ _ _ k Hloop) as Hfl.
    assert (HTs' : s' !! T = Some NDir).
    { rewrite Hfl, HTm; [reflexivity|]. intros x. apply not_eq_sym, joinpath_ne_self. }
    assert (Hinputs : forall n, s_m !! joinpath W n = t !! joinpath W n).
    { intros n. rewrite (Ht _ (Hin n)). symmetry. apply Hfl.
      intros x. apply joinpath_ne_deeper. }
    split.
    { rewrite (Ht W HW). rewrite HfW; [exact Hd|].
      intros (n & r & E). apply (f_equal length) in E.
      rewrite length_app in E. simpl in E. lia. }
    destruct (thumbs_loop_sim (merge_sort name_le (listdir s_m W))
                s_m t o_l s' Hinputs) as (t' & Hloop' & Hkeys).
    { intros x. rewrite Hcs. unfold can_save.
      rewrite (Ht _ (Hout x)), !removelast_joinpath, (Ht _ HT). reflexivity. }
    { exact Hloop. }
    assert (t' = t) as ->.
    { apply map_eq. intros k. destruct (Hkeys k) as [[_ ?]|[E [x ->]]]; [done|].
      rewrite <- E. symmetry. apply Ht, Hout. }
    exists t, (joinpath W <$> merge_sort name_le (listdir s_m W)), o_l.
    split; [apply mkdir_thumbs_present; by rewrite (Ht _ HT)|].
    split.
    { unfold sorted_iterdir.
      assert (t !! W = Some NDir) as ->.
      { rewrite (Ht W HW). rewrite Hfl, HWm; [reflexivity|].
        intros x E. apply (f_equal length) in E. unfold joinpath in E.
        rewrite !length_app in E. simpl in E. lia. }
      rewrite (sorted_listdir_eq t s_m W); [reflexivity|].
      intros n. by rewrite Hinputs. }
    split; [exact Hloop'|].
    do 3 f_equal. unfold count_jpg. rewrite (Ht _ HT), HTs'.
    apply Permutation_length, filter_Permutation, listdir_Permutation.
    intros x. by rewrite (Ht _ (Hout x)).
Qed.

End Waypoint.

(** ** Colliding thumbnail names *)

Lemma length_append (a b : string) :
  String.length (a +:+ b) = (String.length a + String.length b)%nat.
Proof.
  induction a as [|c a IH]; [reflexivity|].
  change (String c a +:+ b) with (String c (a +:+ b)). simpl. by rewrite IH.
Qed.

Lemma append_inj_r (t s1 s2 : string) : s1 +:+ t = s2 +:+ t -> s1 = s2.
Proof.
  revert s2. induction s1 as [|a s1 IH]; intros [|b s2] H.
  - reflexivity.
  - apply (f_equal String.length) in H. rewrite !length_append in H.
    simpl in H. lia.
  - apply (f_equal String.length) in H. rewrite !length_append in H.
    simpl in H. lia.
  - change (String a (s1 +:+ t) = String b (s2 +:+ t)) in H.
    injection H as -> H. f_equal. by apply IH.
Qed.

Lemma thumb_path_inj (thumbs_dir e1 e2 : path) :
  thumb_path thumbs_dir e1 = thumb_path thumbs_dir e2 -> stem e1 = stem e2.
Proof.
  unfold thumb_path. intros H%joinpath_inj. by apply append_inj_r in H.
Qed.

Lemma elem_of_middle {A} (x : A) (l1 l2 : list A) : x ∈ l1 ++ x :: l2.
Proof. apply elem_of_app. right. left. Qed.

Lemma for_each_snoc_inv {A} (body : A -> M unit) xs x fs o fs' :
  for_each (xs ++ [x]) body fs = Ok tt o fs' ->
  exists o1 fs1 o2,
    for_each xs body fs = Ok tt o1 fs1 /\ body x fs1 = Ok tt o2 fs'
    /\ o = o1 ++ o2.
Proof.
  revert fs o. induction xs as [|y xs IH]; intros fs o H.
  - rewrite app_nil_l in H.
    apply for_each_cons_inv in H as (o1 & fs1 & o2 & H1 & H2 & ->).
    inversion H2; subst. exists [], fs, o1. rewrite app_nil_r. auto.
  - rewrite <- app_comm_cons in H.
    apply for_each_cons_inv in H as (o1 & fs1 & o2 & H1 & H2 & ->).
    apply IH in H2 as (o3 & fs2 & o4 & H2 & H3 & ->).
    exists (o1 ++ o3), fs2, o4. rewrite app_assoc.
    split; [by eapply for_each_cons_ok|auto].
Qed.

Section Collisions.

Context (W : path).

Local Abbreviation T := (joinpath W "thumbs").

(** The loop leaves a path alone unless an entry it thumbnails has that
    path as its thumbnail path. *)
Lemma thumbs_loop_keeps ns s o s' k :
  for_each (joinpath W <$> ns) (process_image lib T) s = Ok tt o s' ->
  (forall m, m ∈ ns -> s !! joinpath W m <> Some NDir ->
             lower (suffix (joinpath W m)) ∈ image_suffixes ->
             thumb_path T (joinpath W m) <> k) ->
  s' !! k = s !! k.
Proof.
  revert s o. induction ns as [|n ns IH]; intros s o H Hk.
  - by inversion H.
  - rewrite fmap_cons in H.
    apply for_each_cons_inv in H as (o1 & s1 & o2 & H1 & H2 & ->).
    pose proof (process_image_effect W _ _ _ _ H1) as [Hf _].
    rewrite (IH _ _ H2).
    + apply process_image_Ok_iff in H1
        as [(_ & _ & ->)|(Hnd & Hsuf & c & img & thumb & H1)]; [reflexivity|].
      destruct H1 as (_ & _ & _ & _ & _ & _ & ->).
      apply lookup_insert_ne, Hk; [left|exact Hnd|exact Hsuf].
    + intros m Hm. rewrite Hf; [apply Hk; by right|].
      apply joinpath_ne_deeper.
Qed.

(** After the loop, the thumbnail path of an entry that was thumbnailed
    holds the thumbnail of that entry, provided no entry thumbnailed
    later has the same stem. *)
Lemma thumbs_loop_last ns1 n ns2 s o s' c :
  for_each (joinpath W <$> (ns1 ++ n :: ns2)) (process_image lib T) s
  = Ok tt o s' ->
  s !! joinpath W n = Some (NFile c) ->
  lower (suffix (joinpath W n)) ∈ image_suffixes ->
  (forall m, m ∈ ns2 -> s !! joinpath W m <> Some NDir ->
             lower (suffix (joinpath W m)) ∈ image_suffixes ->
             stem (joinpath W m) <> stem (joinpath W n)) ->
  exists img thumb,
    decode lib c = Some img
    /\ make_thumbnail lib img THUMBNAIL_SIZE = inr thumb
    /\ ThumbLine n (stem (joinpath W n) +:+ ".jpg") ∈ o
    /\ s' !! thumb_path T (joinpath W n)
       = Some (NFile (Written (JPEG JPEG_QUALITY) [thumb])).
Proof.
  revert s o. induction ns1 as [|a ns1 IH]; intros s o H Hc Hsuf Hlater.
  - rewrite app_nil_l, fmap_cons in H.
    apply for_each_cons_inv in H as (o1 & s1 & o2 & H1 & H2 & ->).
    pose proof (process_image_effect W _ _ _ _ H1) as [Hf _].
    apply process_image_Ok_iff in H1
      as [([Hd|Hns] & _)|(_ & _ & c' & img & thumb & H1)];
      [congruence|contradiction|].
    destruct H1 as (Hc' & Hdec & Hth & _ & _ & -> & Hs1).
    assert (c' = c) as -> by congruence.
    exists img, thumb. split; [exact Hdec|]. split; [exact Hth|]. split.
    + rewrite name_joinpath. left.
    + rewrite (thumbs_loop_keeps _ _ _ _ _ H2).
      * rewrite Hs1. apply lookup_insert_eq.
      * intros m Hm Hnd Hsm E. apply thumb_path_inj in E.
        rewrite Hf in Hnd by apply joinpath_ne_deeper.
        by apply (Hlater m).
  - rewrite <- app_comm_cons, fmap_cons in H.
    apply for_each_cons_inv in H as (o1 & s1 & o2 & H1 & H2 & ->).
    pose proof (process_image_effect W _ _ _ _ H1) as [Hf _].
    destruct (IH s1 o2 H2) as (img & thumb & ? & ? & ? & ?).
    + rewrite Hf; [exact Hc|apply joinpath_ne_deeper].
    + exact Hsuf.
    + intros m Hm. rewrite Hf by apply joinpath_ne_deeper. by apply Hlater.
    + exists img, thumb. repeat split; auto. apply elem_of_app. by right.
Qed.

(** Every entry the loop thumbnails was decoded and announced. *)
Lemma thumbs_loop_each ns s o s' n c :
  for_each (joinpath W <$> ns) (process_image lib T) s = Ok tt o s' ->
  n ∈ ns ->
  s !! joinpath W n = Some (NFile c) ->
  lower (suffix (joinpath W n)) ∈ image_suffixes ->
  exists img thumb,
    decode lib c = Some img
    /\ make_thumbnail lib img THUMBNAIL_SIZE = inr thumb
    /\ ThumbLine n (stem (joinpath W n) +:+ ".jpg") ∈ o.
Proof.
  intros H Hn Hc Hsuf.
  destruct (list_elem_of_split _ _ Hn) as (ns1 & ns2 & ->). clear Hn.
  revert o s' H. induction ns2 as [|z ns2 IH] using rev_ind; intros o s' H.
  - destruct (thumbs_loop_last ns1 n [] s o s' c H Hc Hsuf)
      as (img & thumb & ? & ? & ? & _); [|by eauto].
    intros m Hm. by apply elem_of_nil in Hm.
  - rewrite app_comm_cons, app_assoc, fmap_app in H.
    cbn [fmap list_fmap] in H.
    apply for_each_snoc_inv in H as (o1 & s1 & o2 & H1 & _ & ->).
    destruct (IH o1 s1 H1) as (img & thumb & ? & ? & ?).
    exists img, thumb. repeat split; auto. apply elem_of_app. by left.
Qed.

(** After the loop, the thumbnail path of every entry that was
    thumbnailed holds the thumbnail of an entry with the same stem. *)
Lemma thumbs_loop_some ns s o s' n c :
  for_each (joinpath W <$> ns) (process_image lib T) s = Ok tt o s' ->
  n ∈ ns ->
  s !! joinpath W n = Some (NFile c) ->
  lower (suffix (joinpath W n)) ∈ image_suffixes ->
  exists m c' img thumb,
    m ∈ ns /\ stem (joinpath W m) = stem (joinpath W n)
    /\ s !! joinpath W m = Some (NFile c')
    /\ lower (suffix (joinpath W m)) ∈ image_suffixes
    /\ decode lib c' = Some img
    /\ make_thumbnail lib img THUMBNAIL_SIZE = inr thumb
    /\ s' !! thumb_path T (joinpath W n)
       = Some (NFile (Written (JPEG JPEG_QUALITY) [thumb])).
Proof.
  revert o s'. induction ns as [|z ns IH] using rev_ind;
    intros o s' H Hn Hc Hsuf; [by apply elem_of_nil in Hn|].
  rewrite fmap_app in H. cbn [fmap list_fmap] in H.
  apply for_each_snoc_inv in H as (o1 & s1 & o2 & H1 & H2 & ->).
  pose proof (fun k => thumbs_loop_frame W _ _ _ _ k H1) as Hfr.
  pose proof (process_image_effect W _ _ _ _ H2) as [Hf _].
  assert (Hin : forall m, s1 !! joinpath W m = s !! joinpath W m).
  { intros m. apply Hfr. intros x. apply joinpath_ne_deeper. }
  apply process_image_Ok_iff in H2
    as [(Hskip & _ & ->)|(Hnd & Hsz & cz & img & thumb & H2)].
  - assert (n ∈ ns) as Hn'.
    { apply elem_of_app in Hn as [?|Hz]; [done|].
      apply list_elem_of_singleton in Hz as ->. rewrite Hin, Hc in Hskip.
      destruct Hskip; [discriminate|contradiction]. }
    destruct (IH _ _ H1 Hn' Hc Hsuf) as (m & c' & img & thumb & Hm & ?).
    exists m, c', img, thumb. split; [apply elem_of_app; by left|done].
  - destruct H2 as (Hcz & Hdec & Hth & _ & _ & _ & ->).
    destruct (decide (stem (joinpath W z) = stem (joinpath W n))) as [E|E].
    + exists z, cz, img, thumb. rewrite <- Hin.
      split; [apply elem_of_app; right; by left|].
      repeat split; auto.
      unfold thumb_path. rewrite E. apply lookup_insert_eq.
    + assert (n ∈ ns) as Hn'.
      { apply elem_of_app in Hn as [?|Hz]; [done|].
        by apply list_elem_of_singleton in Hz as ->. }
      destruct (IH _ _ H1 Hn' Hc Hsuf)
        as (m & c' & img' & thumb' & Hm & ? & ? & ? & ? & ? & Hlook).
      exists m, c', img', thumb'. split; [apply elem_of_app; by left|].
      repeat split; auto. rewrite lookup_insert_ne; [exact Hlook|].
      intros E'. by apply thumb_path_inj in E'.
Qed.

End Collisions.

Lemma thumbs_is_no_image : lower (suffix_of_name "thumbs") ∉ image_suffixes.
Proof.
  intros H. vm_compute in H.
  repeat (apply elem_of_cons in H as [H|H]; [discriminate|]).
  exact (proj1 (elem_of_nil _) H).
Qed.

(** C8. For a waypoint whose processing succeeds and an entry [n] of it
    that is a regular file with an image extension: the entry was decoded
    and thumbnailed, the line printed for it names [<stem of n>.jpg], and
    the thumbs directory holds a JPEG under that name, which is the
    thumbnail of an entry with the same stem.  Entries with the same stem
    share that path; if [n] is the last of them in the order of the
    listing, that is, every entry with the same stem that is thumbnailed
    is at most [n] in the order of names, the file is the thumbnail
    of [n]. *)
Theorem c8_thumbnail_name_and_last_writer (W : path) fs out fs' n c :
  process_waypoint lib W fs = Ok tt out fs' ->
  fs !! W = Some NDir ->
  fs !! joinpath W n = Some (NFile c) ->
  lower (suffix_of_name n) ∈ image_suffixes ->
  let thumb_file :=
    joinpath (joinpath W "thumbs") (stem_of_name n +:+ ".jpg") in
  exists img thumb,
    decode lib c = Some img
    /\ make_thumbnail lib img THUMBNAIL_SIZE = inr thumb
    /\ ThumbLine n (stem_of_name n +:+ ".jpg") ∈ out
    /\ (exists m c' img' thumb',
          stem_of_name m = stem_of_name n
          /\ fs !! joinpath W m = Some (NFile c')
          /\ lower (suffix_of_name m) ∈ image_suffixes
          /\ decode lib c' = Some img'
          /\ make_thumbnail lib img' THUMBNAIL_SIZE = inr thumb'
          /\ fs' !! thumb_file
             = Some (NFile (Written (JPEG JPEG_QUALITY) [thumb'])))
    /\ ((forall m, is_Some (fs !! joinpath W m) ->
                   fs !! joinpath W m <> Some NDir ->
                   lower (suffix_of_name m) ∈ image_suffixes ->
                   stem_of_name m = stem_of_name n -> name_le m n) ->
        fs' !! thumb_file
        = Some (NFile (Written (JPEG JPEG_QUALITY) [thumb]))).
Proof.
  intros H Hd Hc Hsuf thumb_file.
  apply process_waypoint_Ok_iff in H
    as [(Hnd & _)|(_ & s_m & files & o_l & Hmk & Hls & Hloop & ->)];
    [contradiction|].
  apply mkdir_thumbs_inv in Hmk as (_ & HT & Hfm).
  apply sorted_iterdir_inv in Hls as (_ & _ & _ & ->).
  set (ns := merge_sort name_le (listdir s_m W)) in *.
  assert (Hname : forall m, name (joinpath W m) = m) by apply name_joinpath.
  assert (Hsufm : forall m, suffix (joinpath W m) = suffix_of_name m).
  { intros m. unfold suffix. by rewrite Hname. }
  assert (Hstem : forall m, stem (joinpath W m) = stem_of_name m).
  { intros m. unfold stem. by rewrite Hname. }
  assert (Hsame : forall m, lower (suffix_of_name m) ∈ image_suffixes ->
                            s_m !! joinpath W m = fs !! joinpath W m).
  { intros m Hm. apply Hfm. intros E%joinpath_inj. subst m.
    by apply thumbs_is_no_image. }
  assert (Hn : n ∈ ns).
  { unfold ns. rewrite merge_sort_Permutation. apply elem_of_listdir.
    rewrite Hsame, Hc by exact Hsuf. eauto. }
  assert (Hc' : s_m !! joinpath W n = Some (NFile c))
    by (by rewrite Hsame).
  assert (Hsuf' : lower (suffix (joinpath W n)) ∈ image_suffixes)
    by (by rewrite Hsufm).
  destruct (list_elem_of_split _ _ Hn) as (ns1 & ns2 & Hsplit).
  assert (Hsorted : StronglySorted name_le (ns1 ++ n :: ns2)).
  { rewrite <- Hsplit. apply StronglySorted_merge_sort; apply _. }
  assert (Hnodup : NoDup (ns1 ++ n :: ns2)).
  { rewrite <- Hsplit. unfold ns. rewrite merge_sort_Permutation.
    apply NoDup_listdir. }
  apply StronglySorted_app in Hsorted as (_ & _ & Hsorted).
  apply StronglySorted_cons in Hsorted as [Hle _].
  rewrite Forall_forall in Hle.
  apply NoDup_app in Hnodup as (_ & _ & Hnodup).
  apply NoDup_cons in Hnodup as [Hnotin _].
  (* some entry with the same stem *)
  destruct (thumbs_loop_some W _ _ _ _ n c Hloop Hn Hc' Hsuf')
    as (m & c1 & img1 & thumb1 & _ & Hst & Hcm & Hsm & Hdm & Htm & Hlook).
  (* the file of [n], when [n] is the last with its stem *)
  rewrite Hsplit in Hloop.
  assert (Hlast :
    (forall m, is_Some (fs !! joinpath W m) ->
               fs !! joinpath W m <> Some NDir ->
               lower (suffix_of_name m) ∈ image_suffixes ->
               stem_of_name m = stem_of_name n -> name_le m n) ->
    exists img thumb,
      decode lib c = Some img
      /\ make_thumbnail lib img THUMBNAIL_SIZE = inr thumb
      /\ ThumbLine n (stem (joinpath W n) +:+ ".jpg") ∈ o_l
      /\ s_m !! joinpath W n = Some (NFile c)
      /\ fs' !! thumb_path (joinpath W "thumbs") (joinpath W n)
         = Some (NFile (Written (JPEG JPEG_QUALITY) [thumb]))).
  { intros Hmax.
    destruct (thumbs_loop_last W ns1 n ns2 s_m o_l fs' c Hloop Hc' Hsuf')
      as (img & thumb & ? & ? & ? & ?).
    - intros m' Hm' Hnd' Hsm' Est. rewrite Hsufm in Hsm'.
      rewrite !Hstem in Est. rewrite Hsame in Hnd' by exact Hsm'.
      assert (name_le m' n) as Hmn.
      { apply Hmax; auto.
        destruct (fs !! joinpath W m') as [v|] eqn:E; [eauto|].
        exfalso. assert (m' ∈ ns) as Hin.
        { rewrite Hsplit. apply elem_of_app. right. by right. }
        unfold ns in Hin. rewrite merge_sort_Permutation in Hin.
        apply elem_of_listdir in Hin. rewrite Hsame, E in Hin by exact Hsm'.
        by destruct Hin. }
      apply Hnotin. by rewrite <- (anti_symm name_le _ _ Hmn (Hle _ Hm')).
    - exists img, thumb. auto. }
  destruct (thumbs_loop_each W _ _ _ _ n c Hloop
              (elem_of_middle _ _ _) Hc' Hsuf')
    as (img & thumb & Hdec & Hth & Hline).
  rewrite Hstem in Hline.
  exists img, thumb. split; [exact Hdec|]. split; [exact Hth|].
  split; [|split].
  - apply elem_of_app. by left.
  - exists m, c1, img1, thumb1. rewrite !Hstem in Hst.
    rewrite Hsufm in Hsm. rewrite <- (Hsame m Hsm).
    unfold thumb_path in Hlook. rewrite Hstem in Hlook. auto 10.
  - intros Hmax. destruct (Hlast Hmax) as (img2 & thumb2 & ? & ? & _ & _ & Hl).
    unfold thumb_path in Hl. rewrite Hstem in Hl.
    assert (img2 = img) as -> by congruence.
    assert (thumb2 = thumb) as -> by congruence. exact Hl.
Qed.


(** ** Loops over the entries of a directory *)

Lemma strictly_below_child (p : path) (n : string) (k : path) :
  strictly_below (joinpath p n) k -> strictly_below p k.
Proof.
  intros (m & r & ->). exists n, (m :: r). unfold joinpath.
  by rewrite <- app_assoc.
Qed.

Lemma child_not_below_sibling (p : path) (n m : string) (k : path) :
  joinpath p n `prefix_of` k -> strictly_below (joinpath p m) k -> n = m.
Proof.
  intros [r1 ->] (x & r2 & E). unfold joinpath in E.
  rewrite <- !app_assoc in E. apply app_inv_head in E. by inversion E.
Qed.

Lemma not_below_longer (x k : path) :
  (length k <= length x)%nat -> ~ strictly_below x k.
Proof.
  intros Hlen (n & r & ->). rewrite length_app in Hlen. simpl in Hlen. lia.
Qed.

Section LoopOverChildren.

Context (body : path -> M unit).

Hypothesis body_frame : forall x s o s' k,
  body x s = Ok tt o s' -> ~ strictly_below x k -> s' !! k = s !! k.

Hypothesis body_stable : forall x s o s' t,
  body x s = Ok tt o s' ->
  (forall k, x `prefix_of` k -> t !! k = s' !! k) ->
  body x t = Ok tt o t.

Lemma for_each_frame xs s o s' k :
  for_each xs body s = Ok tt o s' ->
  (forall x, x ∈ xs -> ~ strictly_below x k) -> s' !! k = s !! k.
Proof.
  revert s o. induction xs as [|x xs IH]; intros s o H Hk.
  - by inversion H.
  - apply for_each_cons_inv in H as (o1 & s1 & o2 & H1 & H2 & ->).
    rewrite (IH _ _ H2), (body_frame _ _ _ _ _ H1); [reflexivity|..].
    + apply Hk. left.
    + intros y Hy. apply Hk. by right.
Qed.

Lemma for_each_children_frame parent ns s o s' k :
  for_each (joinpath parent <$> ns) body s = Ok tt o s' ->
  (length k <= length parent + 1)%nat -> s' !! k = s !! k.
Proof.
  intros H Hk. apply (for_each_frame _ _ _ _ _ H).
  intros x (n & -> & _)%list_elem_of_fmap. apply not_below_longer.
  unfold joinpath. rewrite length_app. simpl. lia.
Qed.

Lemma for_each_children_stable parent ns s o s' t :
  NoDup ns ->
  for_each (joinpath parent <$> ns) body s = Ok tt o s' ->
  (forall k, parent `prefix_of` k -> t !! k = s' !! k) ->
  for_each (joinpath parent <$> ns) body t = Ok tt o t.
Proof.
  intros Hnd. revert s o. induction Hnd as [|n ns Hn Hnd IH]; intros s o H Ht.
  - by inversion H.
  - rewrite fmap_cons in H |- *.
    apply for_each_cons_inv in H as (o1 & s1 & o2 & H1 & H2 & ->).
    eapply for_each_cons_ok; [|by eapply IH].
    eapply body_stable; [exact H1|].
    intros k Hk. rewrite Ht.
    + apply (for_each_frame _ _ _ _ _ H2).
      intros x (m & -> & Hm)%list_elem_of_fmap Hbelow.
      apply Hn. by rewrite (child_not_below_sibling _ _ _ _ Hk Hbelow).
    + etransitivity; [|exact Hk]. by exists [n].
Qed.

End LoopOverChildren.

(** ** A trail, and the whole run, once more *)

Lemma process_trail_Ok_iff Tr s o s' :
  process_trail lib Tr s = Ok tt o s'
  <-> (s !! joinpath Tr "photos" = None
       /\ o = [NoPhotosDir (joinpath Tr "photos")] /\ s' = s)
      \/ (exists files,
            sorted_iterdir (joinpath Tr "photos") s = Ok files [] s
            /\ for_each files (process_waypoint lib) s = Ok tt o s').
Proof.
  unfold process_trail.
  erewrite bind_ok by reflexivity.
  destruct (s !! joinpath Tr "photos") as [v|] eqn:E.
  - rewrite bool_decide_eq_true_2 by eauto. cbn [negb].
    rewrite match_result_id. split.
    + intros H. right.
      apply bind_inv_ok in H as (files & o1 & s1 & o2 & Hls & H & ->).
      pose proof (sorted_iterdir_inv _ _ _ _ _ Hls) as (_ & -> & -> & _).
      eauto.
    + intros [(? & _)|(files & Hls & H)]; [discriminate|].
      by eapply (bind_ok_eq _ _ _ _ []).
  - rewrite bool_decide_eq_false_2 by (intros [? ?]; discriminate).
    cbn [negb]. split.
    + intros [= <- <-]. left. auto.
    + intros [(_ & -> & ->)|(files & Hls & _)]; [reflexivity|].
      unfold sorted_iterdir in Hls. rewrite E in Hls. discriminate.
Qed.

Lemma process_trail_frame Tr s o s' k :
  process_trail lib Tr s = Ok tt o s' ->
  ~ strictly_below Tr k -> s' !! k = s !! k.
Proof.
  intros H Hk. apply process_trail_Ok_iff in H
    as [(_ & _ & ->)|(files & Hls & H)]; [reflexivity|].
  apply sorted_iterdir_inv in Hls as (_ & _ & _ & ->).
  apply (for_each_frame _ (process_waypoint_frame) _ _ _ _ _ H).
  intros x (n & -> & _)%list_elem_of_fmap Hb.
  apply Hk. by do 2 apply strictly_below_child in Hb.
Qed.

Lemma process_trail_stable Tr s o s' t :
  process_trail lib Tr s = Ok tt o s' ->
  (forall k, Tr `prefix_of` k -> t !! k = s' !! k) ->
  process_trail lib Tr t = Ok tt o t.
Proof.
  intros H Ht.
  assert (HP : Tr `prefix_of` joinpath Tr "photos") by (by exists ["photos"]).
  apply process_trail_Ok_iff in H as [(Hnone & -> & ->)|(files & Hls & H)].
  - apply process_trail_Ok_iff. left. by rewrite (Ht _ HP).
  - apply process_trail_Ok_iff. right.
    pose proof (sorted_iterdir_inv _ _ _ _ _ Hls) as (Hd & _ & _ & ->).
    set (photos := joinpath Tr "photos") in *.
    pose proof (fun k => for_each_children_frame _ process_waypoint_frame
                           photos _ _ _ _ k H) as Hfr.
    assert (Hsame : forall k, photos `prefix_of` k ->
                              (length k <= length photos + 1)%nat ->
                              t !! k = s !! k).
    { intros k Hk Hlen. rewrite <- Hfr by exact Hlen. apply Ht.
      by etransitivity. }
    destruct (sorted_iterdir_eq s t photos) as (ns & Hnd & _ & _ & Hs & Hs').
    { exact Hd. }
    { rewrite Hsame; [exact Hd|reflexivity|lia]. }
    { intros n. rewrite (Hsame (joinpath photos n)); [reflexivity|by exists [n]|].
      unfold joinpath. rewrite length_app. simpl. lia. }
    exists (joinpath photos <$> ns). split; [exact Hs'|].
    rewrite Hs in Hls. injection Hls as Hfiles. rewrite <- Hfiles in H.
    eapply (for_each_children_stable _ process_waypoint_frame
              process_waypoint_stable); [exact Hnd|exact H|].
    intros k Hk. apply Ht. by etransitivity.
Qed.

Lemma visit_trail_Ok_iff Tr s o s' :
  visit_trail lib Tr s = Ok tt o s'
  <-> (s !! Tr <> Some NDir /\ o = [] /\ s' = s)
      \/ (s !! Tr = Some NDir
          /\ exists o1, process_trail lib Tr s = Ok tt o1 s'
                        /\ o = ProcessingTrail (name Tr) :: o1).
Proof.
  unfold visit_trail. destruct (dir_or_not s Tr) as [Hd|Hnd].
  - rewrite (bind_ok _ _ _ _ _ _ (is_dir_true _ _ Hd)). cbn [negb].
    rewrite match_result_id. split.
    + intros H. right. split; [exact Hd|].
      apply bind_inv_ok in H as ([] & o1 & s1 & o2 & Hp & H & ->).
      inversion Hp; subst. eauto.
    + intros [(? & _)|(_ & o1 & H & ->)]; [contradiction|].
      by eapply (bind_ok_eq _ _ _ _ [_]).
  - rewrite (bind_ok _ _ _ _ _ _ (is_dir_false _ _ Hnd)). cbn [negb].
    split.
    + intros [= <- <-]. left. auto.
    + intros [(_ & -> & ->)|(? & _)]; [reflexivity|contradiction].
Qed.

Lemma visit_trail_frame Tr s o s' k :
  visit_trail lib Tr s = Ok tt o s' ->
  ~ strictly_below Tr k -> s' !! k = s !! k.
Proof.
  intros H Hk. apply visit_trail_Ok_iff in H
    as [(_ & _ & ->)|(_ & o1 & H & _)]; [reflexivity|].
  by eapply process_trail_frame.
Qed.

Lemma visit_trail_stable Tr s o s' t :
  visit_trail lib Tr s = Ok tt o s' ->
  (forall k, Tr `prefix_of` k -> t !! k = s' !! k) ->
  visit_trail lib Tr t = Ok tt o t.
Proof.
  intros H Ht. pose proof (visit_trail_frame _ _ _ _ Tr H) as Hfr.
  apply visit_trail_Ok_iff. apply visit_trail_Ok_iff in H
    as [(Hnd & -> & ->)|(Hd & o1 & H & ->)].
  - left. by rewrite Ht.
  - right. split.
    + rewrite Ht by reflexivity. rewrite Hfr; [exact Hd|].
      apply not_below_longer. lia.
    + exists o1. split; [|reflexivity]. by eapply process_trail_stable.
Qed.

Lemma main_Ok_iff s o s' :
  main lib s = Ok tt o s'
  <-> (s !! trails_dir = None /\ o = [TrailsNotFound trails_dir] /\ s' = s)
      \/ (exists files o1,
            sorted_iterdir trails_dir s = Ok files [] s
            /\ for_each files (visit_trail lib) s = Ok tt o1 s'
            /\ o = o1 ++ [Done]).
Proof.
  unfold main.
  erewrite bind_ok by reflexivity.
  destruct (s !! trails_dir) as [v|] eqn:E.
  - rewrite bool_decide_eq_true_2 by eauto. cbn [negb].
    rewrite match_result_id. split.
    + intros H. right.
      apply bind_inv_ok in H as (files & o1 & s1 & o2 & Hls & H & ->).
      pose proof (sorted_iterdir_inv _ _ _ _ _ Hls) as (_ & -> & -> & _).
      apply bind_inv_ok in H as ([] & o3 & s3 & o4 & Hloop & H & ->).
      inversion H; subst. eauto.
    + intros [(? & _)|(files & o1 & Hls & H & ->)]; [discriminate|].
      eapply (bind_ok_eq _ _ _ _ []); [exact Hls|].
      by eapply bind_ok_eq.
  - rewrite bool_decide_eq_false_2 by (intros [? ?]; discriminate).
    cbn [negb]. split.
    + intros [= <- <-]. left. auto.
    + intros [(_ & -> & ->)|(files & o1 & Hls & _)]; [reflexivity|].
      unfold sorted_iterdir in Hls. rewrite E in Hls. discriminate.
Qed.

(** A trail without a photos directory is reported and passed by. *)
Lemma missing_photos_is_reported Tr fs :
  fs !! joinpath Tr "photos" = None ->
  process_trail lib Tr fs = Ok tt [NoPhotosDir (joinpath Tr "photos")] fs.
Proof. intros H. apply process_trail_Ok_iff. by left. Qed.

(** C9. When a run of the thumbnail generator succeeds, a second run on
    the tree it left behind succeeds too: the thumbs directories are found
    in place, the thumbnails are written again with the same contents, so
    the tree is left as it was, and the second run prints what the first
    printed, in particular the same thumbnail count for every waypoint. *)
Theorem c9_second_run_is_the_same (fs : filesystem) out fs' :
  main lib fs = Ok tt out fs' ->
  main lib fs' = Ok tt out fs'
  /\ forall waypoint count,
       ProcessedWaypoint waypoint count ∈ out ->
       exists out2 fs2,
         main lib fs' = Ok tt out2 fs2
         /\ ProcessedWaypoint waypoint count ∈ out2.
Proof.
  intros H.
  assert (H2 : main lib fs' = Ok tt out fs'); [|by eauto].
  apply main_Ok_iff. apply main_Ok_iff in H
    as [(Hnone & -> & ->)|(files & o1 & Hls & H & ->)]; [by left|].
  right.
  pose proof (sorted_iterdir_inv _ _ _ _ _ Hls) as (Hd & _ & _ & ->).
  pose proof (fun k => for_each_children_frame _ visit_trail_frame
                         trails_dir _ _ _ _ k H) as Hfr.
  destruct (sorted_iterdir_eq fs fs' trails_dir) as (ns & Hnd & _ & _ & Hs & Hs').
  { exact Hd. }
  { rewrite Hfr; [exact Hd|simpl; lia]. }
  { intros n. rewrite Hfr; [reflexivity|simpl; lia]. }
  exists (joinpath trails_dir <$> ns), o1. split; [exact Hs'|].
  split; [|reflexivity].
  rewrite Hs in Hls. injection Hls as Hfiles. rewrite <- Hfiles in H.
  by eapply (for_each_children_stable _ visit_trail_frame visit_trail_stable).
Qed.

(** ** Exceptions reach the top *)

Lemma result_cases {A} (r : result A) :
  (exists a o fs, r = Ok a o fs) \/ (exists e, r = Raise e).
Proof. destruct r; eauto. Qed.

(** In a loop that succeeds, every element's body succeeded, from a state
    satisfying any invariant that held at the start and that the bodies
    preserve. *)
Lemma for_each_ok_each {A} (body : A -> M unit) (I : filesystem -> Prop)
    xs s o s' x :
  for_each xs body s = Ok tt o s' -> I s ->
  (forall y s o s', y ∈ xs -> I s -> body y s = Ok tt o s' -> I s') ->
  x ∈ xs ->
  exists s_x o_x s_x', I s_x /\ body x s_x = Ok tt o_x s_x'.
Proof.
  revert s o. induction xs as [|y xs IH]; intros s o H HI Hpres Hx;
    [by apply elem_of_nil in Hx|].
  apply for_each_cons_inv in H as (o1 & s1 & o2 & H1 & H2 & ->).
  apply elem_of_cons in Hx as [->|Hx]; [by eauto|].
  eapply (IH s1 o2 H2).
  - eapply Hpres; [left|exact HI|exact H1].
  - intros z t ot t' Hz. apply Hpres. by right.
  - exact Hx.
Qed.

End Properties.

(** * Further properties *)

(** ** The thumbnail generator *)

Section ThumbnailRuns.
Context (lib : Imaging).

(** X1. The crop box treats the two axes alike: for a picture of height
    [w] and width [h] it is the box of the picture of width [w] and height
    [h] with the axes exchanged. *)
Theorem crop_box_transpose (w h : Z) :
  let '(left_, top, right_, bottom) := crop_box w h in
  crop_box h w = (top, left_, bottom, right_).
Proof.
  destruct (Z.lt_trichotomy w h) as [Hlt|[->|Hgt]].
  - rewrite (crop_box_portrait w h) by lia.
    rewrite (crop_box_landscape h w) by lia. reflexivity.
  - rewrite (crop_box_portrait h h) by lia.
    rewrite Z.sub_diag. reflexivity.
  - rewrite (crop_box_landscape w h) by lia.
    rewrite (crop_box_portrait h w) by lia. reflexivity.
Qed.

(** X2. The crop at the crop box succeeds for any picture; the cropped
    picture has the mode of the picture, is a square whose side is the
    shorter side, and each of its pixels is the pixel of the picture at
    the same place shifted by the corner of the box, which lies inside the
    picture: nothing is padded. *)
Theorem crop_keeps_central_square (img : Image) (w h : Z) :
  size img = (w, h) -> 0 <= w -> 0 <= h ->
  let '(left_, top, right_, bottom) := crop_box w h in
  exists cropped,
    crop img (left_, top, right_, bottom) = inr cropped
    /\ mode cropped = mode img
    /\ size cropped = (Z.min w h, Z.min w h)
    /\ forall x y, 0 <= x < Z.min w h -> 0 <= y < Z.min w h ->
         0 <= x + left_ < w /\ 0 <= y + top < h
         /\ load cropped x y = load img (x + left_) (y + top).
Proof.
  intros Hsize Hw Hh.
  assert (Hbox : forall l t r b s, 0 <= l -> 0 <= t -> 0 <= s ->
            r = l + s -> b = t + s -> r <= w -> b <= h ->
            exists cropped,
              crop img (l, t, r, b) = inr cropped
              /\ mode cropped = mode img
              /\ size cropped = (s, s)
              /\ forall x y, 0 <= x < s -> 0 <= y < s ->
                   0 <= x + l < w /\ 0 <= y + t < h
                   /\ load cropped x y = load img (x + l) (y + t)).
  { intros l t r b s Hl Ht Hs -> -> Hlw Hth. unfold crop.
    destruct (_ || _)%bool eqn:E.
    { apply orb_true_iff in E as [E|E]; apply Z.ltb_lt in E; lia. }
    eexists. split; [reflexivity|]. split; [reflexivity|].
    split; [simpl; f_equal; lia|].
    intros x y Hx Hy. split; [lia|]. split; [lia|].
    cbn [load]. rewrite Hsize.
    replace ((0 <=? x + l) && (x + l <? w) && (0 <=? y + t) && (y + t <? h))%bool
      with true; [reflexivity|].
    symmetry. repeat (apply andb_true_iff; split);
      first [apply Z.leb_le | apply Z.ltb_lt]; lia. }
  destruct (Z_gt_le_dec w h) as [Hgt|Hle].
  - rewrite crop_box_landscape by exact Hgt.
    pose proof (Z.div_mod (w - h) 2 ltac:(lia)) as Hdm.
    pose proof (Z.mod_pos_bound (w - h) 2 ltac:(lia)) as Hmod.
    assert (0 <= (w - h) / 2) as Hnn by (apply Z.div_pos; lia).
    rewrite Z.min_r by lia. apply Hbox; lia.
  - rewrite crop_box_portrait by exact Hle.
    pose proof (Z.div_mod (h - w) 2 ltac:(lia)) as Hdm.
    pose proof (Z.mod_pos_bound (h - w) 2 ltac:(lia)) as Hmod.
    assert (0 <= (h - w) / 2) as Hnn by (apply Z.div_pos; lia).
    rewrite Z.min_l by lia. apply Hbox; lia.
Qed.

(** ** Names *)

Lemma append_cons (c : ascii) (a b : string) :
  String c a +:+ b = String c (a +:+ b).
Proof. reflexivity. Qed.

Lemma append_empty_r (a : string) : a +:+ "" = a.
Proof.
  induction a as [|c a IH]; [reflexivity|]. by rewrite append_cons, IH.
Qed.

Lemma substring_all (s : string) : String.substring 0 (String.length s) s = s.
Proof. induction s as [|c s IH]; [reflexivity|]. simpl. by rewrite IH. Qed.

Lemma substring_split (s : string) (i : nat) :
  (i <= String.length s)%nat ->
  String.substring 0 i s +:+ String.substring i (String.length s - i) s = s.
Proof.
  revert i. induction s as [|c s IH]; intros [|i] Hi; simpl in Hi.
  - reflexivity.
  - lia.
  - change (String.substring 0 0 (String c s)) with EmptyString.
    rewrite Nat.sub_0_r. change ("" +:+ ?x) with x. apply substring_all.
  - simpl. rewrite append_cons. f_equal. apply IH. lia.
Qed.

Lemma substring_append_r (a b : string) :
  String.substring (String.length a) (String.length b) (a +:+ b) = b.
Proof.
  induction a as [|c a IH]; [apply substring_all|].
  rewrite append_cons. simpl. exact IH.
Qed.

Lemma rfind_dot_bound (s : string) (i : nat) :
  rfind_dot s = Some i -> (i < String.length s)%nat.
Proof.
  revert i. induction s as [|c s IH]; intros i; simpl; [discriminate|].
  destruct (rfind_dot s) as [j|].
  - intros [= <-]. specialize (IH j eq_refl). lia.
  - destruct (Ascii.eqb c "."); [|discriminate]. intros [= <-]. lia.
Qed.

(** A name is its stem followed by its suffix. *)
Lemma stem_and_suffix_make_the_name (n : string) :
  stem_of_name n +:+ suffix_of_name n = n.
Proof.
  unfold stem_of_name, suffix_of_name.
  destruct (rfind_dot n) as [i|] eqn:E; [|apply append_empty_r].
  destruct (_ && _)%bool; [|apply append_empty_r].
  apply substring_split. apply rfind_dot_bound in E. lia.
Qed.

(** The name of every thumbnail matches the pattern counted at the end
    of a waypoint. *)
Lemma thumbnail_names_match_the_glob (entry_name : string) :
  matches_star_jpg (stem_of_name entry_name +:+ ".jpg") = true.
Proof.
  unfold matches_star_jpg. rewrite length_append.
  change (String.length ".jpg") with 4%nat.
  replace (String.length (stem_of_name entry_name) + 4 - 4)%nat
    with (String.length (stem_of_name entry_name)) by lia.
  rewrite (substring_append_r _ ".jpg").
  apply andb_true_iff. split; [apply Nat.leb_le; lia|reflexivity].
Qed.

(** X3. For an entry that is no directory and has an image extension,
    when the body of the loop finishes: the name of the entry is its stem
    followed by its suffix, and the thumbnail is named by the stem
    followed by [.jpg]; the one line printed shows both names; the name
    of the thumbnail matches the pattern [*.jpg] counted afterwards;
    nothing but the thumbnail is written; and the thumbnail holds one JPEG
    of quality 85 and of 160x160 pixels. *)
Theorem thumbnail_replaces_the_extension (T entry : path) fs out fs' :
  process_image lib T entry fs = Ok tt out fs' ->
  fs !! entry <> Some NDir ->
  lower (suffix entry) ∈ image_suffixes ->
  name entry = stem entry +:+ suffix entry
  /\ out = [ThumbLine (name entry) (stem entry +:+ ".jpg")]
  /\ matches_star_jpg (stem entry +:+ ".jpg") = true
  /\ (forall k, k <> joinpath T (stem entry +:+ ".jpg") -> fs' !! k = fs !! k)
  /\ exists thumb,
       fs' !! joinpath T (stem entry +:+ ".jpg")
       = Some (NFile (Written (JPEG JPEG_QUALITY) [thumb]))
       /\ size thumb = (THUMBNAIL_SIZE, THUMBNAIL_SIZE).
Proof.
  intros H Hnd Hsuf.
  apply process_image_Ok_iff in H
    as [([Hd|Hns] & _)|(_ & _ & c & img & thumb & H)];
    [contradiction|contradiction|].
  destruct H as (_ & _ & Hth & _ & _ & -> & ->).
  split; [symmetry; apply stem_and_suffix_make_the_name|].
  split; [reflexivity|].
  split; [apply thumbnail_names_match_the_glob|].
  split; [intros k Hk; by apply lookup_insert_ne|].
  exists thumb. split; [apply lookup_insert_eq|].
  exact (make_thumbnail_size lib _ _ _ Hth).
Qed.

(** ** What a waypoint prints and what its thumbs directory holds *)

Lemma StronglySorted_filter {A} (R : relation A) (P : A -> Prop)
    `{forall x, Decision (P x)} (l : list A) :
  StronglySorted R l -> StronglySorted R (filter P l).
Proof.
  induction 1 as [|x l Hl IH Hx]; [constructor|].
  rewrite filter_cons. destruct (decide (P x)); [|exact IH].
  constructor; [exact IH|]. rewrite Forall_forall in Hx |- *.
  intros y Hy. apply list_elem_of_filter in Hy as [_ Hy]. by apply Hx.
Qed.

Lemma selected_spec (fs : filesystem) (W : path) (n : string) :
  selected (is_dir_at fs (joinpath W n)) n = true
  <-> fs !! joinpath W n <> Some NDir
      /\ lower (suffix (joinpath W n)) ∈ image_suffixes.
Proof.
  unfold selected, is_dir_at, suffix. rewrite name_joinpath.
  rewrite andb_true_iff, negb_true_iff, bool_decide_eq_true.
  destruct (fs !! joinpath W n) as [[| |]|]; split; intros [? ?];
    try discriminate; try contradiction; auto.
Qed.

Lemma selected_not_thumbs (d : bool) (n : string) :
  selected d n = true -> n <> "thumbs".
Proof.
  intros H ->. unfold selected in H.
  apply andb_true_iff in H as [_ H]. apply bool_decide_eq_true in H.
  by apply thumbs_is_no_image.
Qed.

Section WaypointLog.

Context (W : path).

Local Abbreviation T := (joinpath W "thumbs").

Lemma thumbnailed_names_agree (s t : filesystem) (ns : list string) :
  (forall n, n ∈ ns -> s !! joinpath W n = t !! joinpath W n) ->
  thumbnailed_names s W ns = thumbnailed_names t W ns.
Proof.
  intros H. unfold thumbnailed_names.
  induction ns as [|n ns IH]; [reflexivity|].
  assert (Hn : is_dir_at s (joinpath W n) = is_dir_at t (joinpath W n)).
  { unfold is_dir_at. rewrite (H n); [reflexivity|left]. }
  assert (IH' := IH (fun m Hm => H m (list_elem_of_further _ _ _ Hm))).
  destruct (decide (selected (is_dir_at s (joinpath W n)) n = true))
    as [Hsel|Hsel].
  - rewrite !filter_cons_True; [by rewrite IH'|by rewrite <- Hn|exact Hsel].
  - rewrite !filter_cons_False; [exact IH'|by rewrite <- Hn|exact Hsel].
Qed.

(** The lines of the loop are those of the thumbnailed entries, in the
    order of the loop. *)
Lemma thumbs_loop_lines ns s o s' :
  for_each (joinpath W <$> ns) (process_image lib T) s = Ok tt o s' ->
  o = thumb_line <$> thumbnailed_names s W ns.
Proof.
  revert s o. induction ns as [|n ns IH]; intros s o H.
  - by inversion H.
  - rewrite fmap_cons in H.
    apply for_each_cons_inv in H as (o1 & s1 & o2 & H1 & H2 & ->).
    pose proof (process_image_effect lib W _ _ _ _ H1) as [Hf _].
    rewrite (IH _ _ H2).
    rewrite (thumbnailed_names_agree s1 s ns)
      by (intros m _; apply Hf, joinpath_ne_deeper).
    unfold thumbnailed_names at 2. rewrite filter_cons.
    apply process_image_Ok_iff in H1
      as [(Hskip & -> & _)|(Hnd & Hsuf & c & img & thumb & H1)].
    + destruct (decide _) as [Hsel|_]; [|reflexivity].
      apply selected_spec in Hsel as [? ?]. destruct Hskip; contradiction.
    + destruct H1 as (_ & _ & _ & _ & _ & -> & _).
      destruct (decide _) as [_|Hsel].
      * unfold thumb_line, thumb_name, stem.
        by rewrite !name_joinpath.
      * exfalso. apply Hsel. by apply selected_spec.
Qed.

(** Every entry the loop thumbnails is a regular file. *)
Lemma thumbs_loop_thumbnails_files ns s o s' n :
  for_each (joinpath W <$> ns) (process_image lib T) s = Ok tt o s' ->
  n ∈ thumbnailed_names s W ns ->
  exists c, s !! joinpath W n = Some (NFile c).
Proof.
  revert s o. induction ns as [|m ns IH]; intros s o H Hn;
    [by apply elem_of_nil in Hn|].
  rewrite fmap_cons in H.
  apply for_each_cons_inv in H as (o1 & s1 & o2 & H1 & H2 & ->).
  pose proof (process_image_effect lib W _ _ _ _ H1) as [Hf _].
  unfold thumbnailed_names in Hn. rewrite filter_cons in Hn.
  destruct (decide _) as [Hsel|_].
  - apply elem_of_cons in Hn as [->|Hn].
    + apply selected_spec in Hsel as [Hnd Hsuf].
      apply process_image_Ok_iff in H1
        as [([?|?] & _)|(_ & _ & c & _ & _ & Hc & _)];
        [contradiction..|eauto].
    + rewrite <- (Hf (joinpath W n)) by apply joinpath_ne_deeper.
      apply (IH _ _ H2).
      rewrite (thumbnailed_names_agree s1 s ns); [exact Hn|].
      intros k _. apply Hf, joinpath_ne_deeper.
  - rewrite <- (Hf (joinpath W n)) by apply joinpath_ne_deeper.
    apply (IH _ _ H2).
    rewrite (thumbnailed_names_agree s1 s ns); [exact Hn|].
    intros k _. apply Hf, joinpath_ne_deeper.
Qed.

(** The loop removes nothing. *)
Lemma thumbs_loop_grows ns s o s' k :
  for_each (joinpath W <$> ns) (process_image lib T) s = Ok tt o s' ->
  is_Some (s !! k) -> is_Some (s' !! k).
Proof.
  revert s o. induction ns as [|n ns IH]; intros s o H Hk.
  - by inversion H; subst.
  - rewrite fmap_cons in H.
    apply for_each_cons_inv in H as (o1 & s1 & o2 & H1 & H2 & ->).
    apply (IH _ _ H2).
    apply process_image_Ok_iff in H1
      as [(_ & _ & ->)|(_ & _ & c & img & thumb & H1)]; [exact Hk|].
    destruct H1 as (_ & _ & _ & _ & _ & _ & ->).
    rewrite lookup_insert. destruct (decide _); eauto.
Qed.

(** What the thumbs directory holds after the loop: what it held, and the
    thumbnails of the entries that were thumbnailed. *)
Lemma thumbs_loop_listing ns s o s' x :
  for_each (joinpath W <$> ns) (process_image lib T) s = Ok tt o s' ->
  is_Some (s' !! joinpath T x)
  <-> is_Some (s !! joinpath T x)
      \/ exists n, n ∈ thumbnailed_names s W ns /\ x = thumb_name n.
Proof.
  intros H. split.
  - intros Hx.
    destruct (decide (Exists (fun n => x = thumb_name n)
                        (thumbnailed_names s W ns))) as [He|Hne].
    + right. apply Exists_exists in He as (n & ? & ?). eauto.
    + left. rewrite <- (thumbs_loop_keeps lib W _ _ _ _ _ H); [exact Hx|].
      intros m Hm Hnd Hsuf E. apply Hne, Exists_exists. exists m. split.
      * apply list_elem_of_filter. split; [by apply selected_spec|exact Hm].
      * apply joinpath_inj in E. unfold stem in E.
        rewrite name_joinpath in E. by rewrite <- E.
  - intros [Hx|(n & Hn & ->)]; [by eapply thumbs_loop_grows|].
    destruct (thumbs_loop_thumbnails_files _ _ _ _ _ H Hn) as [c Hc].
    apply list_elem_of_filter in Hn as [Hsel Hn].
    apply selected_spec in Hsel as [_ Hsuf].
    destruct (thumbs_loop_some lib W _ _ _ _ n c H Hn Hc Hsuf)
      as (_ & _ & _ & thumb & _ & _ & _ & _ & _ & _ & Hl).
    unfold thumb_path, stem in Hl. rewrite name_joinpath in Hl.
    unfold thumb_name. rewrite Hl. eauto.
Qed.

End WaypointLog.

(** The thumbnailed entries of a waypoint, read off the tree before the
    thumbs directory is made. *)
Lemma thumbnailed_names_after_mkdir (W : path) (s s_m : filesystem) :
  (forall k, k <> joinpath W "thumbs" -> s_m !! k = s !! k) ->
  s_m !! joinpath W "thumbs" = Some NDir ->
  thumbnailed_names s_m W (merge_sort name_le (listdir s_m W))
  = thumbnailed_names s W (merge_sort name_le (listdir s W)).
Proof.
  intros Hfm HT.
  assert (Hsel : forall n,
            selected (is_dir_at s_m (joinpath W n)) n = true
            /\ n ∈ listdir s_m W
            <-> selected (is_dir_at s (joinpath W n)) n = true
                /\ n ∈ listdir s W).
  { intros n. rewrite !elem_of_listdir.
    destruct (decide (n = "thumbs")) as [->|Hne].
    - split; intros [Hs _]; by apply selected_not_thumbs in Hs.
    - unfold is_dir_at. rewrite Hfm; [reflexivity|].
      intros E%joinpath_inj. contradiction. }
  apply (StronglySorted_unique name_le).
  - apply StronglySorted_filter, StronglySorted_merge_sort; apply _.
  - apply StronglySorted_filter, StronglySorted_merge_sort; apply _.
  - apply NoDup_Permutation.
    + apply NoDup_filter. rewrite merge_sort_Permutation. apply NoDup_listdir.
    + apply NoDup_filter. rewrite merge_sort_Permutation. apply NoDup_listdir.
    + intros n. unfold thumbnailed_names.
      rewrite !list_elem_of_filter, !merge_sort_Permutation. apply Hsel.
Qed.

(** X4. What a waypoint directory prints: one line for each entry that
    is thumbnailed, in the sorted order of the names, then the line with
    the count of the files matching [*.jpg] in its thumbs directory
    afterwards.  The thumbnailed entries are exactly the regular files
    with an image extension that were in the waypoint before. *)
Theorem waypoint_log_is_sorted (W : path) fs out fs' :
  process_waypoint lib W fs = Ok tt out fs' ->
  fs !! W = Some NDir ->
  let images :=
    thumbnailed_names fs W (merge_sort name_le (listdir fs W)) in
  out = (thumb_line <$> images)
        ++ [ProcessedWaypoint (name W) (count_jpg fs' (joinpath W "thumbs"))]
  /\ StronglySorted name_le images
  /\ forall n, n ∈ images
       <-> lower (suffix_of_name n) ∈ image_suffixes
           /\ exists c, fs !! joinpath W n = Some (NFile c).
Proof.
  intros H Hd images.
  pose proof H as H0.
  apply process_waypoint_Ok_iff in H
    as [(Hnd & _)|(_ & s_m & files & o_l & Hmk & Hls & Hloop & ->)];
    [contradiction|].
  apply mkdir_thumbs_inv in Hmk as (_ & HT & Hfm).
  apply sorted_iterdir_inv in Hls as (_ & _ & _ & ->).
  pose proof (thumbs_loop_lines W _ _ _ _ Hloop) as Hlines.
  rewrite (thumbnailed_names_after_mkdir W fs s_m Hfm HT) in Hlines.
  split; [by rewrite Hlines|].
  split; [apply StronglySorted_filter, StronglySorted_merge_sort; apply _|].
  intros n. split.
  - intros Hn. unfold images in Hn.
    rewrite <- (thumbnailed_names_after_mkdir W fs s_m Hfm HT) in Hn.
    destruct (thumbs_loop_thumbnails_files W _ _ _ _ _ Hloop Hn) as [c Hc].
    apply list_elem_of_filter in Hn as [Hsel _].
    pose proof (selected_not_thumbs _ _ Hsel) as Hne.
    apply selected_spec in Hsel as [_ Hsuf].
    unfold suffix in Hsuf. rewrite name_joinpath in Hsuf.
    split; [exact Hsuf|]. exists c. rewrite <- Hfm; [exact Hc|].
    intros E%joinpath_inj. contradiction.
  - intros (Hsuf & c & Hc). apply list_elem_of_filter. split.
    + apply selected_spec. rewrite Hc. split; [discriminate|].
      unfold suffix. by rewrite name_joinpath.
    + rewrite merge_sort_Permutation. apply elem_of_listdir.
      rewrite Hc. eauto.
Qed.

Lemma filter_all {A} (P : A -> Prop) `{forall x, Decision (P x)} (l : list A) :
  Forall P l -> filter P l = l.
Proof.
  induction 1 as [|x l Hx Hl IH]; [reflexivity|].
  by rewrite filter_cons_True, IH.
Qed.

(** X5. After a waypoint directory is processed its thumbs directory
    exists and holds what it held before and the thumbnails of the
    thumbnailed entries, nothing else; the count of [*.jpg] files never
    goes down; and starting from an empty or missing thumbs directory the
    count is the number of different thumbnail names, so entries sharing a
    stem count once. *)
Theorem waypoint_thumbs_listing (W : path) fs out fs' :
  process_waypoint lib W fs = Ok tt out fs' ->
  fs !! W = Some NDir ->
  let thumbs_dir := joinpath W "thumbs" in
  let images :=
    thumbnailed_names fs W (merge_sort name_le (listdir fs W)) in
  fs' !! thumbs_dir = Some NDir
  /\ (forall x, x ∈ listdir fs' thumbs_dir
               <-> x ∈ listdir fs thumbs_dir
                   \/ exists n, n ∈ images /\ x = thumb_name n)
  /\ (count_jpg fs thumbs_dir <= count_jpg fs' thumbs_dir)%nat
  /\ (listdir fs thumbs_dir = [] ->
      count_jpg fs' thumbs_dir
      = length (remove_dups (thumb_name <$> images))).
Proof.
  intros H Hd thumbs_dir images. subst thumbs_dir.
  apply process_waypoint_Ok_iff in H
    as [(Hnd & _)|(_ & s_m & files & o_l & Hmk & Hls & Hloop & _)];
    [contradiction|].
  apply mkdir_thumbs_inv in Hmk as (_ & HT & Hfm).
  apply sorted_iterdir_inv in Hls as (_ & _ & _ & ->).
  assert (HT' : fs' !! joinpath W "thumbs" = Some NDir).
  { rewrite (thumbs_loop_frame lib W _ _ _ _ _ Hloop); [exact HT|].
    intros x. apply not_eq_sym, joinpath_ne_self. }
  assert (Hlist : forall x, x ∈ listdir fs' (joinpath W "thumbs")
               <-> x ∈ listdir fs (joinpath W "thumbs")
                   \/ exists n, n ∈ images /\ x = thumb_name n).
  { intros x. rewrite !elem_of_listdir.
    rewrite (thumbs_loop_listing W _ _ _ _ x Hloop).
    rewrite (thumbnailed_names_after_mkdir W fs s_m Hfm HT).
    rewrite Hfm; [reflexivity|apply joinpath_ne_self]. }
  split; [exact HT'|]. split; [exact Hlist|]. split.
  - unfold count_jpg at 2. rewrite HT'. unfold count_jpg.
    destruct (fs !! joinpath W "thumbs") as [[| |]|]; try lia.
    apply submseteq_length, NoDup_submseteq.
    + apply NoDup_filter, NoDup_listdir.
    + intros x. rewrite !list_elem_of_filter. intros [? ?].
      split; [done|]. apply Hlist. by left.
  - intros Hempty. unfold count_jpg. rewrite HT'.
    rewrite filter_all.
    + apply Permutation_length, NoDup_Permutation.
      * apply NoDup_listdir.
      * apply NoDup_remove_dups.
      * intros x. rewrite elem_of_remove_dups, list_elem_of_fmap, Hlist.
        rewrite Hempty. split.
        -- intros [Hx|(n & ? & ->)]; [by apply elem_of_nil in Hx|eauto].
        -- intros (n & -> & ?). eauto.
    + apply Forall_forall. intros x Hx. apply Hlist in Hx.
      rewrite Hempty in Hx. destruct Hx as [Hx|(n & _ & ->)].
      * by apply elem_of_nil in Hx.
      * apply thumbnail_names_match_the_glob.
Qed.

(** ** What a run changes *)

Lemma effect_refl D s k : effect D s s k.
Proof. by left. Qed.

Lemma effect_trans D s1 s2 s3 k :
  effect D s1 s2 k -> effect D s2 s3 k -> effect D s1 s3 k.
Proof.
  unfold effect, changed_at.
  intros [E1|(T1 & HD1 & C1)] [E2|(T2 & HD2 & C2)].
  - left. congruence.
  - right. exists T2. split; [exact HD2|]. rewrite <- E1.
    destruct C2 as [(? & ? & ?)|(? & ?)]; [left|right]; auto.
  - right. exists T1. split; [exact HD1|]. rewrite E2.
    destruct C1 as [(? & ? & ?)|(? & ?)]; [left|right]; auto.
  - right. destruct C1 as [(-> & Hn & Hd)|(Hw & n & thumb & -> & Hf & Hs)].
    + exfalso. destruct C2 as [(_ & Hn2 & _)|(Hw2 & _)].
      * congruence.
      * rewrite Hd in Hw2. exact Hw2.
    + destruct C2 as [(_ & Hn2 & _)|(Hw2 & n2 & thumb2 & E & Hf2 & Hs2)].
      * congruence.
      * exists T2. split; [exact HD2|]. right. split; [exact Hw|].
        exists n2, thumb2. auto.
Qed.

Lemma effect_mono (D D' : path -> Prop) s s' k :
  (forall T, D T -> D' T) -> effect D s s' k -> effect D' s s' k.
Proof. intros H [?|(T & ? & ?)]; [by left|right; eauto]. Qed.

Lemma for_each_effect {A} (body : A -> M unit) (D : path -> Prop) xs s o s' :
  (forall x s o s' k, x ∈ xs -> body x s = Ok tt o s' -> effect D s s' k) ->
  for_each xs body s = Ok tt o s' -> forall k, effect D s s' k.
Proof.
  revert s o. induction xs as [|x xs IH]; intros s o Hbody H k.
  - inversion H; subst. apply effect_refl.
  - apply for_each_cons_inv in H as (o1 & s1 & o2 & H1 & H2 & ->).
    eapply effect_trans.
    + eapply Hbody; [left|exact H1].
    + eapply IH; [|exact H2]. intros y t ot t' k' Hy. apply Hbody. by right.
Qed.

Lemma process_image_changes (T entry : path) s o s' k :
  process_image lib T entry s = Ok tt o s' -> effect (eq T) s s' k.
Proof.
  intros H. apply process_image_Ok_iff in H
    as [(_ & _ & ->)|(_ & _ & c & img & thumb & H)]; [by left|].
  destruct H as (_ & _ & Hth & _ & Hcs & _ & ->).
  destruct (decide (thumb_path T entry = k)) as [<-|Hne];
    [|left; by rewrite lookup_insert_ne].
  right. exists T. split; [reflexivity|]. right. split.
  - unfold can_save in Hcs. unfold writable.
    by destruct (s !! thumb_path T entry) as [[| |]|].
  - exists (name entry), thumb. rewrite lookup_insert_eq.
    split; [reflexivity|]. split; [reflexivity|].
    by eapply make_thumbnail_size.
Qed.

Lemma process_waypoint_changes (W : path) s o s' k :
  process_waypoint lib W s = Ok tt o s' ->
  effect (eq (joinpath W "thumbs")) s s' k.
Proof.
  intros H. apply process_waypoint_Ok_iff in H
    as [(_ & _ & ->)|(_ & s_m & files & o_l & Hmk & Hls & Hloop & _)];
    [by left|].
  apply sorted_iterdir_inv in Hls as (_ & _ & _ & ->).
  eapply effect_trans.
  - unfold mkdir_exist_ok in Hmk.
    destruct (s !! joinpath W "thumbs") as [[| |]|] eqn:E; try discriminate.
    + inversion Hmk; subst. by left.
    + destruct (s !! removelast (joinpath W "thumbs")) as [[| |]|];
        try discriminate.
      inversion Hmk; subst.
      destruct (decide (joinpath W "thumbs" = k)) as [<-|Hne];
        [|left; by rewrite lookup_insert_ne].
      right. eexists. split; [reflexivity|]. left.
      rewrite lookup_insert_eq. auto.
  - eapply for_each_effect; [|exact Hloop].
    intros x t ot t' k' _. apply process_image_changes.
Qed.

Lemma process_trail_changes (Tr : path) s o s' k :
  process_trail lib Tr s = Ok tt o s' ->
  effect (fun T => exists b,
            T = joinpath (joinpath (joinpath Tr "photos") b) "thumbs")
    s s' k.
Proof.
  intros H. apply process_trail_Ok_iff in H
    as [(_ & _ & ->)|(files & Hls & H)]; [by left|].
  apply sorted_iterdir_inv in Hls as (_ & _ & _ & ->).
  eapply for_each_effect; [|exact H].
  intros x t ot t' k' (b & -> & _)%list_elem_of_fmap Hx.
  eapply effect_mono; [|by eapply process_waypoint_changes].
  intros T <-. eauto.
Qed.

Lemma main_changes s o s' k :
  main lib s = Ok tt o s' ->
  effect (fun T => exists a b, T = thumbs_of a b) s s' k.
Proof.
  intros H. apply main_Ok_iff in H
    as [(_ & _ & ->)|(files & o1 & Hls & H & _)]; [by left|].
  apply sorted_iterdir_inv in Hls as (_ & _ & _ & ->).
  eapply for_each_effect; [|exact H].
  intros x t ot t' k' (a & -> & _)%list_elem_of_fmap Hx.
  apply visit_trail_Ok_iff in Hx as [(_ & _ & ->)|(_ & o2 & Hx & _)];
    [by left|].
  eapply effect_mono; [|by eapply process_trail_changes].
  intros T [b ->]. by exists a, b.
Qed.

(** X6. A run of the thumbnail generator that finishes changes a path
    only by making a directory [trails/<a>/photos/<b>/thumbs] where nothing
    was, or by writing a 160x160 JPEG of quality 85 named as a thumbnail
    in such a directory, over nothing or over a regular file.  So paths
    outside the thumbs directories are untouched, nothing is deleted,
    directories stay directories, and a source file keeps its content
    unless it lies in a thumbs directory under the name of a
    thumbnail. *)
Theorem main_only_writes_thumbnails (fs : filesystem) out fs' :
  main lib fs = Ok tt out fs' ->
  (forall k, effect (fun T => exists a b, T = thumbs_of a b) fs fs' k)
  /\ (forall k, (forall a b, ~ thumbs_of a b `prefix_of` k) ->
                fs' !! k = fs !! k)
  /\ (forall k, is_Some (fs !! k) -> is_Some (fs' !! k))
  /\ (forall k, fs !! k = Some NDir -> fs' !! k = Some NDir)
  /\ (forall k d, fs !! k = Some (NFile (Source d)) ->
                  fs' !! k = Some (NFile (Source d))
                  \/ exists a b n, k = joinpath (thumbs_of a b) (thumb_name n)).
Proof.
  intros H. pose proof (fun k => main_changes _ _ _ k H) as Heff.
  split; [exact Heff|]. split; [|split; [|split]].
  - intros k Hk. destruct (Heff k) as [?|(T & (a & b & ->) & C)]; [done|].
    exfalso. apply (Hk a b).
    destruct C as [(-> & _)|(_ & n & thumb & -> & _)];
      [reflexivity|by exists [thumb_name n]].
  - intros k Hk. destruct (Heff k) as [->|(T & _ & C)]; [done|].
    destruct C as [(_ & _ & ->)|(_ & n & thumb & _ & -> & _)]; eauto.
  - intros k Hk. destruct (Heff k) as [->|(T & _ & C)]; [done|].
    destruct C as [(_ & Hn & _)|(Hw & _)].
    + congruence.
    + rewrite Hk in Hw. destruct Hw.
  - intros k d Hk.
    destruct (Heff k) as [E|(T & (a & b & ->) & C)]; [left; congruence|].
    destruct C as [(_ & Hn & _)|(_ & n & thumb & -> & _)]; [congruence|].
    right. eauto.
Qed.

(** X7. When [trails] is a directory that holds no directory the run
    prints the closing line alone and leaves the tree as it is. *)
Theorem main_without_trails_prints_done (fs : filesystem) :
  fs !! trails_dir = Some NDir ->
  (forall n, fs !! joinpath trails_dir n <> Some NDir) ->
  main lib fs = Ok tt [Done] fs.
Proof.
  intros Hd Hnone. apply main_Ok_iff. right.
  exists (joinpath trails_dir <$> merge_sort name_le (listdir fs trails_dir)), [].
  split; [unfold sorted_iterdir; by rewrite Hd|]. split; [|reflexivity].
  induction (merge_sort name_le (listdir fs trails_dir)) as [|n ns IH];
    [reflexivity|].
  rewrite fmap_cons, for_each_skip; [exact IH|].
  apply visit_trail_Ok_iff. left. auto.
Qed.

(** ** Conditions that end the run *)

Section TrailRaises.

Context (a : string) (J : filesystem -> Prop).

Local Abbreviation Tr := (joinpath trails_dir a).

Hypothesis J_dir : forall s, J s -> s !! Tr = Some NDir.
Hypothesis J_local : forall s s',
  (forall k, Tr `prefix_of` k -> s' !! k = s !! k) -> J s -> J s'.
Hypothesis J_raises : forall s o s', J s -> visit_trail lib Tr s <> Ok tt o s'.

Lemma main_raises_in_trail s :
  s !! trails_dir = Some NDir -> J s -> exists e, main lib s = Raise e.
Proof.
  intros Hroot HJ.
  destruct (result_cases (main lib s)) as [([] & o & s' & H)|?]; [|done].
  exfalso. apply main_Ok_iff in H
    as [(Hnone & _)|(files & o1 & Hls & H & _)]; [congruence|].
  apply sorted_iterdir_inv in Hls as (_ & _ & _ & ->).
  destruct (for_each_ok_each _ J _ _ _ _ Tr H HJ)
    as (s_x & o_x & s_x' & HJx & Hx).
  - intros y t ot t' (m & -> & _)%list_elem_of_fmap HJt Hy.
    destruct (decide (m = a)) as [->|Hne]; [by apply J_raises in Hy|].
    apply (J_local t); [|exact HJt].
    intros k Hk. apply (visit_trail_frame _ _ _ _ _ _ Hy). intros Hb.
    apply Hne. symmetry.
    by eapply (child_not_below_sibling trails_dir a m).
  - apply list_elem_of_fmap. exists a. split; [reflexivity|].
    rewrite merge_sort_Permutation. apply elem_of_listdir.
    rewrite (J_dir _ HJ). eauto.
  - by apply J_raises in Hx.
Qed.

End TrailRaises.

Section WaypointRaises.

Context (a b : string) (I : filesystem -> Prop).

Local Abbreviation Tr := (joinpath trails_dir a).
Local Abbreviation photos := (joinpath Tr "photos").
Local Abbreviation W := (joinpath photos b).

Hypothesis I_dir : forall s, I s -> s !! W = Some NDir.
Hypothesis I_local : forall s s',
  (forall k, W `prefix_of` k -> s' !! k = s !! k) -> I s -> I s'.
Hypothesis I_raises : forall s o s',
  I s -> process_waypoint lib W s <> Ok tt o s'.

Lemma process_trail_raises_in_waypoint s o s' :
  s !! photos = Some NDir -> I s -> process_trail lib Tr s <> Ok tt o s'.
Proof.
  intros Hp HI H. apply process_trail_Ok_iff in H
    as [(Hnone & _)|(files & Hls & H)]; [congruence|].
  apply sorted_iterdir_inv in Hls as (_ & _ & _ & ->).
  destruct (for_each_ok_each _ I _ _ _ _ W H HI)
    as (s_x & o_x & s_x' & HIx & Hx).
  - intros y t ot t' (m & -> & _)%list_elem_of_fmap HIt Hy.
    destruct (decide (m = b)) as [->|Hne]; [by apply I_raises in Hy|].
    apply (I_local t); [|exact HIt].
    intros k Hk. apply (process_waypoint_frame _ _ _ _ _ _ Hy). intros Hb.
    apply Hne. symmetry. by eapply (child_not_below_sibling photos b m).
  - apply list_elem_of_fmap. exists b. split; [reflexivity|].
    rewrite merge_sort_Permutation. apply elem_of_listdir.
    rewrite (I_dir _ HI). eauto.
  - by apply I_raises in Hx.
Qed.

Lemma main_raises_in_waypoint s :
  s !! trails_dir = Some NDir -> s !! Tr = Some NDir ->
  s !! photos = Some NDir -> I s ->
  exists e, main lib s = Raise e.
Proof.
  intros Hroot Ht Hp HI.
  apply (main_raises_in_trail a
           (fun t => t !! Tr = Some NDir /\ t !! photos = Some NDir /\ I t));
    [| | |exact Hroot|by auto].
  - by intros t (? & _).
  - intros t t' Hk (Ht1 & Ht2 & Ht3).
    rewrite !Hk; [|by exists ["photos"]|reflexivity].
    split; [exact Ht1|]. split; [exact Ht2|].
    apply (I_local t); [|exact Ht3].
    intros k [r ->]. apply Hk. exists ("photos" :: b :: r).
    unfold joinpath. by rewrite <- !app_assoc.
  - intros t o t' (Ht1 & Ht2 & Ht3) H.
    apply visit_trail_Ok_iff in H as [(Hnd & _)|(_ & o1 & H & _)];
      [contradiction|].
    by apply process_trail_raises_in_waypoint in H.
Qed.

End WaypointRaises.

(** X8. When [photos] of a trail directory exists and is no directory,
    [process_trail] raises [NotADirectoryError] on that trail, and the
    run of the generator ends with an exception. *)
Theorem photos_not_a_directory_ends_the_run (fs : filesystem) (a : string) :
  fs !! trails_dir = Some NDir ->
  fs !! joinpath trails_dir a = Some NDir ->
  fs !! joinpath (joinpath trails_dir a) "photos" = Some NSpecial
  \/ (exists c, fs !! joinpath (joinpath trails_dir a) "photos"
                = Some (NFile c)) ->
  process_trail lib (joinpath trails_dir a) fs = Raise NotADirectoryError
  /\ exists e, main lib fs = Raise e.
Proof.
  intros Hroot Ht Hp.
  set (photos := joinpath (joinpath trails_dir a) "photos") in *.
  assert (Hnd : exists v, fs !! photos = Some v /\ v <> NDir).
  { destruct Hp as [->|[c ->]]; eexists; (split; [reflexivity|discriminate]). }
  assert (Hraise : forall s, (exists v, s !! photos = Some v /\ v <> NDir) ->
            process_trail lib (joinpath trails_dir a) s
            = Raise NotADirectoryError).
  { intros s (v & Hv & Hne). unfold process_trail. fold photos.
    erewrite bind_ok by reflexivity.
    rewrite bool_decide_eq_true_2 by (rewrite Hv; eauto). cbn [negb].
    rewrite match_result_id. apply bind_raise. unfold sorted_iterdir.
    rewrite Hv. by destruct v. }
  split; [by apply Hraise|].
  apply (main_raises_in_trail a
           (fun t => t !! joinpath trails_dir a = Some NDir
                     /\ exists v, t !! photos = Some v /\ v <> NDir));
    [| | |exact Hroot|by auto].
  - by intros t (? & _).
  - intros t t' Hk (Ht1 & Ht2). rewrite !Hk; [auto|by exists ["photos"]|reflexivity].
  - intros t o t' (Ht1 & Ht2) H.
    apply visit_trail_Ok_iff in H as [(? & _)|(_ & o1 & H & _)];
      [contradiction|].
    rewrite (Hraise t Ht2) in H. discriminate.
Qed.

(** ** Pictures that can be thumbnailed *)

Lemma convert_if_necessary_mode (img : Image) :
  mode (convert_if_necessary lib img)
  = if bool_decide (mode img ∈ [M_RGBA; M_P]) then M_RGB else mode img.
Proof. unfold convert_if_necessary. by destruct (bool_decide _). Qed.

Lemma thumbnailable_modes_spec (img : Image) :
  encoder_accepts (JPEG JPEG_QUALITY) (mode (convert_if_necessary lib img))
  = true
  <-> mode img ∈ thumbnailable_modes.
Proof.
  rewrite convert_if_necessary_mode.
  assert (H : forall m,
            encoder_accepts (JPEG JPEG_QUALITY)
              (if bool_decide (m ∈ [M_RGBA; M_P]) then M_RGB else m)
            = bool_decide (m ∈ thumbnailable_modes)).
  { intros m. destruct m; vm_compute; reflexivity. }
  rewrite H. apply bool_decide_eq_true.
Qed.

(** X9. For a decodable picture and an output path that can be written,
    [create_square_thumbnail] finishes exactly when the mode of the
    picture is one of 1, L, RGB, RGBX, CMYK, YCbCr, RGBA and P: the modes
    the JPEG encoder writes and the two that are converted first. *)
Theorem create_square_thumbnail_succeeds_iff
    (fs : filesystem) (input_path output_path : path) c img :
  fs !! input_path = Some (NFile c) -> decode lib c = Some img ->
  0 <= fst (size img) -> 0 <= snd (size img) ->
  can_save fs output_path ->
  (exists out fs',
     create_square_thumbnail lib input_path output_path THUMBNAIL_SIZE fs
     = Ok tt out fs')
  <-> mode img ∈ thumbnailable_modes.
Proof.
  intros Hin Hdec Hw Hh Hsave. rewrite <- thumbnailable_modes_spec. split.
  - intros (out & fs' & H). apply create_square_thumbnail_Ok_iff in H
      as (c' & img' & thumb & Hin' & Hdec' & Hth & Hacc & _).
    assert (img' = img) as -> by congruence.
    by rewrite <- (make_thumbnail_mode _ _ _ _ Hth).
  - intros Hacc.
    destruct (make_thumbnail_ok lib img THUMBNAIL_SIZE Hw Hh) as [thumb Hth].
    eexists _, _. apply create_square_thumbnail_Ok_iff.
    exists c, img, thumb. repeat split; auto.
    by rewrite (make_thumbnail_mode _ _ _ _ Hth).
Qed.

Lemma process_image_thumbnailable (T entry : path) s o s' v :
  process_image lib T entry s = Ok tt o s' ->
  s !! entry = Some v -> v <> NDir ->
  lower (suffix entry) ∈ image_suffixes ->
  thumbnailable lib v.
Proof.
  intros H Hv Hnd Hsuf. apply process_image_Ok_iff in H
    as [([Hd|Hns] & _)|(_ & _ & c & img & thumb & H)];
    [congruence|contradiction|].
  destruct H as (Hc & Hdec & Hth & Hacc & _).
  exists c, img, thumb. split; [congruence|]. split; [exact Hdec|].
  split; [exact Hth|]. apply thumbnailable_modes_spec.
  by rewrite <- (make_thumbnail_mode _ _ _ _ Hth).
Qed.

Lemma process_waypoint_thumbnailable (W : path) (n : string) s o s' v :
  process_waypoint lib W s = Ok tt o s' ->
  s !! W = Some NDir -> s !! joinpath W n = Some v -> v <> NDir ->
  lower (suffix_of_name n) ∈ image_suffixes ->
  thumbnailable lib v.
Proof.
  intros H Hd Hv Hnd Hsuf. apply process_waypoint_Ok_iff in H
    as [(? & _)|(_ & s_m & files & o_l & Hmk & Hls & Hloop & _)];
    [contradiction|].
  apply mkdir_thumbs_inv in Hmk as (_ & _ & Hfm).
  apply sorted_iterdir_inv in Hls as (_ & _ & _ & ->).
  assert (Hv' : s_m !! joinpath W n = Some v).
  { rewrite Hfm; [exact Hv|]. intros E%joinpath_inj. subst n.
    by apply thumbs_is_no_image. }
  destruct (for_each_ok_each _
              (fun t => t !! joinpath W n = Some v) _ _ _ _
              (joinpath W n) Hloop Hv') as (t & ot & t' & Ht & Hx).
  - intros y t ot t' (m & -> & _)%list_elem_of_fmap Ht Hy.
    destruct (process_image_effect lib W _ _ _ _ Hy) as [Hf _].
    rewrite Hf; [exact Ht|apply joinpath_ne_deeper].
  - apply list_elem_of_fmap. exists n. split; [reflexivity|].
    rewrite merge_sort_Permutation. apply elem_of_listdir. rewrite Hv'. eauto.
  - eapply process_image_thumbnailable; [exact Hx|exact Ht|exact Hnd|].
    unfold suffix. by rewrite name_joinpath.
Qed.

(** X10. When [thumbs] of a waypoint directory exists and is no
    directory, processing the waypoint raises [FileExistsError], and the
    run of the generator ends with an exception. *)
Theorem thumbs_not_a_directory_ends_the_run (fs : filesystem) (a b : string) :
  fs !! trails_dir = Some NDir ->
  fs !! joinpath trails_dir a = Some NDir ->
  fs !! joinpath (joinpath trails_dir a) "photos" = Some NDir ->
  fs !! joinpath (joinpath (joinpath trails_dir a) "photos") b = Some NDir ->
  fs !! thumbs_of a b = Some NSpecial
  \/ (exists c, fs !! thumbs_of a b = Some (NFile c)) ->
  process_waypoint lib
    (joinpath (joinpath (joinpath trails_dir a) "photos") b) fs
  = Raise FileExistsError
  /\ exists e, main lib fs = Raise e.
Proof.
  intros Hroot Ht Hp Hw Hth.
  set (W := joinpath (joinpath (joinpath trails_dir a) "photos") b) in *.
  change (thumbs_of a b) with (joinpath W "thumbs") in Hth.
  assert (Hraise : forall s, s !! W = Some NDir ->
            (exists v, s !! joinpath W "thumbs" = Some v /\ v <> NDir) ->
            process_waypoint lib W s = Raise FileExistsError).
  { intros s Hd (v & Hv & Hne). unfold process_waypoint.
    rewrite (bind_ok _ _ _ _ _ _ (is_dir_true _ _ Hd)). cbn [negb].
    rewrite match_result_id. apply bind_raise. unfold mkdir_exist_ok.
    rewrite Hv. by destruct v. }
  assert (Hnd : exists v, fs !! joinpath W "thumbs" = Some v /\ v <> NDir).
  { destruct Hth as [->|[c ->]]; eexists; (split; [reflexivity|discriminate]). }
  split; [by apply Hraise|].
  apply (main_raises_in_waypoint a b
           (fun t => t !! W = Some NDir
                     /\ exists v, t !! joinpath W "thumbs" = Some v
                                  /\ v <> NDir)); auto.
  - by intros t [? _].
  - intros t t' Hk [? ?]. rewrite !Hk; [auto|by exists ["thumbs"]|reflexivity].
  - intros t o t' [Ht1 Ht2] Hrun. specialize (Hraise t Ht1 Ht2).
    unfold W in Hraise. congruence.
Qed.

End ThumbnailRuns.

(** ** What a run prints *)

Section RunLog.
Context (lib : Imaging).

Lemma prefix_of_joinpath (p : path) (n : string) : p `prefix_of` joinpath p n.
Proof. by exists [n]. Qed.

Lemma prefix_of_joinpath_trans (p k : path) (n : string) :
  joinpath p n `prefix_of` k -> p `prefix_of` k.
Proof.
  intros [r ->]. exists (n :: r). unfold joinpath. by rewrite <- app_assoc.
Qed.

Lemma same_below_child p n s t :
  same_below p s t -> same_below (joinpath p n) s t.
Proof. intros H k Hk. apply H. by eapply prefix_of_joinpath_trans. Qed.

Lemma same_below_sorted_listdir p s t :
  same_below p s t ->
  merge_sort name_le (listdir s p) = merge_sort name_le (listdir t p).
Proof.
  intros H. apply sorted_listdir_eq. intros n.
  rewrite (H (joinpath p n)); [reflexivity|apply prefix_of_joinpath].
Qed.

Lemma same_below_subdirs p s t :
  same_below p s t -> subdirs s p = subdirs t p.
Proof.
  intros H. unfold subdirs. rewrite (same_below_sorted_listdir p s t H).
  apply list_filter_iff. intros n. unfold is_dir_at.
  rewrite (H (joinpath p n)); [reflexivity|apply prefix_of_joinpath].
Qed.

Lemma same_below_count_jpg p s t :
  same_below p s t -> count_jpg s p = count_jpg t p.
Proof.
  intros H. unfold count_jpg. rewrite (H p) by reflexivity.
  destruct (t !! p) as [[| |]|]; try reflexivity.
  apply Permutation_length. apply filter_Permutation.
  apply listdir_Permutation. intros n.
  rewrite (H (joinpath p n)); [reflexivity|apply prefix_of_joinpath].
Qed.

Lemma same_below_waypoint_log W s s' t t' :
  same_below W s t -> same_below W s' t' ->
  waypoint_log s s' W = waypoint_log t t' W.
Proof.
  intros H H'. unfold waypoint_log.
  rewrite (same_below_sorted_listdir W s t H).
  rewrite (thumbnailed_names_agree W s t).
  2:{ intros n _. apply H, prefix_of_joinpath. }
  rewrite (same_below_count_jpg (joinpath W "thumbs") s' t'); [reflexivity|].
  by apply same_below_child.
Qed.

Lemma same_below_trail_log Tr s s' t t' :
  same_below Tr s t -> same_below Tr s' t' ->
  trail_log s s' Tr = trail_log t t' Tr.
Proof.
  intros H H'. unfold trail_log.
  rewrite (H (joinpath Tr "photos")) by apply prefix_of_joinpath.
  destruct (t !! joinpath Tr "photos"); [|reflexivity].
  rewrite (same_below_subdirs (joinpath Tr "photos") s t)
    by (by apply same_below_child).
  f_equal. apply list_fmap_ext. intros i b _.
  apply same_below_waypoint_log; by do 2 apply same_below_child.
Qed.

Lemma Forall2_impl_elem {A B} (P Q : A -> B -> Prop) l k :
  Forall2 P l k -> (forall x y, x ∈ l -> P x y -> Q x y) -> Forall2 Q l k.
Proof.
  induction 1 as [|x y l k Hxy Hlk IH]; intros HPQ; constructor.
  - apply HPQ; [left|exact Hxy].
  - apply IH. intros x' y' Hx'. apply HPQ. by right.
Qed.

(** *** A loop over the entries of a directory, entry by entry *)

Section ChildrenRuns.

Context (body : path -> M unit).
Hypothesis body_frame : forall x s o s' k,
  body x s = Ok tt o s' -> ~ strictly_below x k -> s' !! k = s !! k.

(** Each entry is handled on a tree that is, below the entry, the one the
    loop started on, and leaves there what the loop leaves. *)
Lemma for_each_children_runs parent ns s o s' :
  NoDup ns ->
  for_each (joinpath parent <$> ns) body s = Ok tt o s' ->
  exists os,
    o = concat os
    /\ Forall2 (fun n o_n =>
                  exists s_n s_n',
                    body (joinpath parent n) s_n = Ok tt o_n s_n'
                    /\ same_below (joinpath parent n) s_n s
                    /\ same_below (joinpath parent n) s_n' s') ns os.
Proof.
  intros Hnd. revert s o.
  induction Hnd as [|n ns Hn Hnd IH]; intros s o H.
  - cbn in H. injection H as <- <-. exists []. split; [reflexivity|constructor].
  - rewrite fmap_cons in H.
    apply for_each_cons_inv in H as (o1 & s1 & o2 & H1 & H2 & ->).
    destruct (IH _ _ H2) as (os & -> & Hos).
    exists (o1 :: os). split; [reflexivity|]. constructor.
    + exists s, s1. split; [exact H1|]. split; [by intros k _|].
      intros k Hk. symmetry.
      apply (for_each_frame body body_frame _ _ _ _ _ H2).
      intros x Hx Hb. apply list_elem_of_fmap in Hx as (m & -> & Hm).
      apply (child_not_below_sibling _ _ _ _ Hk) in Hb. congruence.
    + eapply Forall2_impl_elem; [exact Hos|].
      intros m o_m Hin (s_m & s_m' & Hm & Hs & Hs').
      exists s_m, s_m'. split; [exact Hm|]. split; [|exact Hs'].
      intros k Hk. rewrite (Hs k Hk).
      apply (body_frame _ _ _ _ _ H1). intros Hb.
      apply (child_not_below_sibling _ _ _ _ Hk) in Hb. congruence.
Qed.

End ChildrenRuns.

Lemma concat_of_subdirs (d : string -> bool) (f : string -> list line)
    (ns : list string) (os : list (list line)) :
  Forall2 (fun n o_n => o_n = if d n then f n else []) ns os ->
  concat os = concat (f <$> filter (fun n => d n = true) ns).
Proof.
  induction 1 as [|n o_n ns os Hn Hns IH]; [reflexivity|].
  cbn [concat]. rewrite IH, Hn. destruct (d n) eqn:Hd.
  - rewrite filter_cons_True by exact Hd. reflexivity.
  - rewrite filter_cons_False by congruence. reflexivity.
Qed.

Lemma NoDup_sorted_listdir (s : filesystem) (p : path) :
  NoDup (merge_sort name_le (listdir s p)).
Proof. rewrite merge_sort_Permutation. apply NoDup_listdir. Qed.

Lemma process_waypoint_log W s o s' :
  process_waypoint lib W s = Ok tt o s' ->
  o = if is_dir_at s W then waypoint_log s s' W else [].
Proof.
  intros H. unfold is_dir_at.
  apply process_waypoint_Ok_iff in H
    as [(Hnd & -> & _)|(Hd & s_m & files & o_l & Hmk & Hls & Hloop & ->)].
  - destruct (s !! W) as [[| |]|]; congruence.
  - rewrite Hd.
    apply mkdir_thumbs_inv in Hmk as (_ & HT & Hfm).
    apply sorted_iterdir_inv in Hls as (_ & _ & _ & ->).
    pose proof (thumbs_loop_lines lib W _ _ _ _ Hloop) as Hlines.
    rewrite (thumbnailed_names_after_mkdir W s s_m Hfm HT) in Hlines.
    unfold waypoint_log. by rewrite Hlines.
Qed.

Lemma is_dir_at_same_below p s t :
  same_below p s t -> is_dir_at s p = is_dir_at t p.
Proof. intros H. unfold is_dir_at. by rewrite (H p). Qed.

Lemma process_trail_log Tr s o s' :
  process_trail lib Tr s = Ok tt o s' -> o = trail_log s s' Tr.
Proof.
  intros H. unfold trail_log.
  apply process_trail_Ok_iff in H as [(Hn & -> & _)|(files & Hls & Hloop)].
  - by rewrite Hn.
  - apply sorted_iterdir_inv in Hls as (Hd & _ & _ & ->). rewrite Hd.
    destruct (for_each_children_runs _ (process_waypoint_frame lib)
                _ _ _ _ _ (NoDup_sorted_listdir _ _) Hloop)
      as (os & -> & Hos).
    apply concat_of_subdirs.
    eapply Forall2_impl; [exact Hos|].
    intros b o_b (s_b & s_b' & Hb & Hs & Hs').
    rewrite (process_waypoint_log _ _ _ _ Hb).
    rewrite (is_dir_at_same_below _ _ _ Hs).
    by rewrite (same_below_waypoint_log _ _ _ _ _ Hs Hs').
Qed.

Lemma visit_trail_log (a : string) s o s' :
  visit_trail lib (joinpath trails_dir a) s = Ok tt o s' ->
  o = if is_dir_at s (joinpath trails_dir a)
      then ProcessingTrail a :: trail_log s s' (joinpath trails_dir a)
      else [].
Proof.
  intros H. unfold is_dir_at.
  apply visit_trail_Ok_iff in H as [(Hnd & -> & _)|(Hd & o1 & H & ->)].
  - destruct (s !! joinpath trails_dir a) as [[| |]|]; congruence.
  - rewrite Hd, name_joinpath. by rewrite (process_trail_log _ _ _ _ H).
Qed.

(** X11. What a run of the thumbnail generator prints is fixed by the tree
    before and the thumbnails counted after: a header for each directory
    of [trails] in sorted order, each followed by the lines of its
    waypoints in sorted order (or the notice that it has no photos), and
    the closing line. *)
Theorem main_prints_the_run_log (fs : filesystem) out fs' :
  main lib fs = Ok tt out fs' -> out = run_log fs fs'.
Proof.
  intros H. unfold run_log.
  apply main_Ok_iff in H as [(Hn & -> & _)|(files & o1 & Hls & Hloop & ->)].
  - by rewrite Hn.
  - apply sorted_iterdir_inv in Hls as (Hd & _ & _ & ->). rewrite Hd.
    f_equal.
    destruct (for_each_children_runs _ (visit_trail_frame lib)
                _ _ _ _ _ (NoDup_sorted_listdir _ _) Hloop)
      as (os & -> & Hos).
    apply (concat_of_subdirs
             (fun a => is_dir_at fs (joinpath trails_dir a))
             (fun a => ProcessingTrail a
                         :: trail_log fs fs' (joinpath trails_dir a))).
    eapply Forall2_impl; [exact Hos|].
    intros a o_a (s_a & s_a' & Ha & Hs & Hs').
    rewrite (visit_trail_log _ _ _ _ Ha).
    rewrite (is_dir_at_same_below _ _ _ Hs).
    by rewrite (same_below_trail_log _ _ _ _ _ Hs Hs').
Qed.

End RunLog.

(** ** When a run finishes *)

Section RunSucceeds.
Context (lib : Imaging).

Lemma same_below_refl p s : same_below p s s.
Proof. by intros k _. Qed.

Lemma same_below_sym p s t : same_below p s t -> same_below p t s.
Proof. intros H k Hk. symmetry. by apply H. Qed.

Lemma same_below_trans p s t u :
  same_below p s t -> same_below p t u -> same_below p s u.
Proof. intros H1 H2 k Hk. rewrite (H1 k Hk). by apply H2. Qed.

Lemma prefix_of_joinpath2 (p : path) (a b : string) :
  p `prefix_of` joinpath (joinpath p a) b.
Proof. exists [a; b]. unfold joinpath. by rewrite <- app_assoc. Qed.

Lemma same_below_waypoint_ok W s t :
  same_below W s t -> waypoint_ok lib s W -> waypoint_ok lib t W.
Proof.
  intros H [HT Himg]. split.
  - rewrite <- (H (joinpath W "thumbs")) by apply prefix_of_joinpath.
    exact HT.
  - intros n v Hv Hnd Hsuf.
    rewrite <- (H (joinpath W n)) in Hv by apply prefix_of_joinpath.
    destruct (Himg n v Hv Hnd Hsuf) as [Hth Hw]. split; [exact Hth|].
    rewrite <- (H (joinpath (joinpath W "thumbs") (thumb_name n)));
      [exact Hw|apply prefix_of_joinpath2].
Qed.

Lemma same_below_trail_ok Tr s t :
  same_below Tr s t -> trail_ok lib s Tr -> trail_ok lib t Tr.
Proof.
  intros H [Hn|[Hd Hw]]; [left|right].
  - rewrite <- (H (joinpath Tr "photos")) by apply prefix_of_joinpath.
    exact Hn.
  - split.
    + rewrite <- (H (joinpath Tr "photos")) by apply prefix_of_joinpath.
      exact Hd.
    + intros b Hb.
      rewrite <- (H (joinpath (joinpath Tr "photos") b)) in Hb
        by apply prefix_of_joinpath2.
      apply (same_below_waypoint_ok _ s t); [|by apply Hw].
      by do 2 apply same_below_child.
Qed.

(** *** A loop over the entries of a directory succeeds when each entry
    does *)

Section ChildrenOk.

Context (body : path -> M unit).
Hypothesis body_frame : forall x s o s' k,
  body x s = Ok tt o s' -> ~ strictly_below x k -> s' !! k = s !! k.

Lemma for_each_children_ok parent ns s :
  NoDup ns ->
  (forall n, n ∈ ns -> forall t, same_below (joinpath parent n) t s ->
     exists o t', body (joinpath parent n) t = Ok tt o t') ->
  exists o s', for_each (joinpath parent <$> ns) body s = Ok tt o s'.
Proof.
  intros Hnd. revert s.
  induction Hnd as [|n ns Hn Hnd IH]; intros s Hok.
  - by exists [], s.
  - destruct (Hok n (list_elem_of_here _ _) s (same_below_refl _ _))
      as (o1 & s1 & H1).
    destruct (IH s1) as (o2 & s2 & H2).
    + intros m Hm t Ht. apply Hok; [by right|].
      eapply same_below_trans; [exact Ht|].
      intros k Hk. apply (body_frame _ _ _ _ _ H1). intros Hb.
      apply (child_not_below_sibling _ _ _ _ Hk) in Hb. congruence.
    + exists (o1 ++ o2), s2. rewrite fmap_cons.
      by eapply for_each_cons_ok.
Qed.

End ChildrenOk.

(** *** A waypoint *)

Section WaypointOk.

Context (W : path).

Local Abbreviation T := (joinpath W "thumbs").

Lemma can_save_writable (s : filesystem) (x : string) :
  s !! T = Some NDir ->
  can_save s (joinpath T x) <-> writable (s !! joinpath T x).
Proof.
  intros HT. unfold can_save, writable. rewrite removelast_joinpath.
  destruct (s !! joinpath T x) as [[| |]|]; tauto.
Qed.

(** The loop over the entries gets through when each entry does on the
    tree the loop starts on. *)
Lemma thumbs_loop_ok ns s_m t :
  (forall n, t !! joinpath W n = s_m !! joinpath W n) ->
  (forall x, can_save s_m (joinpath T x) <-> can_save t (joinpath T x)) ->
  (forall n v, n ∈ ns -> s_m !! joinpath W n = Some v -> v <> NDir ->
     lower (suffix_of_name n) ∈ image_suffixes ->
     thumbnailable lib v /\ can_save s_m (joinpath T (thumb_name n))) ->
  (forall n, n ∈ ns -> is_Some (s_m !! joinpath W n)) ->
  exists o t', for_each (joinpath W <$> ns) (process_image lib T) t
               = Ok tt o t'.
Proof.
  revert t. induction ns as [|n ns IH]; intros t Hent Hsave Hok Hex.
  - by exists [], t.
  - assert (H1 : exists o1 t1,
              process_image lib T (joinpath W n) t = Ok tt o1 t1).
    { destruct (Hex n (list_elem_of_here _ _)) as [v Hv].
      assert (Hv_dir : v = NDir \/ v <> NDir)
        by (destruct v; [by left|by right|by right]).
      destruct Hv_dir as [->|Hnd].
      { exists [], t. apply process_image_Ok_iff. left.
        rewrite Hent, Hv. auto. }
      destruct (decide (lower (suffix_of_name n) ∈ image_suffixes))
        as [Hsuf|Hsuf].
      2:{ exists [], t. apply process_image_Ok_iff. left.
          unfold suffix. rewrite name_joinpath. auto. }
      destruct (Hok n v (list_elem_of_here _ _) Hv Hnd Hsuf)
        as [(c & img & thumb & -> & Hdec & Hth & Hm) Hc].
      eexists _, _. apply process_image_Ok_iff. right.
      split; [rewrite Hent, Hv; discriminate|].
      split; [unfold suffix; by rewrite name_joinpath|].
      exists c, img, thumb. rewrite Hent, Hv.
      split; [reflexivity|]. split; [exact Hdec|]. split; [exact Hth|].
      split.
      { rewrite (make_thumbnail_mode lib _ _ _ Hth).
        by apply thumbnailable_modes_spec. }
      split; [|split; reflexivity].
      unfold thumb_path, stem. rewrite name_joinpath. by apply Hsave. }
    destruct H1 as (o1 & t1 & H1).
    destruct (process_image_effect lib W _ _ _ _ H1) as [Hf Hc].
    destruct (IH t1) as (o2 & t2 & H2).
    + intros m. rewrite Hf; [apply Hent|]. unfold thumb_path.
      apply joinpath_ne_deeper.
    + intros x. rewrite Hsave. apply Hc.
    + intros m v Hm. apply Hok. by right.
    + intros m Hm. apply Hex. by right.
    + exists (o1 ++ o2), t2. rewrite fmap_cons. by eapply for_each_cons_ok.
Qed.

Lemma process_waypoint_ok s :
  s !! W = Some NDir -> waypoint_ok lib s W ->
  exists o s', process_waypoint lib W s = Ok tt o s'.
Proof.
  intros Hd [HT Himg].
  assert (Hmk : exists s_m,
            mkdir_exist_ok T s = Ok tt [] s_m /\ s_m !! T = Some NDir
            /\ forall k, k <> T -> s_m !! k = s !! k).
  { destruct HT as [HT|HT].
    - exists s. split; [by apply mkdir_thumbs_present|]. auto.
    - exists (<[T := NDir]> s). unfold mkdir_exist_ok.
      rewrite HT, removelast_joinpath, Hd.
      split; [reflexivity|]. split; [apply lookup_insert_eq|].
      intros k Hk. by apply lookup_insert_ne. }
  destruct Hmk as (s_m & Hmk & HTm & Hfm).
  assert (Hdm : s_m !! W = Some NDir).
  { rewrite Hfm; [exact Hd|]. intros E. symmetry in E.
    by apply joinpath_ne_self in E. }
  destruct (thumbs_loop_ok (merge_sort name_le (listdir s_m W)) s_m s_m)
    as (o_l & s' & Hloop).
  - reflexivity.
  - reflexivity.
  - intros n v _ Hv Hnd Hsuf.
    assert (Hne : joinpath W n <> T).
    { intros E%joinpath_inj. subst n. by apply thumbs_is_no_image. }
    rewrite Hfm in Hv by exact Hne.
    destruct (Himg n v Hv Hnd Hsuf) as [Hth Hw]. split; [exact Hth|].
    apply can_save_writable; [exact HTm|].
    rewrite Hfm; [exact Hw|]. apply joinpath_ne_self.
  - intros n Hn. rewrite merge_sort_Permutation in Hn.
    by apply elem_of_listdir.
  - eexists _, _. apply process_waypoint_Ok_iff. right.
    split; [exact Hd|].
    exists s_m, (joinpath W <$> merge_sort name_le (listdir s_m W)), o_l.
    split; [exact Hmk|]. split; [|split; [exact Hloop|reflexivity]].
    unfold sorted_iterdir. by rewrite Hdm.
Qed.

Lemma process_waypoint_needs s o s' :
  s !! W = Some NDir -> process_waypoint lib W s = Ok tt o s' ->
  waypoint_ok lib s W.
Proof.
  intros Hd H. pose proof H as H0.
  apply process_waypoint_Ok_iff in H
    as [(? & _)|(_ & s_m & files & o_l & Hmk & Hls & Hloop & _)];
    [contradiction|].
  split.
  { unfold mkdir_exist_ok in Hmk.
    destruct (s !! T) as [[| |]|]; try discriminate; auto. }
  apply mkdir_thumbs_inv in Hmk as (_ & HTm & Hfm).
  apply sorted_iterdir_inv in Hls as (_ & _ & _ & ->).
  intros n v Hv Hnd Hsuf.
  split; [by eapply process_waypoint_thumbnailable|].
  assert (Hne : joinpath W n <> T).
  { intros E%joinpath_inj. subst n. by apply thumbs_is_no_image. }
  assert (Hv' : s_m !! joinpath W n = Some v) by (by rewrite Hfm).
  destruct (for_each_ok_each _
              (fun t => t !! joinpath W n = Some v
                        /\ forall x, can_save s_m (joinpath T x)
                                     <-> can_save t (joinpath T x))
              _ _ _ _ (joinpath W n) Hloop)
    as (t & ot & t' & [Ht Hc] & Hx).
  - split; [exact Hv'|reflexivity].
  - intros y t ot t' (m & -> & _)%list_elem_of_fmap [Ht Hc] Hy.
    destruct (process_image_effect lib W _ _ _ _ Hy) as [Hf Hc'].
    split; [rewrite Hf; [exact Ht|apply joinpath_ne_deeper]|].
    intros x. rewrite Hc. apply Hc'.
  - apply list_elem_of_fmap. exists n. split; [reflexivity|].
    rewrite merge_sort_Permutation. apply elem_of_listdir. rewrite Hv'. eauto.
  - apply process_image_Ok_iff in Hx
      as [([Hx|Hx] & _)|(_ & _ & c & img & thumb & Hx)].
    + congruence.
    + unfold suffix in Hx. rewrite name_joinpath in Hx. contradiction.
    + destruct Hx as (_ & _ & _ & _ & Hsave & _).
      unfold thumb_path, stem in Hsave. rewrite name_joinpath in Hsave.
      apply Hc in Hsave. apply can_save_writable in Hsave; [|exact HTm].
      rewrite Hfm in Hsave; [exact Hsave|]. apply joinpath_ne_self.
Qed.

End WaypointOk.

(** *** A trail *)

Lemma process_trail_succeeds_iff Tr s :
  (exists o s', process_trail lib Tr s = Ok tt o s') <-> trail_ok lib s Tr.
Proof.
  split.
  - intros (o & s' & H).
    apply process_trail_Ok_iff in H as [(Hn & _)|(files & Hls & Hloop)];
      [by left|right].
    apply sorted_iterdir_inv in Hls as (Hd & _ & _ & ->).
    split; [exact Hd|]. intros b Hb.
    destruct (for_each_children_runs _ (process_waypoint_frame lib)
                _ _ _ _ _ (NoDup_sorted_listdir _ _) Hloop)
      as (os & _ & Hos).
    assert (Hin : b ∈ merge_sort name_le (listdir s (joinpath Tr "photos"))).
    { rewrite merge_sort_Permutation. apply elem_of_listdir.
      rewrite Hb. eauto. }
    apply list_elem_of_lookup in Hin as [i Hi].
    destruct (Forall2_lookup_l _ _ _ _ _ Hos Hi)
      as (o_b & _ & s_b & s_b' & Hrun & Hs & _).
    apply (same_below_waypoint_ok _ s_b s Hs).
    eapply process_waypoint_needs; [|exact Hrun].
    rewrite (Hs _) by reflexivity. exact Hb.
  - intros [Hn|[Hd Hw]].
    + eexists _, _. apply process_trail_Ok_iff. left. eauto.
    + destruct (for_each_children_ok _ (process_waypoint_frame lib)
                  (joinpath Tr "photos")
                  (merge_sort name_le (listdir s (joinpath Tr "photos"))) s
                  (NoDup_sorted_listdir _ _)) as (o & s' & Hloop).
      * intros b _ t Ht.
        destruct (dir_or_not t (joinpath (joinpath Tr "photos") b))
          as [Hb|Hb].
        -- apply process_waypoint_ok; [exact Hb|].
           apply (same_below_waypoint_ok _ s t); [by apply same_below_sym|].
           apply Hw. rewrite <- (Ht _) by reflexivity. exact Hb.
        -- exists [], t. apply process_waypoint_Ok_iff. left. auto.
      * exists o, s'. apply process_trail_Ok_iff. right.
        eexists. split; [|exact Hloop].
        unfold sorted_iterdir. by rewrite Hd.
Qed.

Lemma visit_trail_succeeds_iff Tr s :
  (exists o s', visit_trail lib Tr s = Ok tt o s')
  <-> (s !! Tr = Some NDir -> trail_ok lib s Tr).
Proof.
  split.
  - intros (o & s' & H) Hd.
    apply visit_trail_Ok_iff in H as [(? & _)|(_ & o1 & H & _)];
      [contradiction|].
    apply process_trail_succeeds_iff. eauto.
  - intros H. destruct (dir_or_not s Tr) as [Hd|Hd].
    + destruct (proj2 (process_trail_succeeds_iff Tr s) (H Hd))
        as (o & s' & Hrun).
      eexists _, _. apply visit_trail_Ok_iff. right. eauto.
    + exists [], s. apply visit_trail_Ok_iff. left. auto.
Qed.

(** *** The whole run *)

Lemma main_Ok_tree_ok (fs : filesystem) o s' :
  main lib fs = Ok tt o s' -> tree_ok lib fs.
Proof.
  intros H.
  apply main_Ok_iff in H as [(Hn & _)|(files & o1 & Hls & Hloop & _)];
    [by left|right].
  apply sorted_iterdir_inv in Hls as (Hd & _ & _ & ->).
  split; [exact Hd|]. intros a Ha.
  destruct (for_each_children_runs _ (visit_trail_frame lib)
              _ _ _ _ _ (NoDup_sorted_listdir _ _) Hloop)
    as (os & _ & Hos).
  assert (Hin : a ∈ merge_sort name_le (listdir fs trails_dir)).
  { rewrite merge_sort_Permutation. apply elem_of_listdir.
    rewrite Ha. eauto. }
  apply list_elem_of_lookup in Hin as [i Hi].
  destruct (Forall2_lookup_l _ _ _ _ _ Hos Hi)
    as (o_a & _ & s_a & s_a' & Hrun & Hs & _).
  apply (same_below_trail_ok _ s_a fs Hs).
  apply (proj1 (visit_trail_succeeds_iff _ s_a)); [eauto|].
  rewrite (Hs _) by reflexivity. exact Ha.
Qed.

Lemma tree_ok_main_Ok (fs : filesystem) :
  tree_ok lib fs -> exists o s', main lib fs = Ok tt o s'.
Proof.
  intros [Hn|[Hd Htr]].
  - eexists _, _. apply main_Ok_iff. left. eauto.
  - destruct (for_each_children_ok _ (visit_trail_frame lib)
                trails_dir (merge_sort name_le (listdir fs trails_dir)) fs
                (NoDup_sorted_listdir _ _)) as (o & s' & Hloop).
    + intros a _ t Ht. apply visit_trail_succeeds_iff. intros Ha.
      apply (same_below_trail_ok _ fs t); [by apply same_below_sym|].
      apply Htr. rewrite <- (Ht _) by reflexivity. exact Ha.
    + eexists _, _. apply main_Ok_iff. right.
      exists (joinpath trails_dir
                <$> merge_sort name_le (listdir fs trails_dir)), o.
      split; [|split; [exact Hloop|reflexivity]].
      unfold sorted_iterdir. by rewrite Hd.
Qed.

(** X12. The thumbnail generator finishes without an exception exactly on the
    trees described by [tree_ok]: there is no [trails], or it is a
    directory, every [photos] of a trail is missing or a directory, every
    [thumbs] of a waypoint is missing or a directory, every entry of a
    waypoint that is no directory and has an image extension decodes to a
    picture of a mode the generator can turn into a JPEG, and no directory
    or special file stands where a thumbnail goes. *)
Theorem main_succeeds_iff (fs : filesystem) :
  (exists out fs', main lib fs = Ok tt out fs') <-> tree_ok lib fs.
Proof.
  split.
  - intros (o & s' & H). eapply main_Ok_tree_ok. exact H.
  - intros Hok. apply tree_ok_main_Ok. exact Hok.
Qed.

End RunSucceeds.

(** ** The icon generator *)

Section IconRuns.

Context (lib : Imaging).

Local Ltac icon_file_member :=
  unfold icon_files;
  repeat first [apply list_elem_of_here | apply list_elem_of_further].

Lemma save_icon_inv frames n fmt s o s' :
  Image_save lib frames (joinpath icons_dir n) fmt s = Ok tt o s' ->
  writable (s !! joinpath icons_dir n)
  /\ o = []
  /\ s' = <[joinpath icons_dir n
            := NFile (Written fmt (stored_frames lib fmt frames))]> s.
Proof.
  intros H. apply Image_save_Ok_iff in H as (Hc & _ & -> & ->).
  split; [|split; reflexivity]. unfold can_save in Hc. unfold writable.
  destruct (s !! joinpath icons_dir n) as [[| |]|]; auto.
Qed.

Lemma mkdir_icons_inv fs o fs1 :
  mkdir_exist_ok icons_dir fs = Ok tt o fs1 ->
  (fs !! icons_dir = Some NDir
   \/ (fs !! icons_dir = None /\ fs !! [] = Some NDir))
  /\ o = [] /\ fs1 = with_icons_dir fs.
Proof.
  unfold mkdir_exist_ok, with_icons_dir.
  change (removelast icons_dir) with (@nil string).
  destruct (fs !! icons_dir) as [[| |]|]; try discriminate.
  - intros [= <- <-]. auto.
  - destruct (fs !! []) as [[| |]|]; try discriminate.
    intros [= <- <-]. auto.
Qed.

Lemma with_icons_dir_other fs k :
  k <> icons_dir -> with_icons_dir fs !! k = fs !! k.
Proof.
  intros Hk. unfold with_icons_dir.
  destruct (fs !! icons_dir); [reflexivity|].
  rewrite lookup_insert_ne; [reflexivity|]. congruence.
Qed.

Lemma print_inv l s o s' : print l s = Ok tt o s' -> o = [l] /\ s' = s.
Proof. intros [= <- <-]. auto. Qed.

Lemma generate_icons_inv fs out fs' :
  generate_icons lib fs = Ok tt out fs' ->
  icons_possible fs
  /\ exists c logo0,
       fs !! logo_path = Some (NFile c) /\ decode lib c = Some logo0
       /\ out = icons_report
       /\ fs' = icons_written lib (ensure_rgba lib logo0)
                  (with_icons_dir fs).
Proof.
  - unfold generate_icons. intros H.
    apply bind_inv_ok in H as ([] & o1 & fs1 & o2 & Hmk & H & ->).
    apply bind_inv_ok in H as (img0 & o3 & fs2 & o4 & Hopen & H & ->).
    cbn [for_each foldl] in H.
    change ("icon-" +:+ str 192 +:+ ".png") with "icon-192.png" in H.
    change ("icon-" +:+ str 512 +:+ ".png") with "icon-512.png" in H.
    apply bind_inv_ok in H as ([] & o5 & fs3 & o6 & Hpwa & H & ->).
    apply bind_inv_ok in Hpwa as ([] & o7 & fs4 & o8 & H192 & Hpwa & ->).
    apply bind_inv_ok in H192 as ([] & ? & fs5 & ? & H192 & Hp & ->).
    apply print_inv in Hp as [-> ->].
    apply bind_inv_ok in Hpwa as ([] & ? & fs6 & ? & H512 & Hp & ->).
    inversion Hp; subst; clear Hp.
    apply bind_inv_ok in H512 as ([] & ? & fs7 & ? & H512 & Hp & ->).
    apply print_inv in Hp as [-> ->].
    apply bind_inv_ok in H as (apple & ? & fs8 & ? & Hlift & H & ->).
    apply bind_inv_ok in H as ([] & ? & fs9 & ? & Happle & H & ->).
    apply bind_inv_ok in H as ([] & ? & fs10 & ? & Hp & H & ->).
    apply print_inv in Hp as [-> ->].
    apply bind_inv_ok in H as (favs & ? & fs11 & ? & Hfav & H & ->).
    apply bind_inv_ok in H as ([] & ? & fs12 & ? & Hico & H & ->).
    apply bind_inv_ok in H as ([] & ? & fs13 & ? & Hp & H & ->).
    apply print_inv in Hp as [-> ->].
    apply bind_inv_ok in H as ([] & ? & fs14 & ? & H32 & H & ->).
    apply bind_inv_ok in H as ([] & ? & fs15 & ? & Hp & H & ->).
    apply print_inv in Hp as [-> ->].
    apply print_inv in H as [-> ->].
    apply mkdir_icons_inv in Hmk as (Hdir & -> & ->).
    assert (Hlogo : exists c, fs !! logo_path = Some (NFile c)
                              /\ decode lib c = Some img0
                              /\ o3 = [] /\ fs2 = with_icons_dir fs).
    { unfold Image_open in Hopen.
      rewrite with_icons_dir_other in Hopen by discriminate.
      destruct (fs !! logo_path) as [[|c|]|]; try discriminate.
      destruct (decode lib c) eqn:Hd; try discriminate.
      inversion Hopen; subst. eauto. }
    destruct Hlogo as (c & Hl & Hd & -> & ->).
    pose proof (ensure_rgba_mode lib img0) as Hm.
    rewrite on_white_background_rgba in Hlift by exact Hm.
    inversion Hlift; subst; clear Hlift.
    rewrite !on_white_background_rgba in Hfav by exact Hm.
    inversion Hfav; subst; clear Hfav. cbn [app] in Hico.
    apply save_icon_inv in H192 as (W192 & -> & ->).
    apply save_icon_inv in H512 as (W512 & -> & ->).
    apply save_icon_inv in Happle as (Wapple & -> & ->).
    apply save_icon_inv in Hico as (Wico & -> & ->).
    apply save_icon_inv in H32 as (W32 & -> & ->).
    rewrite !lookup_insert_ne in W512 by discriminate.
    rewrite !lookup_insert_ne in Wapple by discriminate.
    rewrite !lookup_insert_ne in Wico by discriminate.
    rewrite !lookup_insert_ne in W32 by discriminate.
    rewrite with_icons_dir_other in W192, W512, Wapple, Wico, W32
      by discriminate.
    split.
    + split; [exact Hdir|].
      intros n Hn. unfold icon_files in Hn.
      repeat (apply elem_of_cons in Hn as [->|Hn]; [assumption|]).
      exfalso. exact (proj1 (elem_of_nil n) Hn).
    + exists c, img0. repeat split; assumption || reflexivity.
Qed.

Lemma generate_icons_Ok_iff fs out fs' :
  generate_icons lib fs = Ok tt out fs'
  <-> icons_possible fs
      /\ exists c logo0,
           fs !! logo_path = Some (NFile c) /\ decode lib c = Some logo0
           /\ out = icons_report
           /\ fs' = icons_written lib (ensure_rgba lib logo0)
                      (with_icons_dir fs).
Proof.
  split; [apply generate_icons_inv|].
  intros (Hp & c & logo0 & Hl & Hd & -> & ->).
  destruct (generate_icons_run lib fs c logo0 Hl Hd Hp) as (fs1 & _ & Hrun).
  destruct (generate_icons_inv _ _ _ Hrun)
    as (_ & c' & logo' & Hl' & Hd' & _ & E).
  rewrite Hl in Hl'. injection Hl' as <-. rewrite Hd in Hd'.
  injection Hd' as <-. rewrite Hrun, E. reflexivity.
Qed.


(** The node at a path once the icons are written. *)
Lemma icons_written_lookup img s k :
  icons_written lib img s !! k = s !! k
  \/ (exists n c, n ∈ icon_files /\ k = joinpath icons_dir n
                  /\ icons_written lib img s !! k = Some (NFile c)).
Proof.
  unfold icons_written.
  repeat match goal with
  | |- context [<[joinpath icons_dir ?n := ?v]> _ !! k] =>
      destruct (decide (k = joinpath icons_dir n)) as [->|?];
        [right; exists n; eexists; split; [icon_file_member|split; [reflexivity|]];
         repeat first [ rewrite lookup_insert_eq; reflexivity
                      | rewrite lookup_insert_ne by discriminate ]
        | rewrite lookup_insert_ne by congruence ]
  end.
  left. reflexivity.
Qed.

Lemma icons_written_idem img s :
  icons_written lib img (icons_written lib img s) = icons_written lib img s.
Proof.
  apply map_eq. intros k. unfold icons_written.
  repeat match goal with
  | |- context [<[?key := _]> _ !! k] =>
      destruct (decide (k = key)) as [->|?];
        [ repeat first [ rewrite lookup_insert_eq
                       | rewrite lookup_insert_ne by discriminate ];
          reflexivity
        | rewrite !(lookup_insert_ne _ key k) by congruence ]
  end.
  rewrite !lookup_insert_ne by congruence. reflexivity.
Qed.

Lemma icons_written_dir img s :
  icons_written lib img s !! icons_dir = s !! icons_dir.
Proof. unfold icons_written. by rewrite !lookup_insert_ne by discriminate. Qed.

Lemma icons_written_logo img s :
  icons_written lib img s !! logo_path = s !! logo_path.
Proof. unfold icons_written. by rewrite !lookup_insert_ne by discriminate. Qed.

Lemma with_icons_dir_id s :
  s !! icons_dir = Some NDir -> with_icons_dir s = s.
Proof. intros H. unfold with_icons_dir. by rewrite H. Qed.

Lemma with_icons_dir_dir s :
  (s !! icons_dir = Some NDir \/ s !! icons_dir = None) ->
  with_icons_dir s !! icons_dir = Some NDir.
Proof.
  unfold with_icons_dir. intros [H|H]; rewrite H; [exact H|].
  apply lookup_insert_eq.
Qed.

(** X13. When the icon generator finishes, the logo is a file the decoder
    reads, [icons] is a directory or can be made in the project root, and
    no directory or special file stands where an icon goes.  The other way
    round, these conditions make it finish, for a logo of a mode the
    library converts to RGBA. *)
Theorem generate_icons_success_conditions fs :
  ((exists out fs', generate_icons lib fs = Ok tt out fs') ->
   icons_possible fs
   /\ exists c logo0, fs !! logo_path = Some (NFile c)
                      /\ decode lib c = Some logo0)
  /\ (icons_possible fs ->
      (exists c logo0, fs !! logo_path = Some (NFile c)
                       /\ decode lib c = Some logo0
                       /\ mode logo0 ∈ rgba_convertible_modes) ->
      exists out fs', generate_icons lib fs = Ok tt out fs').
Proof.
  split.
  - intros (out & fs' & H).
    apply generate_icons_inv in H as (Hp & c & logo0 & Hl & Hd & _).
    eauto.
  - intros Hp (c & logo0 & Hl & Hd & _).
    destruct (generate_icons_run lib fs c logo0 Hl Hd Hp) as (fs1 & _ & Hrun).
    eauto.
Qed.

(** X14. A run of the icon generator that succeeded can be repeated: on the
    tree it left, the generator succeeds again, prints the same lines and
    leaves the tree as it is. *)
Theorem generate_icons_twice fs out fs' :
  generate_icons lib fs = Ok tt out fs' ->
  generate_icons lib fs' = Ok tt out fs'.
Proof.
  intros H.
  apply generate_icons_inv in H as (Hp & c & logo0 & Hl & Hd & -> & ->).
  set (img := ensure_rgba lib logo0).
  assert (Hdir : with_icons_dir fs !! icons_dir = Some NDir).
  { apply with_icons_dir_dir. destruct Hp as [[?|[? _]] _]; auto. }
  apply generate_icons_Ok_iff. split.
  - split.
    + left. rewrite icons_written_dir. exact Hdir.
    + intros n Hn.
      destruct (icons_written_lookup img (with_icons_dir fs)
                  (joinpath icons_dir n)) as [E|(m & c' & _ & _ & E)];
        rewrite E; [|exact I].
      rewrite with_icons_dir_other by discriminate.
      destruct Hp as [_ Hw]. auto.
  - exists c, logo0.
    split; [rewrite icons_written_logo, with_icons_dir_other by discriminate;
            exact Hl|].
    split; [exact Hd|]. split; [reflexivity|].
    rewrite (with_icons_dir_id (icons_written lib img (with_icons_dir fs)))
      by (rewrite icons_written_dir; exact Hdir).
    symmetry. apply icons_written_idem.
Qed.

(** X15. The icon generator changes nothing but the [icons] directory and the
    five icon files in it: the logo and everything else in the tree are as
    before, and what it prints does not depend on the logo. *)
Theorem generate_icons_only_writes_icons fs out fs' :
  generate_icons lib fs = Ok tt out fs' ->
  out = icons_report
  /\ fs' !! logo_path = fs !! logo_path
  /\ forall k, fs' !! k <> fs !! k ->
       (k = icons_dir /\ fs !! k = None /\ fs' !! k = Some NDir)
       \/ exists n c, n ∈ icon_files /\ k = joinpath icons_dir n
                      /\ fs' !! k = Some (NFile c).
Proof.
  intros H.
  apply generate_icons_inv in H as (Hp & c & logo0 & Hl & Hd & -> & ->).
  split; [reflexivity|].
  split; [rewrite icons_written_logo; apply with_icons_dir_other; discriminate|].
  intros k Hk.
  destruct (icons_written_lookup (ensure_rgba lib logo0) (with_icons_dir fs) k)
    as [E|(n & c' & Hn & -> & E)].
  - left. rewrite E in Hk |- *.
    destruct (decide (k = icons_dir)) as [->|Hne].
    + unfold with_icons_dir in Hk |- *.
      destruct (fs !! icons_dir) eqn:Hi; [congruence|].
      split; [reflexivity|]. split; [reflexivity|]. apply lookup_insert_eq.
    + rewrite with_icons_dir_other in Hk by exact Hne. congruence.
  - right. eauto.
Qed.

(** X16. The two PWA icons and [favicon-32.png] keep the transparency:
    whatever the mode of the logo file, each holds one image in RGBA mode,
    the decoded logo converted to RGBA where it is not, resized to the
    size and not composited. *)
Theorem pwa_icons_keep_the_alpha_band fs out fs' :
  generate_icons lib fs = Ok tt out fs' ->
  exists c logo0 r192 r512 r32,
    fs !! logo_path = Some (NFile c) /\ decode lib c = Some logo0
    /\ mode (ensure_rgba lib logo0) = M_RGBA
    /\ r192 = resize lib (ensure_rgba lib logo0) (192, 192)
    /\ r512 = resize lib (ensure_rgba lib logo0) (512, 512)
    /\ r32 = resize lib (ensure_rgba lib logo0) (32, 32)
    /\ fs' !! joinpath icons_dir "icon-192.png"
       = Some (NFile (Written PNG [r192]))
    /\ fs' !! joinpath icons_dir "icon-512.png"
       = Some (NFile (Written PNG [r512]))
    /\ fs' !! joinpath icons_dir "favicon-32.png"
       = Some (NFile (Written PNG [r32]))
    /\ Forall (fun r => mode r = M_RGBA /\ has_alpha (mode r) = true)
         [r192; r512; r32].
Proof.
  intros H.
  apply generate_icons_inv in H as (Hp & c & logo0 & Hl & Hd & -> & ->).
  pose proof (ensure_rgba_mode lib logo0) as Hm.
  exists c, logo0. eexists _, _, _.
  split; [exact Hl|]. split; [exact Hd|]. split; [exact Hm|].
  do 3 (split; [reflexivity|]).
  unfold icons_written.
  do 3 (split; [repeat first [ rewrite lookup_insert_eq; reflexivity
                             | rewrite lookup_insert_ne by discriminate ]|]).
  repeat constructor; cbn [resize mode]; rewrite Hm; reflexivity.
Qed.

(** ** The arithmetic of the paste *)

Lemma DIV255_mono a b : a <= b -> DIV255 a <= DIV255 b.
Proof.
  intros H. unfold DIV255. rewrite !Z.shiftr_div_pow2 by lia.
  change (2 ^ 8) with 256.
  apply Z.div_le_mono; [lia|].
  pose proof (Z.div_le_mono (a + 128) (b + 128) 256). lia.
Qed.

Lemma DIV255_exact v : is_byte v -> DIV255 (255 * v) = v.
Proof.
  unfold is_byte, DIV255. intros H. rewrite !Z.shiftr_div_pow2 by lia.
  change (2 ^ 8) with 256.
  Z.div_mod_to_equations. lia.
Qed.

Lemma BLEND8_opaque b v : is_byte v -> BLEND8 255 b v = v.
Proof.
  intros H. unfold BLEND8. rewrite Z.sub_diag, Z.mul_0_r, Z.add_0_l.
  rewrite Z.mul_comm. by apply DIV255_exact.
Qed.

Lemma BLEND8_white_between a v :
  is_byte a -> is_byte v -> v <= BLEND8 a 255 v <= 255.
Proof.
  unfold is_byte. intros Ha Hv. unfold BLEND8. split.
  - rewrite <- (DIV255_exact v) at 1 by exact Hv.
    apply DIV255_mono. nia.
  - change 255 with (DIV255 (255 * 255)) at 3.
    apply DIV255_mono. nia.
Qed.

(** X17. Pasting the logo onto white never darkens it and keeps its opaque
    pixels: inside the canvas each band of the icon lies between the band
    of the resized logo and 255, and where the logo is fully opaque the
    icon has the colour of the logo. *)
Theorem white_background_only_lightens (img out : Image) (sz x y r g b a : Z) :
  mode img = M_RGBA ->
  on_white_background lib img sz = inr out ->
  0 <= x < sz -> 0 <= y < sz ->
  load (resize lib img (sz, sz)) x y = (r, g, b, a) ->
  is_byte r -> is_byte g -> is_byte b -> is_byte a ->
  exists r' g' b',
    getpixel out x y = [r'; g'; b']
    /\ r <= r' <= 255 /\ g <= g' <= 255 /\ b <= b' <= 255
    /\ (a = 255 -> r' = r /\ g' = g /\ b' = b).
Proof.
  intros Hm Hout Hx Hy Hpx Hr Hg Hb Ha.
  rewrite on_white_background_rgba in Hout by exact Hm.
  injection Hout as <-.
  destruct (on_white_background_spec lib img sz Hm)
    as (_ & _ & _ & _ & _ & _ & Hblend & _).
  specialize (Hblend x y Hx Hy). rewrite Hpx in Hblend.
  eexists _, _, _. split; [exact Hblend|].
  split; [by apply BLEND8_white_between|].
  split; [by apply BLEND8_white_between|].
  split; [by apply BLEND8_white_between|].
  intros ->. rewrite !BLEND8_opaque by assumption. auto.
Qed.

End IconRuns.

(** ** The sizes of the outputs, and the conditions that are handled *)

Section Outputs.

Context (lib : Imaging).

Local Ltac lookup_icon :=
  unfold frame_sizes, icons_written;
  repeat first
    [ rewrite lookup_insert_eq; reflexivity
    | rewrite lookup_insert_ne by discriminate ].

(** The sizes in an icon file, read off, do not include 48x48. *)
Local Ltac no_48 Hsizes Hin :=
  revert Hsizes Hin; unfold frame_sizes, icons_written;
  repeat first
    [ rewrite lookup_insert_eq | rewrite lookup_insert_ne by discriminate ];
  cbn [fmap list_fmap size composited resize];
  intros [= <-] Hin;
  repeat (apply elem_of_cons in Hin as [Hin|Hin]; [discriminate|]);
  exact (proj1 (elem_of_nil _) Hin).

(** After a waypoint directory is processed, every regular file of it with
    an image extension has a thumbnail of 160x160 pixels. *)
Lemma process_waypoint_thumbnail_size (W : path) s o s' n c :
  process_waypoint lib W s = Ok tt o s' ->
  s !! W = Some NDir ->
  s !! joinpath W n = Some (NFile c) ->
  lower (suffix_of_name n) ∈ image_suffixes ->
  frame_sizes s' (joinpath (joinpath W "thumbs") (thumb_name n))
  = Some [(160, 160)].
Proof.
  intros H Hd Hc Hsuf.
  apply process_waypoint_Ok_iff in H
    as [(Hnd & _)|(_ & s_m & files & o_l & Hmk & Hls & Hloop & _)];
    [contradiction|].
  apply mkdir_thumbs_inv in Hmk as (_ & HT & Hfm).
  apply sorted_iterdir_inv in Hls as (_ & _ & _ & ->).
  assert (Hne : joinpath W n <> joinpath W "thumbs").
  { intros E%joinpath_inj. subst n. by apply thumbs_is_no_image. }
  assert (Hc' : s_m !! joinpath W n = Some (NFile c))
    by (rewrite Hfm; assumption).
  assert (Hn : n ∈ merge_sort name_le (listdir s_m W)).
  { rewrite merge_sort_Permutation. apply elem_of_listdir.
    rewrite Hc'. eauto. }
  assert (Hsuf' : lower (suffix (joinpath W n)) ∈ image_suffixes).
  { unfold suffix. by rewrite name_joinpath. }
  destruct (thumbs_loop_some lib W _ _ _ _ n c Hloop Hn Hc' Hsuf')
    as (m & c' & img & thumb & _ & _ & _ & _ & _ & Hth & Hl).
  unfold thumb_path, stem in Hl. rewrite name_joinpath in Hl.
  unfold frame_sizes, thumb_name. rewrite Hl. cbn [fmap list_fmap].
  rewrite (make_thumbnail_size lib _ _ _ Hth). reflexivity.
Qed.

Lemma process_trail_thumbnail_size (Tr : path) s o s' b n c :
  process_trail lib Tr s = Ok tt o s' ->
  s !! joinpath Tr "photos" = Some NDir ->
  s !! joinpath (joinpath Tr "photos") b = Some NDir ->
  s !! joinpath (joinpath (joinpath Tr "photos") b) n = Some (NFile c) ->
  lower (suffix_of_name n) ∈ image_suffixes ->
  frame_sizes s'
    (joinpath (joinpath (joinpath (joinpath Tr "photos") b) "thumbs")
       (thumb_name n))
  = Some [(160, 160)].
Proof.
  intros H Hp Hb Hc Hsuf.
  apply process_trail_Ok_iff in H as [(Hn & _)|(files & Hls & Hloop)];
    [congruence|].
  apply sorted_iterdir_inv in Hls as (_ & _ & _ & ->).
  destruct (for_each_children_runs _ (process_waypoint_frame lib)
              _ _ _ _ _ (NoDup_sorted_listdir _ _) Hloop)
    as (os & _ & Hos).
  assert (Hin : b ∈ merge_sort name_le (listdir s (joinpath Tr "photos"))).
  { rewrite merge_sort_Permutation. apply elem_of_listdir.
    rewrite Hb. eauto. }
  apply list_elem_of_lookup in Hin as [i Hi].
  destruct (Forall2_lookup_l _ _ _ _ _ Hos Hi)
    as (o_b & _ & s_b & s_b' & Hrun & Hs & Hs').
  unfold frame_sizes.
  rewrite <- (Hs' _) by apply prefix_of_joinpath2.
  apply (process_waypoint_thumbnail_size _ _ _ _ _ c Hrun).
  - rewrite (Hs _) by reflexivity. exact Hb.
  - rewrite (Hs _) by apply prefix_of_joinpath. exact Hc.
  - exact Hsuf.
Qed.

Lemma prefix_of_joinpath4 (p : path) (a b c d : string) :
  p `prefix_of` joinpath (joinpath (joinpath (joinpath p a) b) c) d.
Proof. exists [a; b; c; d]. unfold joinpath. by rewrite <- !app_assoc. Qed.

Lemma prefix_of_joinpath3 (p : path) (a b c : string) :
  p `prefix_of` joinpath (joinpath (joinpath p a) b) c.
Proof. exists [a; b; c]. unfold joinpath. by rewrite <- !app_assoc. Qed.

(** After a run of the thumbnail generator, every regular file with an
    image extension in a waypoint directory has a thumbnail of 160x160
    pixels. *)
Lemma main_thumbnail_size (fs : filesystem) out fs' (a b n : string) c :
  main lib fs = Ok tt out fs' ->
  fs !! trails_dir = Some NDir ->
  fs !! joinpath trails_dir a = Some NDir ->
  fs !! joinpath (joinpath trails_dir a) "photos" = Some NDir ->
  fs !! joinpath (joinpath (joinpath trails_dir a) "photos") b = Some NDir ->
  fs !! joinpath (joinpath (joinpath (joinpath trails_dir a) "photos") b) n
  = Some (NFile c) ->
  lower (suffix_of_name n) ∈ image_suffixes ->
  frame_sizes fs' (joinpath (thumbs_of a b) (thumb_name n))
  = Some [(160, 160)].
Proof.
  intros H Hroot Ha Hp Hb Hc Hsuf.
  apply main_Ok_iff in H as [(Hn & _)|(files & o1 & Hls & Hloop & _)];
    [congruence|].
  apply sorted_iterdir_inv in Hls as (_ & _ & _ & ->).
  destruct (for_each_children_runs _ (visit_trail_frame lib)
              _ _ _ _ _ (NoDup_sorted_listdir _ _) Hloop)
    as (os & _ & Hos).
  assert (Hin : a ∈ merge_sort name_le (listdir fs trails_dir)).
  { rewrite merge_sort_Permutation. apply elem_of_listdir.
    rewrite Ha. eauto. }
  apply list_elem_of_lookup in Hin as [i Hi].
  destruct (Forall2_lookup_l _ _ _ _ _ Hos Hi)
    as (o_a & _ & s_a & s_a' & Hrun & Hs & Hs').
  apply visit_trail_Ok_iff in Hrun as [(Hnd & _)|(_ & o2 & Hrun & _)].
  { exfalso. apply Hnd. rewrite (Hs _) by reflexivity. exact Ha. }
  change (joinpath (thumbs_of a b) (thumb_name n))
    with (joinpath
            (joinpath
               (joinpath (joinpath (joinpath trails_dir a) "photos") b)
               "thumbs") (thumb_name n)).
  unfold frame_sizes.
  rewrite <- (Hs' _) by apply prefix_of_joinpath4.
  apply (process_trail_thumbnail_size _ _ _ _ _ _ c Hrun).
  - rewrite (Hs _) by apply prefix_of_joinpath. exact Hp.
  - rewrite (Hs _) by apply prefix_of_joinpath2. exact Hb.
  - rewrite (Hs _) by apply prefix_of_joinpath3. exact Hc.
  - exact Hsuf.
Qed.

(** C4. The outputs are squares of their target sizes, but for one:
    [favicon.ico] holds the 16x16 image only.  With a decodable logo and a
    place to write the icons, the icon generator finishes; its PNG files
    hold one image each, of exactly 192x192, 512x512, 180x180 and 32x32
    pixels; it asks the ICO writer for the sizes 16x16, 32x32 and 48x48
    and prints that it made them, but saves the 16x16 image, and the
    writer passes every size larger than the image that is saved by: the
    file holds one image of 16x16 pixels, and no file of the icon
    generator holds an image of 48x48 pixels.  For the thumbnail
    generator: with a decodable photo whose converted mode the JPEG
    encoder takes and a place to write to, [create_square_thumbnail]
    finishes; whenever it finishes the file it wrote holds one image of
    exactly 160x160 pixels, whatever the dimensions of the photo; so does
    the thumbnail of every entry the loop over a waypoint hands to it;
    and after a run that finishes every path the run changed is a new
    directory or holds one image of 160x160 pixels, and every regular
    file with an image extension in a waypoint directory has such a
    thumbnail. *)
Theorem c4_favicon_holds_the_16x16_image_only :
  (forall fs c logo0,
     fs !! logo_path = Some (NFile c) -> decode lib c = Some logo0 ->
     icons_possible fs ->
     exists out fs',
       generate_icons lib fs = Ok tt out fs'
       /\ frame_sizes fs' (joinpath icons_dir "icon-192.png")
          = Some [(192, 192)]
       /\ frame_sizes fs' (joinpath icons_dir "icon-512.png")
          = Some [(512, 512)]
       /\ frame_sizes fs' (joinpath icons_dir "apple-touch-icon.png")
          = Some [(180, 180)]
       /\ frame_sizes fs' (joinpath icons_dir "favicon-32.png")
          = Some [(32, 32)]
       /\ Created "favicon.ico" [(16, 16); (32, 32); (48, 48)] ∈ out
       /\ frame_sizes fs' (joinpath icons_dir "favicon.ico")
          = Some [(16, 16)]
       /\ (forall n sizes,
             n ∈ icon_files ->
             frame_sizes fs' (joinpath icons_dir n) = Some sizes ->
             (48, 48) ∉ sizes))
  /\ (forall fs input_path output_path c img,
        fs !! input_path = Some (NFile c) -> decode lib c = Some img ->
        0 <= fst (size img) -> 0 <= snd (size img) ->
        encoder_accepts (JPEG JPEG_QUALITY)
          (mode (convert_if_necessary lib img)) = true ->
        writable (fs !! output_path) ->
        fs !! removelast output_path = Some NDir ->
        exists fs',
          create_square_thumbnail lib input_path output_path THUMBNAIL_SIZE fs
          = Ok tt [] fs')
  /\ (forall fs input_path output_path out fs',
        create_square_thumbnail lib input_path output_path THUMBNAIL_SIZE fs
        = Ok tt out fs' ->
        frame_sizes fs' output_path = Some [(160, 160)])
  /\ (forall fs thumbs_dir entry out fs',
        process_image lib thumbs_dir entry fs = Ok tt out fs' ->
        fs !! entry <> Some NDir ->
        lower (suffix entry) ∈ image_suffixes ->
        frame_sizes fs' (thumb_path thumbs_dir entry) = Some [(160, 160)])
  /\ (forall fs out fs' k,
        main lib fs = Ok tt out fs' -> fs' !! k <> fs !! k ->
        fs' !! k = Some NDir \/ frame_sizes fs' k = Some [(160, 160)])
  /\ (forall fs out fs' a b n c,
        main lib fs = Ok tt out fs' ->
        fs !! trails_dir = Some NDir ->
        fs !! joinpath trails_dir a = Some NDir ->
        fs !! joinpath (joinpath trails_dir a) "photos" = Some NDir ->
        fs !! joinpath (joinpath (joinpath trails_dir a) "photos") b
        = Some NDir ->
        fs !! joinpath
                (joinpath (joinpath (joinpath trails_dir a) "photos") b) n
        = Some (NFile c) ->
        lower (suffix_of_name n) ∈ image_suffixes ->
        frame_sizes fs' (joinpath (thumbs_of a b) (thumb_name n))
        = Some [(160, 160)]).
Proof.
  split; [|split; [|split; [|split; [|split]]]].
  - intros fs c logo0 Hl Hd Hp.
    destruct (generate_icons_run lib fs c logo0 Hl Hd Hp)
      as (fs1 & _ & Hrun).
    eexists _, _. split; [exact Hrun|].
    do 4 (split; [lookup_icon|]).
    split.
    { unfold icons_report.
      repeat first [apply list_elem_of_here | apply list_elem_of_further]. }
    split; [lookup_icon|].
    intros n sizes Hn Hsizes Hin. unfold icon_files in Hn.
    repeat (apply elem_of_cons in Hn as [->|Hn]; [no_48 Hsizes Hin|]).
    exact (proj1 (elem_of_nil n) Hn).
  - intros fs input_path output_path c img Hin Hdec Hw Hh Hacc Hwr Hpar.
    destruct (make_thumbnail_ok lib img THUMBNAIL_SIZE Hw Hh) as [thumb Hth].
    eexists. unfold create_square_thumbnail.
    eapply (bind_ok_eq _ _ _ _ []);
      [unfold Image_open; rewrite Hin, Hdec; reflexivity|].
    eapply (bind_ok_eq _ _ _ _ []); [rewrite Hth; apply lift_inr|].
    apply Image_save_ok; [exact Hwr|exact Hpar|].
    cbn [forallb stored_frames take].
    rewrite (make_thumbnail_mode lib _ _ _ Hth), Hacc. reflexivity.
  - intros fs input_path output_path out fs' H.
    apply create_square_thumbnail_Ok_iff in H
      as (c & img & thumb & _ & _ & Hth & _ & _ & _ & ->).
    unfold frame_sizes. rewrite lookup_insert_eq. cbn.
    rewrite (make_thumbnail_size lib _ _ _ Hth). reflexivity.
  - intros fs thumbs_dir entry out fs' H Hnd Hsuf.
    apply process_image_Ok_iff in H
      as [([Hd|Hns] & _)|(_ & _ & c & img & thumb & H)];
      [contradiction|contradiction|].
    destruct H as (_ & _ & Hth & _ & _ & _ & ->).
    unfold frame_sizes. rewrite lookup_insert_eq. cbn.
    rewrite (make_thumbnail_size lib _ _ _ Hth). reflexivity.
  - intros fs out fs' k H Hk.
    destruct (main_changes lib fs out fs' k H)
      as [Hsame|(T & _ & [(_ & _ & Hdir)|(_ & n & thumb & _ & Hl & Hsz)])].
    + contradiction.
    + by left.
    + right. unfold frame_sizes. rewrite Hl. cbn. rewrite Hsz. reflexivity.
  - intros fs out fs' a b n c. apply main_thumbnail_size.
Qed.

(** C7. Without a [trails] directory the thumbnail generator prints one
    line, leaves the file system as it is and returns normally.  It is not
    the only condition handled: a trail without a [photos] directory is
    handled in the same way, by a line and a return from [process_trail],
    after which the run goes on.  Nothing else is handled in either
    script.  The thumbnail generator ends with an exception on every tree
    that is not as [tree_ok] describes, and only on those: so whenever
    [trails] or a [photos] is no directory, a [thumbs] is no directory, an
    entry with an image extension that is no directory cannot be opened,
    decoded or written as a JPEG, or its thumbnail cannot be written.  A
    run of the icon generator that finishes has made its directory, read
    the logo, written its five files and printed its six lines; whenever
    the logo cannot be read, or the directory cannot be made, or a file
    cannot be written, it ends with an exception. *)
Theorem c7_missing_trails_and_missing_photos_are_handled :
  (forall fs, fs !! trails_dir = None ->
     main lib fs = Ok tt [TrailsNotFound trails_dir] fs)
  /\ (forall fs Tr, fs !! joinpath Tr "photos" = None ->
        process_trail lib Tr fs
        = Ok tt [NoPhotosDir (joinpath Tr "photos")] fs)
  /\ (forall fs, (exists e, main lib fs = Raise e) <-> ~ tree_ok lib fs)
  /\ (forall fs, fs !! trails_dir = Some NSpecial
                 \/ (exists c, fs !! trails_dir = Some (NFile c)) ->
        main lib fs = Raise NotADirectoryError)
  /\ (forall fs out fs',
        generate_icons lib fs = Ok tt out fs' ->
        icons_possible fs
        /\ exists c logo0,
             fs !! logo_path = Some (NFile c) /\ decode lib c = Some logo0
             /\ out = icons_report
             /\ fs' = icons_written lib (ensure_rgba lib logo0)
                        (with_icons_dir fs))
  /\ (forall fs,
        ~ (icons_possible fs
           /\ exists c logo0, fs !! logo_path = Some (NFile c)
                              /\ decode lib c = Some logo0) ->
        exists e, generate_icons lib fs = Raise e).
Proof.
  split; [|split; [|split; [|split; [|split]]]].
  - intros fs H. apply main_Ok_iff. by left.
  - intros fs Tr H. by apply missing_photos_is_reported.
  - intros fs. split.
    + intros [e He] Hok.
      destruct (tree_ok_main_Ok lib fs Hok) as (o & s' & H).
      rewrite He in H. discriminate H.
    + intros Hbad.
      destruct (result_cases (main lib fs)) as [([] & o & s' & H)|He];
        [|exact He].
      exfalso. apply Hbad. eapply main_Ok_tree_ok. exact H.
  - intros fs H. unfold main.
    erewrite bind_ok by reflexivity.
    rewrite bool_decide_eq_true_2 by (destruct H as [->|[c ->]]; eauto).
    cbn [negb]. rewrite match_result_id. apply bind_raise.
    unfold sorted_iterdir. by destruct H as [->|[c ->]].
  - intros fs out fs'. apply generate_icons_inv.
  - intros fs Hbad.
    destruct (result_cases (generate_icons lib fs))
      as [([] & o & s' & H)|He]; [|exact He].
    exfalso. apply Hbad.
    apply generate_icons_inv in H as (Hp & c & logo0 & Hl & Hd & _).
    eauto.
Qed.

End Outputs.

(** * The statements at concrete inputs *)

Lemma finished_eq (r : result unit) :
  finished r = true -> r = Ok tt (printed r) (final_fs r).
Proof. destruct r as [[] o f|e]; [reflexivity|discriminate]. Qed.

(** The runs of the scenario finish. *)
Lemma scenario_waypoint_finishes :
  scenario_waypoint
  = Ok tt (printed scenario_waypoint) (final_fs scenario_waypoint).
Proof. apply finished_eq. vm_compute. reflexivity. Qed.

Lemma scenario_run_finishes :
  scenario_run = Ok tt (printed scenario_run) (final_fs scenario_run).
Proof. apply finished_eq. vm_compute. reflexivity. Qed.

Lemma scenario_entry_finishes :
  scenario_entry = Ok tt (printed scenario_entry) (final_fs scenario_entry).
Proof. apply finished_eq. vm_compute. reflexivity. Qed.

Lemma c3_crop_box_within_bounds_and_centered_witness :
  size landscape = (300, 200) /\ 0 < 300 /\ 0 < 200 /\ 300 <> 200
  /\ let '(left_, top, right_, bottom) := crop_box 300 200 in
     right_ - left_ = Z.min 300 200 /\ bottom - top = Z.min 300 200
     /\ 0 <= left_ /\ right_ <= 300 /\ 0 <= top /\ bottom <= 200
     /\ Z.abs (left_ - (300 - right_)) <= 1
     /\ Z.abs (top - (200 - bottom)) <= 1
     /\ exists cropped,
          crop landscape (left_, top, right_, bottom) = inr cropped
          /\ size cropped = (Z.min 300 200, Z.min 300 200).
Proof.
  split; [reflexivity|]. split; [lia|]. split; [lia|]. split; [lia|].
  apply (c3_crop_box_within_bounds_and_centered landscape 300 200);
    [reflexivity | lia | lia | lia].
Defined.

Lemma fs_logo_icons_possible : icons_possible fs_logo.
Proof.
  split.
  - right. split; reflexivity.
  - intros n Hn. unfold icon_files in Hn.
    repeat (apply elem_of_cons in Hn as [->|Hn]; [exact I|]).
    by apply elem_of_nil in Hn.
Qed.

Lemma c4_favicon_holds_the_16x16_image_only_witness :
  (exists out fs',
     generate_icons simple_imaging fs_logo = Ok tt out fs'
     /\ frame_sizes fs' (joinpath icons_dir "icon-192.png")
        = Some [(192, 192)]
     /\ frame_sizes fs' (joinpath icons_dir "icon-512.png")
        = Some [(512, 512)]
     /\ frame_sizes fs' (joinpath icons_dir "apple-touch-icon.png")
        = Some [(180, 180)]
     /\ frame_sizes fs' (joinpath icons_dir "favicon-32.png")
        = Some [(32, 32)]
     /\ Created "favicon.ico" [(16, 16); (32, 32); (48, 48)] ∈ out
     /\ frame_sizes fs' (joinpath icons_dir "favicon.ico")
        = Some [(16, 16)]
     /\ (forall n sizes,
           n ∈ icon_files ->
           frame_sizes fs' (joinpath icons_dir n) = Some sizes ->
           (48, 48) ∉ sizes))
  /\ (exists fs',
        create_square_thumbnail simple_imaging (W1 ++ ["a.jpg"])
          (W1 ++ ["a-small.jpg"]) THUMBNAIL_SIZE fs_corrupt
        = Ok tt [] fs')
  /\ frame_sizes (final_fs scenario_entry)
       (thumb_path (W1 ++ ["thumbs"]) (W1 ++ ["img.JPG"]))
     = Some [(160, 160)]
  /\ frame_sizes (final_fs scenario_run)
       (joinpath (thumbs_of "A" "W1") (thumb_name "img.png"))
     = Some [(160, 160)].
Proof.
  split; [|split; [|split]].
  - apply (proj1 (c4_favicon_holds_the_16x16_image_only simple_imaging)
             fs_logo (Source (Some logo)) logo);
      [reflexivity | reflexivity | exact fs_logo_icons_possible].
  - apply (proj1 (proj2 (c4_favicon_holds_the_16x16_image_only
                           simple_imaging))
             fs_corrupt (W1 ++ ["a.jpg"]) (W1 ++ ["a-small.jpg"])
             (Source (Some landscape)) landscape);
      [reflexivity | reflexivity | simpl; lia | simpl; lia | reflexivity
      | exact I | reflexivity].
  - apply (proj1 (proj2 (proj2 (proj2
             (c4_favicon_holds_the_16x16_image_only simple_imaging))))
             (final_fs scenario_waypoint) (W1 ++ ["thumbs"])
             (W1 ++ ["img.JPG"]) (printed scenario_entry)
             (final_fs scenario_entry));
      [ exact scenario_entry_finishes
      | vm_compute; discriminate
      | vm_compute; apply list_elem_of_here ].
  - apply (proj2 (proj2 (proj2 (proj2 (proj2
             (c4_favicon_holds_the_16x16_image_only simple_imaging)))))
             fs_scenario (printed scenario_run) (final_fs scenario_run)
             "A" "W1" "img.png" (Source (Some portrait)));
      [ exact scenario_run_finishes
      | reflexivity | reflexivity | reflexivity | reflexivity | reflexivity
      | vm_compute; apply list_elem_of_further, list_elem_of_further,
          list_elem_of_here ].
Defined.


(** The favicon of the concrete logo: opaque red on the left, white where
    the logo is transparent. *)
Example favicon_pixels :
  match final_fs (generate_icons simple_imaging fs_logo)
        !! joinpath icons_dir "favicon.ico" with
  | Some (NFile (Written _ [f16])) =>
      size f16 = (16, 16)
      /\ getpixel f16 2 5 = [200; 30; 30]
      /\ getpixel f16 12 5 = [255; 255; 255]
  | _ => False
  end.
Proof. vm_compute. repeat split. Qed.


(** C6 as the specification words it fails at a socket named [cam.jpg]:
    it is no regular file, yet it is not passed by: it is announced and
    handed to the thumbnailer, where opening it raises, and the run
    ends. *)
Lemma c6_socket_counterexample :
  fs_socket !! (W1 ++ ["cam.jpg"]) = Some NSpecial
  /\ ~ regular_file fs_socket (W1 ++ ["cam.jpg"])
  /\ thumbnailed simple_imaging fs_socket (W1 ++ ["thumbs"])
       (W1 ++ ["cam.jpg"])
  /\ ~ skipped simple_imaging fs_socket (W1 ++ ["thumbs"])
         (W1 ++ ["cam.jpg"])
  /\ process_image simple_imaging (W1 ++ ["thumbs"]) (W1 ++ ["cam.jpg"])
       fs_socket = Raise OSError
  /\ main simple_imaging fs_socket = Raise OSError
  /\ ~ processed_iff_regular_image_file simple_imaging.
Proof.
  assert (Hnode : fs_socket !! (W1 ++ ["cam.jpg"]) = Some NSpecial)
    by reflexivity.
  assert (Hreg : ~ regular_file fs_socket (W1 ++ ["cam.jpg"])).
  { intros [c Hc]. rewrite Hnode in Hc. discriminate. }
  assert (Hth : thumbnailed simple_imaging fs_socket (W1 ++ ["thumbs"])
                  (W1 ++ ["cam.jpg"])) by (vm_compute; reflexivity).
  split; [exact Hnode|]. split; [exact Hreg|]. split; [exact Hth|].
  split; [intros Hs; vm_compute in Hs; discriminate|].
  split; [vm_compute; reflexivity|]. split; [vm_compute; reflexivity|].
  intros Hclaim.
  destruct (Hclaim fs_socket (W1 ++ ["thumbs"]) (W1 ++ ["cam.jpg"]))
    as [[Hiff _] _]; [rewrite Hnode; eauto|].
  apply Hreg, Hiff, Hth.
Qed.

Lemma c6_not_a_directory_and_image_extension_witness :
  thumbnailed simple_imaging fs_scenario (W1 ++ ["thumbs"]) (W1 ++ ["img.JPG"])
  /\ skipped simple_imaging fs_scenario (W1 ++ ["thumbs"])
       (W1 ++ ["notes.txt"])
  /\ skipped simple_imaging (final_fs scenario_waypoint) (W1 ++ ["thumbs"])
       (W1 ++ ["thumbs"]).
Proof.
  split; [|split].
  - apply (proj1 (c6_not_a_directory_and_image_extension simple_imaging
                    fs_scenario (W1 ++ ["thumbs"]) (W1 ++ ["img.JPG"]))).
    split; [discriminate|]. vm_compute. apply list_elem_of_here.
  - apply (proj1 (proj2 (c6_not_a_directory_and_image_extension
                           simple_imaging fs_scenario (W1 ++ ["thumbs"])
                           (W1 ++ ["notes.txt"])))).
    right. vm_compute. intros H.
    repeat (apply elem_of_cons in H as [H|H]; [discriminate|]).
    by apply elem_of_nil in H.
  - apply (proj1 (proj2 (c6_not_a_directory_and_image_extension
                           simple_imaging (final_fs scenario_waypoint)
                           (W1 ++ ["thumbs"]) (W1 ++ ["thumbs"])))).
    left. vm_compute. reflexivity.
Defined.

(** The last clause of C7 as the specification words it fails at a trail
    without [photos]: the run reports it and goes on to the end. *)
Lemma c7_missing_photos_counterexample :
  fs_no_photos !! trails_dir = Some NDir
  /\ fs_no_photos !! ["trails"; "A"; "photos"] = None
  /\ main simple_imaging fs_no_photos
     = Ok tt [ ProcessingTrail "A";
               NoPhotosDir ["trails"; "A"; "photos"];
               Done ] fs_no_photos
  /\ ~ only_missing_trails_is_handled simple_imaging.
Proof.
  assert (Hrun : main simple_imaging fs_no_photos
                 = Ok tt [ ProcessingTrail "A";
                           NoPhotosDir ["trails"; "A"; "photos"];
                           Done ] fs_no_photos)
    by (vm_compute; reflexivity).
  split; [reflexivity|]. split; [reflexivity|]. split; [exact Hrun|].
  intros Hclaim.
  assert (E : NoPhotosDir ["trails"; "A"; "photos"]
              = TrailsNotFound trails_dir).
  { apply (Hclaim _ _ _ _ Hrun); [|reflexivity].
    apply list_elem_of_further, list_elem_of_here. }
  discriminate E.
Qed.

Lemma c7_missing_trails_and_missing_photos_are_handled_witness :
  main simple_imaging fs_no_trails
  = Ok tt [TrailsNotFound trails_dir] fs_no_trails
  /\ process_trail simple_imaging ["trails"; "A"] fs_no_photos
     = Ok tt [NoPhotosDir ["trails"; "A"; "photos"]] fs_no_photos
  /\ main simple_imaging fs_corrupt = Raise UnidentifiedImageError
  /\ ~ tree_ok simple_imaging fs_corrupt
  /\ main simple_imaging fs_trails_is_file = Raise NotADirectoryError
  /\ (exists e, generate_icons simple_imaging fs_no_trails = Raise e).
Proof.
  assert (Hbad : main simple_imaging fs_corrupt = Raise UnidentifiedImageError)
    by (vm_compute; reflexivity).
  split; [|split; [|split; [|split; [|split]]]].
  - apply (proj1 (c7_missing_trails_and_missing_photos_are_handled
                    simple_imaging)).
    reflexivity.
  - apply (proj1 (proj2 (c7_missing_trails_and_missing_photos_are_handled
                           simple_imaging)) fs_no_photos ["trails"; "A"]).
    reflexivity.
  - exact Hbad.
  - apply (proj1 (proj2 (proj2
             (c7_missing_trails_and_missing_photos_are_handled
                simple_imaging))) fs_corrupt).
    eexists. exact Hbad.
  - apply (proj1 (proj2 (proj2 (proj2
             (c7_missing_trails_and_missing_photos_are_handled
                simple_imaging))))).
    right. exists (Source None). reflexivity.
  - apply (proj2 (proj2 (proj2 (proj2 (proj2
             (c7_missing_trails_and_missing_photos_are_handled
                simple_imaging)))))).
    intros [_ (c & logo0 & Hl & _)]. vm_compute in Hl. discriminate Hl.
Defined.

(** The scenario of the specification, run: what is printed, and which
    picture [thumbs/img.jpg] is the thumbnail of. *)
Example scenario_printed :
  printed scenario_run
  = [ ProcessingTrail "A";
      ThumbLine "img.JPG" "img.jpg";
      ThumbLine "img.png" "img.jpg";
      ProcessedWaypoint "W1" 1;
      Done ].
Proof. vm_compute. reflexivity. Qed.

Example scenario_order : name_le "img.JPG" "img.png" /\ ~ name_le "img.png" "img.JPG".
Proof. split; vm_compute; [discriminate|auto]. Qed.

Example scenario_last_writer :
  exists thumb,
    make_thumbnail simple_imaging portrait THUMBNAIL_SIZE = inr thumb
    /\ final_fs scenario_run !! (W1 ++ ["thumbs"; "img.jpg"])
       = Some (NFile (Written (JPEG JPEG_QUALITY) [thumb])).
Proof. eexists. split; vm_compute; reflexivity. Qed.

Lemma c8_thumbnail_name_and_last_writer_witness :
  scenario_waypoint
  = Ok tt (printed scenario_waypoint) (final_fs scenario_waypoint)
  /\ fs_scenario !! W1 = Some NDir
  /\ fs_scenario !! joinpath W1 "img.png"
     = Some (NFile (Source (Some portrait)))
  /\ lower (suffix_of_name "img.png") ∈ image_suffixes
  /\ exists thumb,
       make_thumbnail simple_imaging portrait THUMBNAIL_SIZE = inr thumb
       /\ ThumbLine "img.png" "img.jpg" ∈ printed scenario_waypoint
       /\ final_fs scenario_waypoint
          !! joinpath (joinpath W1 "thumbs") "img.jpg"
          = Some (NFile (Written (JPEG JPEG_QUALITY) [thumb])).
Proof.
  assert (Hrun : scenario_waypoint
                 = Ok tt (printed scenario_waypoint)
                     (final_fs scenario_waypoint))
    by (vm_compute; reflexivity).
  assert (Hsuf : lower (suffix_of_name "img.png") ∈ image_suffixes)
    by (vm_compute; apply list_elem_of_further, list_elem_of_further,
          list_elem_of_here).
  split; [exact Hrun|]. split; [reflexivity|]. split; [reflexivity|].
  split; [exact Hsuf|].
  destruct (c8_thumbnail_name_and_last_writer simple_imaging W1 fs_scenario
              (printed scenario_waypoint) (final_fs scenario_waypoint)
              "img.png" (Source (Some portrait)) Hrun eq_refl eq_refl Hsuf)
    as (img & thumb & Hdec & Hth & Hline & _ & Hlast).
  injection Hdec as <-. exists thumb.
  split; [exact Hth|]. split; [exact Hline|]. apply Hlast.
  intros m Hm _ _ Hstem. apply elem_of_listdir in Hm.
  replace (listdir fs_scenario W1) with ["notes.txt"; "img.png"; "img.JPG"]
    in Hm by (vm_compute; reflexivity).
  apply elem_of_cons in Hm as [->|Hm]; [vm_compute in Hstem; discriminate|].
  apply elem_of_cons in Hm as [->|Hm]; [vm_compute; discriminate|].
  apply elem_of_cons in Hm as [->|Hm]; [vm_compute; discriminate|].
  exfalso. exact (proj1 (elem_of_nil m) Hm).
Defined.

Lemma c9_second_run_is_the_same_witness :
  scenario_run = Ok tt (printed scenario_run) (final_fs scenario_run)
  /\ main simple_imaging (final_fs scenario_run)
     = Ok tt (printed scenario_run) (final_fs scenario_run)
  /\ forall waypoint count,
       ProcessedWaypoint waypoint count ∈ printed scenario_run ->
       exists out2 fs2,
         main simple_imaging (final_fs scenario_run) = Ok tt out2 fs2
         /\ ProcessedWaypoint waypoint count ∈ out2.
Proof.
  assert (Hrun : scenario_run
                 = Ok tt (printed scenario_run) (final_fs scenario_run))
    by (vm_compute; reflexivity).
  split; [exact Hrun|].
  exact (c9_second_run_is_the_same simple_imaging fs_scenario
           (printed scenario_run) (final_fs scenario_run) Hrun).
Defined.

Lemma c10_non_directories_are_passed_by_witness :
  fs_scenario !! ["trails"; "readme.md"] <> Some NDir
  /\ visit_trail simple_imaging ["trails"; "readme.md"] fs_scenario
     = Ok tt [] fs_scenario
  /\ process_waypoint simple_imaging ["trails"; "readme.md"] fs_scenario
     = Ok tt [] fs_scenario
  /\ for_each [["trails"; "readme.md"]; ["trails"; "A"]]
       (visit_trail simple_imaging) fs_scenario
     = for_each [["trails"; "A"]] (visit_trail simple_imaging) fs_scenario
  /\ for_each [["trails"; "readme.md"]; ["trails"; "A"]]
       (process_waypoint simple_imaging) fs_scenario
     = for_each [["trails"; "A"]] (process_waypoint simple_imaging)
         fs_scenario.
Proof.
  assert (Hnd : fs_scenario !! ["trails"; "readme.md"] <> Some NDir)
    by discriminate.
  split; [exact Hnd|].
  exact (c10_non_directories_are_passed_by simple_imaging fs_scenario
           ["trails"; "readme.md"] [["trails"; "A"]] Hnd).
Defined.

(** ** The further properties at concrete inputs *)

Lemma crop_keeps_central_square_witness :
  size landscape = (300, 200) /\ 0 <= 300 /\ 0 <= 200
  /\ let '(left_, top, right_, bottom) := crop_box 300 200 in
     exists cropped,
       crop landscape (left_, top, right_, bottom) = inr cropped
       /\ mode cropped = mode landscape
       /\ size cropped = (Z.min 300 200, Z.min 300 200)
       /\ forall x y, 0 <= x < Z.min 300 200 -> 0 <= y < Z.min 300 200 ->
            0 <= x + left_ < 300 /\ 0 <= y + top < 200
            /\ load cropped x y = load landscape (x + left_) (y + top).
Proof.
  split; [reflexivity|]. split; [lia|]. split; [lia|].
  apply (crop_keeps_central_square landscape 300 200); [reflexivity|lia|lia].
Defined.

Lemma create_square_thumbnail_succeeds_iff_witness :
  fs_corrupt !! (W1 ++ ["a.jpg"]) = Some (NFile (Source (Some landscape)))
  /\ decode simple_imaging (Source (Some landscape)) = Some landscape
  /\ 0 <= fst (size landscape) /\ 0 <= snd (size landscape)
  /\ can_save fs_corrupt (W1 ++ ["a-small.jpg"])
  /\ ((exists out fs',
         create_square_thumbnail simple_imaging (W1 ++ ["a.jpg"])
           (W1 ++ ["a-small.jpg"]) THUMBNAIL_SIZE fs_corrupt
         = Ok tt out fs')
      <-> mode landscape ∈ thumbnailable_modes).
Proof.
  split; [reflexivity|]. split; [reflexivity|].
  split; [simpl; lia|]. split; [simpl; lia|].
  split; [vm_compute; reflexivity|].
  apply (create_square_thumbnail_succeeds_iff simple_imaging fs_corrupt
           (W1 ++ ["a.jpg"]) (W1 ++ ["a-small.jpg"])
           (Source (Some landscape)) landscape);
    [reflexivity | reflexivity | simpl; lia | simpl; lia
    | vm_compute; reflexivity].
Defined.

Lemma thumbnail_replaces_the_extension_witness :
  scenario_entry = Ok tt (printed scenario_entry) (final_fs scenario_entry)
  /\ final_fs scenario_waypoint !! (W1 ++ ["img.JPG"]) <> Some NDir
  /\ lower (suffix (W1 ++ ["img.JPG"])) ∈ image_suffixes
  /\ name (W1 ++ ["img.JPG"]) = "img" +:+ ".JPG"
  /\ printed scenario_entry = [ThumbLine "img.JPG" "img.jpg"]
  /\ matches_star_jpg "img.jpg" = true
  /\ (forall k, k <> W1 ++ ["thumbs"; "img.jpg"] ->
        final_fs scenario_entry !! k = final_fs scenario_waypoint !! k)
  /\ exists thumb,
       final_fs scenario_entry !! (W1 ++ ["thumbs"; "img.jpg"])
       = Some (NFile (Written (JPEG JPEG_QUALITY) [thumb]))
       /\ size thumb = (THUMBNAIL_SIZE, THUMBNAIL_SIZE).
Proof.
  pose proof scenario_entry_finishes as Hrun.
  assert (Hnd : final_fs scenario_waypoint !! (W1 ++ ["img.JPG"])
                <> Some NDir) by (vm_compute; discriminate).
  assert (Hsuf : lower (suffix (W1 ++ ["img.JPG"])) ∈ image_suffixes)
    by (vm_compute; apply list_elem_of_here).
  split; [exact Hrun|]. split; [exact Hnd|]. split; [exact Hsuf|].
  exact (thumbnail_replaces_the_extension simple_imaging (W1 ++ ["thumbs"])
           (W1 ++ ["img.JPG"]) (final_fs scenario_waypoint)
           (printed scenario_entry) (final_fs scenario_entry)
           Hrun Hnd Hsuf).
Defined.

Lemma waypoint_log_is_sorted_witness :
  scenario_waypoint
  = Ok tt (printed scenario_waypoint) (final_fs scenario_waypoint)
  /\ fs_scenario !! W1 = Some NDir
  /\ printed scenario_waypoint
     = (thumb_line
          <$> thumbnailed_names fs_scenario W1
                (merge_sort name_le (listdir fs_scenario W1)))
       ++ [ProcessedWaypoint (name W1)
             (count_jpg (final_fs scenario_waypoint) (joinpath W1 "thumbs"))]
  /\ StronglySorted name_le
       (thumbnailed_names fs_scenario W1
          (merge_sort name_le (listdir fs_scenario W1)))
  /\ forall n,
       n ∈ thumbnailed_names fs_scenario W1
             (merge_sort name_le (listdir fs_scenario W1))
       <-> lower (suffix_of_name n) ∈ image_suffixes
           /\ exists c, fs_scenario !! joinpath W1 n = Some (NFile c).
Proof.
  pose proof scenario_waypoint_finishes as Hrun.
  split; [exact Hrun|]. split; [reflexivity|].
  exact (waypoint_log_is_sorted simple_imaging W1 fs_scenario
           (printed scenario_waypoint) (final_fs scenario_waypoint)
           Hrun eq_refl).
Defined.

Lemma waypoint_thumbs_listing_witness :
  scenario_waypoint
  = Ok tt (printed scenario_waypoint) (final_fs scenario_waypoint)
  /\ fs_scenario !! W1 = Some NDir
  /\ final_fs scenario_waypoint !! joinpath W1 "thumbs" = Some NDir
  /\ (forall x,
        x ∈ listdir (final_fs scenario_waypoint) (joinpath W1 "thumbs")
        <-> x ∈ listdir fs_scenario (joinpath W1 "thumbs")
            \/ exists n,
                 n ∈ thumbnailed_names fs_scenario W1
                       (merge_sort name_le (listdir fs_scenario W1))
                 /\ x = thumb_name n)
  /\ (count_jpg fs_scenario (joinpath W1 "thumbs")
      <= count_jpg (final_fs scenario_waypoint) (joinpath W1 "thumbs"))%nat
  /\ (listdir fs_scenario (joinpath W1 "thumbs") = [] ->
      count_jpg (final_fs scenario_waypoint) (joinpath W1 "thumbs")
      = length (remove_dups
                  (thumb_name
                     <$> thumbnailed_names fs_scenario W1
                           (merge_sort name_le (listdir fs_scenario W1))))).
Proof.
  pose proof scenario_waypoint_finishes as Hrun.
  split; [exact Hrun|]. split; [reflexivity|].
  exact (waypoint_thumbs_listing simple_imaging W1 fs_scenario
           (printed scenario_waypoint) (final_fs scenario_waypoint)
           Hrun eq_refl).
Defined.

Lemma photos_not_a_directory_ends_the_run_witness :
  fs_photos_is_file !! trails_dir = Some NDir
  /\ fs_photos_is_file !! joinpath trails_dir "A" = Some NDir
  /\ (exists c, fs_photos_is_file !! joinpath (joinpath trails_dir "A") "photos"
                = Some (NFile c))
  /\ process_trail simple_imaging (joinpath trails_dir "A") fs_photos_is_file
     = Raise NotADirectoryError
  /\ exists e, main simple_imaging fs_photos_is_file = Raise e.
Proof.
  split; [reflexivity|]. split; [reflexivity|].
  split; [exists (Source None); reflexivity|].
  apply (photos_not_a_directory_ends_the_run simple_imaging
           fs_photos_is_file "A");
    [reflexivity | reflexivity | right; exists (Source None); reflexivity].
Defined.

Lemma thumbs_not_a_directory_ends_the_run_witness :
  fs_thumbs_is_file !! trails_dir = Some NDir
  /\ fs_thumbs_is_file !! joinpath trails_dir "A" = Some NDir
  /\ fs_thumbs_is_file !! joinpath (joinpath trails_dir "A") "photos"
     = Some NDir
  /\ fs_thumbs_is_file
     !! joinpath (joinpath (joinpath trails_dir "A") "photos") "W1"
     = Some NDir
  /\ (exists c, fs_thumbs_is_file !! thumbs_of "A" "W1" = Some (NFile c))
  /\ process_waypoint simple_imaging
       (joinpath (joinpath (joinpath trails_dir "A") "photos") "W1")
       fs_thumbs_is_file
     = Raise FileExistsError
  /\ exists e, main simple_imaging fs_thumbs_is_file = Raise e.
Proof.
  split; [reflexivity|]. split; [reflexivity|]. split; [reflexivity|].
  split; [reflexivity|]. split; [exists (Source None); reflexivity|].
  apply (thumbs_not_a_directory_ends_the_run simple_imaging
           fs_thumbs_is_file "A" "W1");
    [reflexivity | reflexivity | reflexivity | reflexivity
    | right; exists (Source None); reflexivity].
Defined.

Lemma main_only_writes_thumbnails_witness :
  scenario_run = Ok tt (printed scenario_run) (final_fs scenario_run)
  /\ (forall k, effect (fun T => exists a b, T = thumbs_of a b)
                  fs_scenario (final_fs scenario_run) k)
  /\ (forall k, (forall a b, ~ thumbs_of a b `prefix_of` k) ->
                final_fs scenario_run !! k = fs_scenario !! k)
  /\ (forall k, is_Some (fs_scenario !! k) ->
                is_Some (final_fs scenario_run !! k))
  /\ (forall k, fs_scenario !! k = Some NDir ->
                final_fs scenario_run !! k = Some NDir)
  /\ (forall k d, fs_scenario !! k = Some (NFile (Source d)) ->
                  final_fs scenario_run !! k = Some (NFile (Source d))
                  \/ exists a b n,
                       k = joinpath (thumbs_of a b) (thumb_name n)).
Proof.
  pose proof scenario_run_finishes as Hrun.
  split; [exact Hrun|].
  exact (main_only_writes_thumbnails simple_imaging fs_scenario
           (printed scenario_run) (final_fs scenario_run) Hrun).
Defined.

Lemma fs_empty_trails_entries (n : string) :
  fs_empty_trails !! joinpath trails_dir n <> Some NDir.
Proof.
  intros H.
  assert (Hn : n ∈ listdir fs_empty_trails trails_dir).
  { apply elem_of_listdir. rewrite H. eauto. }
  replace (listdir fs_empty_trails trails_dir) with ["readme.md"]
    in Hn by (vm_compute; reflexivity).
  apply elem_of_cons in Hn as [->|Hn]; [vm_compute in H; discriminate|].
  exact (proj1 (elem_of_nil n) Hn).
Qed.

Lemma main_without_trails_prints_done_witness :
  fs_empty_trails !! trails_dir = Some NDir
  /\ main simple_imaging fs_empty_trails = Ok tt [Done] fs_empty_trails.
Proof.
  split; [reflexivity|].
  apply (main_without_trails_prints_done simple_imaging fs_empty_trails);
    [reflexivity | exact fs_empty_trails_entries].
Defined.

Lemma main_prints_the_run_log_witness :
  scenario_run = Ok tt (printed scenario_run) (final_fs scenario_run)
  /\ printed scenario_run = run_log fs_scenario (final_fs scenario_run).
Proof.
  pose proof scenario_run_finishes as Hrun.
  split; [exact Hrun|].
  exact (main_prints_the_run_log simple_imaging fs_scenario
           (printed scenario_run) (final_fs scenario_run) Hrun).
Defined.

Lemma main_succeeds_iff_witness :
  (exists out fs', main simple_imaging fs_scenario = Ok tt out fs')
  /\ tree_ok simple_imaging fs_scenario
  /\ (exists e, main simple_imaging fs_corrupt = Raise e)
  /\ ~ tree_ok simple_imaging fs_corrupt.
Proof.
  assert (Hrun : exists out fs',
            main simple_imaging fs_scenario = Ok tt out fs')
    by (eexists _, _; exact scenario_run_finishes).
  assert (Hbad : main simple_imaging fs_corrupt = Raise UnidentifiedImageError)
    by (vm_compute; reflexivity).
  split; [exact Hrun|].
  split; [exact (proj1 (main_succeeds_iff simple_imaging fs_scenario) Hrun)|].
  split; [eexists; exact Hbad|].
  intros Hok.
  destruct (proj2 (main_succeeds_iff simple_imaging fs_corrupt) Hok)
    as (out & fs' & H).
  rewrite Hbad in H. discriminate H.
Defined.

Lemma generate_icons_success_conditions_witness :
  icons_possible fs_logo
  /\ (exists c logo0, fs_logo !! logo_path = Some (NFile c)
                      /\ decode simple_imaging c = Some logo0
                      /\ mode logo0 ∈ rgba_convertible_modes)
  /\ exists out fs', generate_icons simple_imaging fs_logo = Ok tt out fs'.
Proof.
  assert (Hlogo : exists c logo0,
            fs_logo !! logo_path = Some (NFile c)
            /\ decode simple_imaging c = Some logo0
            /\ mode logo0 ∈ rgba_convertible_modes).
  { exists (Source (Some logo)), logo.
    split; [reflexivity|]. split; [reflexivity|].
    unfold rgba_convertible_modes.
    repeat first [apply list_elem_of_here | apply list_elem_of_further]. }
  split; [exact fs_logo_icons_possible|]. split; [exact Hlogo|].
  exact (proj2 (generate_icons_success_conditions simple_imaging fs_logo)
           fs_logo_icons_possible Hlogo).
Defined.

Lemma generate_icons_twice_witness :
  exists out fs',
    generate_icons simple_imaging fs_logo = Ok tt out fs'
    /\ generate_icons simple_imaging fs' = Ok tt out fs'.
Proof.
  destruct (generate_icons_run simple_imaging fs_logo (Source (Some logo))
              logo eq_refl eq_refl fs_logo_icons_possible)
    as (fs1 & _ & Hrun).
  eexists _, _. split; [exact Hrun|].
  exact (generate_icons_twice simple_imaging fs_logo _ _ Hrun).
Defined.

Lemma generate_icons_only_writes_icons_witness :
  exists out fs',
    generate_icons simple_imaging fs_logo = Ok tt out fs'
    /\ out = icons_report
    /\ fs' !! logo_path = fs_logo !! logo_path
    /\ forall k, fs' !! k <> fs_logo !! k ->
         (k = icons_dir /\ fs_logo !! k = None /\ fs' !! k = Some NDir)
         \/ exists n c, n ∈ icon_files /\ k = joinpath icons_dir n
                        /\ fs' !! k = Some (NFile c).
Proof.
  destruct (generate_icons_run simple_imaging fs_logo (Source (Some logo))
              logo eq_refl eq_refl fs_logo_icons_possible)
    as (fs1 & _ & Hrun).
  eexists _, _. split; [exact Hrun|].
  exact (generate_icons_only_writes_icons simple_imaging fs_logo _ _ Hrun).
Defined.

Lemma pwa_icons_keep_the_alpha_band_witness :
  exists out fs',
    generate_icons simple_imaging fs_logo = Ok tt out fs'
    /\ exists c logo0 r192 r512 r32,
         fs_logo !! logo_path = Some (NFile c)
         /\ decode simple_imaging c = Some logo0
         /\ mode (ensure_rgba simple_imaging logo0) = M_RGBA
         /\ r192 = resize simple_imaging (ensure_rgba simple_imaging logo0)
                     (192, 192)
         /\ r512 = resize simple_imaging (ensure_rgba simple_imaging logo0)
                     (512, 512)
         /\ r32 = resize simple_imaging (ensure_rgba simple_imaging logo0)
                    (32, 32)
         /\ fs' !! joinpath icons_dir "icon-192.png"
            = Some (NFile (Written PNG [r192]))
         /\ fs' !! joinpath icons_dir "icon-512.png"
            = Some (NFile (Written PNG [r512]))
         /\ fs' !! joinpath icons_dir "favicon-32.png"
            = Some (NFile (Written PNG [r32]))
         /\ Forall (fun r => mode r = M_RGBA /\ has_alpha (mode r) = true)
              [r192; r512; r32].
Proof.
  destruct (generate_icons_run simple_imaging fs_logo (Source (Some logo))
              logo eq_refl eq_refl fs_logo_icons_possible)
    as (fs1 & _ & Hrun).
  eexists _, _. split; [exact Hrun|].
  exact (pwa_icons_keep_the_alpha_band simple_imaging fs_logo _ _ Hrun).
Defined.

Lemma white_background_only_lightens_witness :
  mode logo = M_RGBA
  /\ on_white_background simple_imaging logo 16
     = inr (composited (resize simple_imaging logo (16, 16)) 16)
  /\ load (resize simple_imaging logo (16, 16)) 2 5 = (200, 30, 30, 255)
  /\ exists r' g' b',
       getpixel (composited (resize simple_imaging logo (16, 16)) 16) 2 5
       = [r'; g'; b']
       /\ 200 <= r' <= 255 /\ 30 <= g' <= 255 /\ 30 <= b' <= 255
       /\ (255 = 255 -> r' = 200 /\ g' = 30 /\ b' = 30).
Proof.
  split; [reflexivity|]. split; [reflexivity|]. split; [reflexivity|].
  apply (white_background_only_lightens simple_imaging logo
           (composited (resize simple_imaging logo (16, 16)) 16)
           16 2 5 200 30 30 255);
    [reflexivity | reflexivity | lia | lia | reflexivity
    | unfold is_byte; lia | unfold is_byte; lia | unfold is_byte; lia
    | unfold is_byte; lia].
Defined.
